(** * Trade extraction from brokerage statement text

    A shallow embedding of [src/scripts/parse_trades.py]: the statement
    walk ([parse_rbc_statement_trades]), the alias collector
    ([collect_rbc_asset_aliases]), the symbol resolver
    ([resolve_rbc_symbol]), the number and date helpers and the driver
    ([parse_rbc]), followed by the properties proved about them.

    Modelling conventions.
    - Python [str] values are lists of 8-bit characters ([text]).  The
      character classes ([\s], [\d], [\w], [str.upper], [str.split],
      [str.splitlines]) are the ASCII ones; characters above 127 are
      treated as ordinary symbols.
    - The [re] module is embedded by a small backtracking matcher that
      enumerates the successes of a pattern in Python's priority order;
      every pattern of the source is transcribed constructor by
      constructor.
    - Python [float] values are IEEE 754 binary64 numbers, as the
      standard library specifies them ([SpecFloat], precision 53,
      maximal exponent 1024): signed zeros, finite numbers, the two
      infinities and NaN.  [float(s)] is the float nearest to the
      decimal that [s] writes, ties going to the even mantissa, and an
      infinity beyond the largest float; a product is rounded the same
      way.
    - [dict] objects whose iteration order the code relies on are
      association lists in insertion order.
    - [print] appends a line to an explicit log. *)

From Stdlib Require Import List Ascii ZArith QArith Qabs Bool Arith Lia Sorted.
From Stdlib Require String DecimalString SpecFloat.
Import ListNotations.
Import String.StringSyntax.

Local Open Scope string_scope.
Local Open Scope bool_scope.
Local Open Scope nat_scope.
Local Open Scope list_scope.

(** ** Text *)

Abbreviation text := (list ascii).

Coercion String.list_ascii_of_string : String.string >-> list.

Module Text.

Definition code (c : ascii) : nat := nat_of_ascii c.

Definition between (lo hi : nat) (c : ascii) : bool :=
  (lo <=? code c) && (code c <=? hi).

Definition is_digit : ascii -> bool := between 48 57.
Definition is_upper : ascii -> bool := between 65 90.
Definition is_lower : ascii -> bool := between 97 122.

(** [str.isspace] on the ASCII range: TAB, LF, VT, FF, CR, FS, GS, RS,
    US and the space. *)
Definition is_space (c : ascii) : bool :=
  between 9 13 c || between 28 32 c.

(** Line boundaries of [str.splitlines] on the ASCII range. *)
Definition is_linebreak (c : ascii) : bool :=
  between 10 13 c || between 28 30 c.

(** [\w] on the ASCII range. *)
Definition is_word (c : ascii) : bool :=
  is_digit c || is_upper c || is_lower c || (code c =? 95).

Definition is_upper_or_digit (c : ascii) : bool := is_upper c || is_digit c.

Definition ascii_eqb (a b : ascii) : bool := code a =? code b.

Definition is_char (a : ascii) : ascii -> bool := ascii_eqb a.

Definition upper_char (c : ascii) : ascii :=
  if is_lower c then ascii_of_nat (code c - 32) else c.

Definition lower_char (c : ascii) : ascii :=
  if is_upper c then ascii_of_nat (code c + 32) else c.

Definition upper (s : text) : text := map upper_char s.
Definition lower (s : text) : text := map lower_char s.

Fixpoint text_eqb (a b : text) : bool :=
  match a, b with
  | [], [] => true
  | x :: a', y :: b' => ascii_eqb x y && text_eqb a' b'
  | _, _ => false
  end.

Fixpoint startswith (p s : text) : bool :=
  match p, s with
  | [], _ => true
  | x :: p', y :: s' => ascii_eqb x y && startswith p' s'
  | _ :: _, [] => false
  end.

Definition endswith (p s : text) : bool := startswith (rev p) (rev s).

(** [needle in hay] *)
Fixpoint contains (needle hay : text) : bool :=
  startswith needle hay ||
  match hay with
  | [] => false
  | _ :: hay' => contains needle hay'
  end.

Fixpoint lstrip (s : text) : text :=
  match s with
  | c :: s' => if is_space c then lstrip s' else s
  | [] => []
  end.

Definition rstrip (s : text) : text := rev (lstrip (rev s)).
Definition strip (s : text) : text := rstrip (lstrip s).

Fixpoint lstrip_char (a : ascii) (s : text) : text :=
  match s with
  | c :: s' => if ascii_eqb a c then lstrip_char a s' else s
  | [] => []
  end.

(** [s.rstrip(a)] for a one-character argument. *)
Definition rstrip_char (a : ascii) (s : text) : text :=
  rev (lstrip_char a (rev s)).

(** [s.replace(a, "")] for a one-character [a]. *)
Definition remove_char (a : ascii) (s : text) : text :=
  filter (fun c => negb (ascii_eqb a c)) s.

Fixpoint split_ws_from (cur : text) (s : text) : list text :=
  match s with
  | [] => match cur with [] => [] | _ => [rev cur] end
  | c :: s' =>
      if is_space c then
        match cur with
        | [] => split_ws_from [] s'
        | _ => rev cur :: split_ws_from [] s'
        end
      else split_ws_from (c :: cur) s'
  end.

(** [s.split()] *)
Definition split_ws (s : text) : list text := split_ws_from [] s.

(** [sep.join(parts)] *)
Fixpoint join (sep : text) (parts : list text) : text :=
  match parts with
  | [] => []
  | [p] => p
  | p :: ps => p ++ sep ++ join sep ps
  end.

Fixpoint splitlines_from (cur : text) (s : text) : list text :=
  match s with
  | [] => match cur with [] => [] | _ => [rev cur] end
  | c :: s' =>
      if is_linebreak c then
        if ascii_eqb c "013" then
          match s' with
          | d :: s'' =>
              if ascii_eqb d "010" then rev cur :: splitlines_from [] s''
              else rev cur :: splitlines_from [] s'
          | [] => rev cur :: splitlines_from [] s'
          end
        else rev cur :: splitlines_from [] s'
      else splitlines_from (c :: cur) s'
  end.

(** [s.splitlines()] *)
Definition splitlines (s : text) : list text := splitlines_from [] s.

(** [s.isdigit()] *)
Definition isdigit (s : text) : bool :=
  match s with [] => false | _ => forallb is_digit s end.

Definition digit_value (c : ascii) : Z := Z.of_nat (code c - 48).

(** [int(s)] for a run of decimal digits. *)
Definition int_of_digits (s : text) : Z :=
  fold_left (fun acc c => (10 * acc + digit_value c)%Z) s 0%Z.

(** [str(n)] for a non-negative integer. *)
Definition str_N (n : N) : text :=
  DecimalString.NilEmpty.string_of_uint (N.to_uint n).

Definition zero_pad (width : nat) (s : text) : text :=
  repeat "0"%char (width - length s) ++ s.

(** [f"{z:0Nd}"]: the sign counts towards the width. *)
Definition format_0d (width : nat) (z : Z) : text :=
  if (z <? 0)%Z then "-"%char :: zero_pad (width - 1) (str_N (Z.abs_N z))
  else zero_pad width (str_N (Z.abs_N z)).

End Text.

(** ** Regular expressions

    The fragment of Python's [re] syntax that the source uses.
    Repetition is only ever applied to a character class, so [Rep]
    carries the class, the bounds and the greediness.  [run r st] lists
    the states reached by matching [r] from [st], in the order in which
    a backtracking matcher tries them; the first element of the list is
    the match Python reports. *)

Module Re.

Import Text.

Inductive re : Type :=
| Eps
| Cls (p : ascii -> bool)
| Lit (w : text)
| Seq (r1 r2 : re)
| Alt (r1 r2 : re)
| Opt (r : re)
| Rep (greedy : bool) (p : ascii -> bool) (lo : nat) (hi : option nat)
| Grp (n : nat) (r : re)
| Bol
| Eol
| WordB
| NotBehind (p : ascii -> bool)
| NotAhead (p : ascii -> bool).

(** A position in the subject: the characters before it (nearest
    first), the characters after it, and the groups captured so far
    (latest binding first). *)
Record mstate : Type := MState {
  seen : text;
  rest : text;
  caps : list (nat * text)
}.

Fixpoint span (p : ascii -> bool) (s : text) : nat :=
  match s with
  | c :: s' => if p c then S (span p s') else 0
  | [] => 0
  end.

Definition counts (greedy : bool) (lo : nat) (hi : option nat) (avail : nat)
  : list nat :=
  let top := match hi with Some h => Nat.min h avail | None => avail end in
  if top <? lo then []
  else
    let up := seq lo (S top - lo) in
    if greedy then rev up else up.

Definition advance (k : nat) (st : mstate) : mstate :=
  MState (rev (firstn k (rest st)) ++ seen st) (skipn k (rest st)) (caps st).

Definition consumed (st st' : mstate) : text :=
  firstn (length (rest st) - length (rest st')) (rest st).

Definition set_cap (n : nat) (w : text) (st : mstate) : mstate :=
  MState (seen st) (rest st) ((n, w) :: caps st).

Definition head_is (p : ascii -> bool) (s : text) : bool :=
  match s with c :: _ => p c | [] => false end.

Fixpoint run (r : re) (st : mstate) : list mstate :=
  match r with
  | Eps => [st]
  | Cls p => if head_is p (rest st) then [advance 1 st] else []
  | Lit w => if startswith w (rest st) then [advance (length w) st] else []
  | Seq r1 r2 => flat_map (run r2) (run r1 st)
  | Alt r1 r2 => run r1 st ++ run r2 st
  | Opt r1 => run r1 st ++ [st]
  | Rep greedy p lo hi =>
      map (fun k => advance k st) (counts greedy lo hi (span p (rest st)))
  | Grp n r1 => map (fun st' => set_cap n (consumed st st') st') (run r1 st)
  | Bol => match seen st with [] => [st] | _ => [] end
  | Eol =>
      match rest st with
      | [] => [st]
      | [c] => if ascii_eqb c "010" then [st] else []
      | _ => []
      end
  | WordB =>
      if xorb (head_is is_word (seen st)) (head_is is_word (rest st))
      then [st] else []
  | NotBehind p => if head_is p (seen st) then [] else [st]
  | NotAhead p => if head_is p (rest st) then [] else [st]
  end.

(** A match object: the final state; group 0 is the whole match. *)
Definition match_at (r : re) (before after : text) : option mstate :=
  hd_error (run (Grp 0 r) (MState before after [])).

(** [pattern.match(s)] *)
Definition re_match (r : re) (s : text) : option mstate := match_at r [] s.

Fixpoint search_from (r : re) (before after : text) : option mstate :=
  match match_at r before after with
  | Some m => Some m
  | None =>
      match after with
      | [] => None
      | c :: after' => search_from r (c :: before) after'
      end
  end.

(** [pattern.search(s)] *)
Definition re_search (r : re) (s : text) : option mstate := search_from r [] s.

Fixpoint lookup_cap (n : nat) (l : list (nat * text)) : option text :=
  match l with
  | [] => None
  | (k, w) :: l' => if k =? n then Some w else lookup_cap n l'
  end.

(** [m.group(n)]; every group of the source's patterns takes part in
    every match, so the [None] of a group that did not is the empty
    text here. *)
Definition group (n : nat) (m : mstate) : text :=
  match lookup_cap n (caps m) with Some w => w | None => [] end.

(** The successive non-overlapping matches, scanning left to right.
    [skip] counts the characters of the last match still to be passed
    over. *)
Fixpoint finditer_from (r : re) (skip : nat) (before after : text)
  : list mstate :=
  match skip with
  | S skip' =>
      match after with
      | [] => []
      | c :: after' => finditer_from r skip' (c :: before) after'
      end
  | O =>
      match match_at r before after with
      | Some m =>
          m :: match after with
               | [] => []
               | c :: after' =>
                   finditer_from r (length (group 0 m) - 1) (c :: before) after'
               end
      | None =>
          match after with
          | [] => []
          | c :: after' => finditer_from r 0 (c :: before) after'
          end
      end
  end.

(** [re.findall(pattern, s)] for a pattern with one group, and for a
    pattern with none. *)
Definition findall1 (r : re) (s : text) : list text :=
  map (group 1) (finditer_from r 0 [] s).

Definition findall0 (r : re) (s : text) : list text :=
  map (group 0) (finditer_from r 0 [] s).

(** [re.sub(pattern, repl, s)] for a constant replacement. *)
Fixpoint sub_from (r : re) (repl : text) (skip : nat) (before after : text)
  : text :=
  match skip with
  | S skip' =>
      match after with
      | [] => []
      | c :: after' => sub_from r repl skip' (c :: before) after'
      end
  | O =>
      match match_at r before after with
      | Some m =>
          repl ++
          match after with
          | [] => []
          | c :: after' =>
              match length (group 0 m) with
              | O => c :: sub_from r repl 0 (c :: before) after'
              | S k => sub_from r repl k (c :: before) after'
              end
          end
      | None =>
          match after with
          | [] => []
          | c :: after' => c :: sub_from r repl 0 (c :: before) after'
          end
      end
  end.

Definition re_sub (r : re) (repl : text) (s : text) : text :=
  sub_from r repl 0 [] s.

(** [.] without DOTALL *)
Definition any_char (c : ascii) : bool := negb (ascii_eqb c "010").

Fixpoint seqs (rs : list re) : re :=
  match rs with
  | [] => Eps
  | [r] => r
  | r :: rs' => Seq r (seqs rs')
  end.

Fixpoint alts (r : re) (rs : list re) : re :=
  match rs with
  | [] => r
  | r' :: rs' => Alt r (alts r' rs')
  end.

Definition star (p : ascii -> bool) : re := Rep true p 0 None.
Definition plus (p : ascii -> bool) : re := Rep true p 1 None.
Definition lazy_star (p : ascii -> bool) : re := Rep false p 0 None.

End Re.

(** ** The patterns of the source *)

Module Patterns.

Import Text Re.

Definition digit_or_comma (c : ascii) : bool := is_digit c || is_char "," c.
Definition digit_or_dot (c : ascii) : bool := is_digit c || is_char "." c.
Definition digit_or_slash (c : ascii) : bool := is_digit c || is_char "/" c.

(** [[A-Z0-9.\-]] *)
Definition symbol_char (c : ascii) : bool :=
  is_upper c || is_digit c || is_char "." c || is_char "-" c.

(** [[0-9][0-9,]*(?:\.\d+)?] *)
Definition NUM : re :=
  seqs [Cls is_digit; star digit_or_comma; Opt (Seq (Lit ".") (plus is_digit))].

(** [[0-9][0-9,]*(?:\.\d+)?-?] *)
Definition NUM_MINUS : re := Seq NUM (Opt (Lit "-")).

Definition MONTH : re :=
  alts (Seq (Lit "JAN") (Opt (Lit "UARY")))
    [ Seq (Lit "FEB") (Opt (Lit "RUARY"));
      Seq (Lit "MAR") (Opt (Lit "CH"));
      Seq (Lit "APR") (Opt (Lit "IL"));
      Lit "MAY";
      Seq (Lit "JUN") (Opt (Lit "E"));
      Seq (Lit "JUL") (Opt (Lit "Y"));
      Seq (Lit "AUG") (Opt (Lit "UST"));
      Seq (Lit "SEP") (Opt (Seq (Lit "T") (Opt (Lit "EMBER"))));
      Seq (Lit "OCT") (Opt (Lit "OBER"));
      Seq (Lit "NOV") (Opt (Lit "EMBER"));
      Seq (Lit "DEC") (Opt (Lit "EMBER")) ].

Definition RBC_ACTIVITY_START_RE : re :=
  seqs [ Alt Bol WordB;
         Grp 1 MONTH;
         Opt (Lit "."); star is_space;
         Grp 2 (Rep true is_digit 1 (Some 2));
         plus is_space;
         Grp 3 (plus is_upper);
         WordB; star is_space;
         Grp 4 (star any_char);
         Eol ].

Definition RBC_AMOUNT_LINE_RE : re :=
  seqs [ Bol; Grp 1 NUM_MINUS; plus is_space; Grp 2 NUM_MINUS; plus is_space;
         Grp 3 NUM_MINUS; Eol ].

Definition RBC_INLINE_AMOUNT_RE : re :=
  seqs [ Bol; Grp 1 (lazy_star any_char); plus is_space;
         Grp 2 NUM_MINUS; plus is_space; Grp 3 NUM_MINUS; plus is_space;
         Grp 4 NUM_MINUS; Eol ].

Definition RBC_ASSET_LINE_RE : re :=
  seqs [ Bol; Grp 1 (lazy_star any_char); plus is_space;
         Grp 2 (Seq (Cls is_upper) (Rep true symbol_char 1 (Some 12)));
         plus is_space; Grp 3 NUM; plus is_space; Grp 4 NUM; plus is_space;
         Grp 5 NUM; plus is_space; Lit "$"; Grp 6 NUM; Eol ].

Definition RBC_FX_RE : re :=
  seqs [ Lit "Exchange rate 1USD = "; Grp 1 (plus digit_or_dot); Lit " CAD" ].

Definition RBC_IGNORE_DESCRIPTION_LINE_RE : re :=
  seqs [ Bol;
         Grp 1 (alts (Lit "UNSOLICITED")
           [ Lit "INTERCLASSSWITCHIN"; Lit "INTERCLASSSWITCHOUT"; Lit "ASOF";
             Lit "AVG PRICE SHOWN"; Lit "WE ACTED AS PRINCIPAL";
             Lit "THESEARESECURITIES"; Lit "RELATEDISSUER";
             seqs [Lit "REC"; plus digit_or_slash; Lit "PAY"; plus digit_or_slash];
             seqs [Lit "REC "; plus digit_or_slash; Lit " PAY "; plus digit_or_slash];
             Lit "STCG"; Lit "REINV"; Lit "REINV@"; Lit "DIST ON";
             Lit "CASHDIV ON"; Lit "CASH DIV ON"; Lit "PREMIUMDISTON";
             Lit "PREMIUM DIST ON"; Lit "DA"; Lit "CA" ]);
         Eol ].

(** [^( .* )-\d+\.pdf$], the group being a greedy run of any characters *)
Definition DUPLICATE_COPY_RE : re :=
  seqs [ Bol; Grp 1 (star any_char); Lit "-"; plus is_digit; Lit ".pdf"; Eol ].

(** [(\d{4})-(\d{2})-(\d{2})] *)
Definition STATEMENT_DATE_RE : re :=
  seqs [ Grp 1 (Rep true is_digit 4 (Some 4)); Lit "-";
         Grp 2 (Rep true is_digit 2 (Some 2)); Lit "-";
         Grp 3 (Rep true is_digit 2 (Some 2)) ].

(** [\((\d{3,5})\)] *)
Definition PAREN_CODE_RE : re :=
  seqs [ Lit "("; Grp 1 (Rep true is_digit 3 (Some 5)); Lit ")" ].

(** [(?<!\d)(\d{3,5})(?!\d)] *)
Definition FREE_CODE_RE : re :=
  seqs [ NotBehind is_digit; Grp 1 (Rep true is_digit 3 (Some 5));
         NotAhead is_digit ].

(** [[A-Z0-9]+] and [[^A-Z0-9]+] *)
Definition TOKEN_RE : re := plus is_upper_or_digit.
Definition NON_TOKEN_RE : re := plus (fun c => negb (is_upper_or_digit c)).

End Patterns.

Import Text Re Patterns.

(** ** Numbers *)

(** A Python [float] is an IEEE 754 binary64 number: a signed zero, a
    finite number [(-1)^s * m * 2^e], an infinity or NaN.  The type and
    the operations are the standard library's specification of binary
    floating point, taken at the parameters of binary64. *)
Definition pyfloat : Type := SpecFloat.spec_float.

Abbreviation NaN := SpecFloat.S754_nan.
Abbreviation Infinite := SpecFloat.S754_infinity.
Abbreviation Zero := SpecFloat.S754_zero.
Abbreviation Binary := SpecFloat.S754_finite.

Definition prec : Z := 53.
Definition emax : Z := 1024.

(** [a * b] *)
Definition fmul (a b : pyfloat) : pyfloat := SpecFloat.SFmul prec emax a b.

(** [abs(x)] *)
Definition fabs (a : pyfloat) : pyfloat := SpecFloat.SFabs a.

(** [-x] *)
Definition fneg (a : pyfloat) : pyfloat := SpecFloat.SFopp a.

(** The float nearest to the quotient of two positive integers, ties
    going to the even mantissa; the infinity when the quotient lies
    beyond the largest float, zero when it lies below half the smallest
    one. *)
Definition nearest (num den : positive) : pyfloat :=
  SpecFloat.SFdiv prec emax (Binary false num 0) (Binary false den 0).

(** The float nearest to a rational: what a decimal literal denotes. *)
Definition double (q : Q) : pyfloat :=
  match Qnum q with
  | Z0 => Zero false
  | Zpos n => nearest n (Qden q)
  | Zneg n => fneg (nearest n (Qden q))
  end.

(** [0 <= x] as Python evaluates it: false on NaN. *)
Definition nonneg (a : pyfloat) : Prop :=
  match a with
  | Zero _ => True
  | Binary s _ _ => s = false
  | Infinite s => s = false
  | NaN => False
  end.

(** The whitespace that [float] itself skips at both ends of its
    argument: TAB, LF, VT, FF, CR and the space. *)
Definition is_float_space (c : ascii) : bool :=
  between 9 13 c || (code c =? 32).

Fixpoint float_lstrip (s : text) : text :=
  match s with
  | c :: s' => if is_float_space c then float_lstrip s' else s
  | [] => []
  end.

Definition float_strip (s : text) : text :=
  rev (float_lstrip (rev (float_lstrip s))).

(** The grammar of [float(str)]: digits, with single underscores between
    digits. *)
Fixpoint digitpart_tail (s : text) : text * text :=
  match s with
  | c :: s' =>
      if is_digit c then
        let (ds, r) := digitpart_tail s' in (c :: ds, r)
      else if is_char "_" c then
        match s' with
        | d :: s'' =>
            if is_digit d then
              let (ds, r) := digitpart_tail s'' in (d :: ds, r)
            else ([], s)
        | [] => ([], s)
        end
      else ([], s)
  | [] => ([], [])
  end.

Definition digitpart (s : text) : option (text * text) :=
  match s with
  | c :: s' =>
      if is_digit c then
        let (ds, r) := digitpart_tail s' in Some (c :: ds, r)
      else None
  | [] => None
  end.

(** [[digitpart] "." digitpart | digitpart ["."]]: integer digits,
    fraction digits, remainder. *)
Definition number (s : text) : option (text * text * text) :=
  match digitpart s with
  | Some (ip, r) =>
      match r with
      | c :: r' =>
          if is_char "." c then
            match digitpart r' with
            | Some (fp, r'') => Some (ip, fp, r'')
            | None => Some (ip, [], r')
            end
          else Some (ip, [], r)
      | [] => Some (ip, [], [])
      end
  | None =>
      match s with
      | c :: r' =>
          if is_char "." c then
            match digitpart r' with
            | Some (fp, r'') => Some ([], fp, r'')
            | None => None
            end
          else None
      | [] => None
      end
  end.

Definition split_sign (s : text) : bool * text :=
  match s with
  | c :: s' =>
      if is_char "-" c then (true, s')
      else if is_char "+" c then (false, s')
      else (false, s)
  | [] => (false, [])
  end.

(** [("e" | "E") [sign] digitpart] up to the end of the text, or
    nothing at all. *)
Definition exponent (s : text) : option Z :=
  match s with
  | [] => Some 0%Z
  | c :: s' =>
      if is_char "e" c || is_char "E" c then
        let (neg, body) := split_sign s' in
        match digitpart body with
        | Some (ds, []) =>
            Some (if neg then (- int_of_digits ds)%Z else int_of_digits ds)
        | _ => None
        end
      else None
  end.

(** The rational [mant * 10 ^ e]. *)
Definition scale10 (mant e : Z) : Q :=
  if (0 <=? e)%Z then Qmake (mant * 10 ^ e) 1
  else Qmake mant (Z.to_pos (10 ^ (- e))).

(** [float(s)]; [None] is [ValueError].  The sign is applied to the
    rounded magnitude, so a negative literal of value zero is the
    negative zero. *)
Definition float_of_text (s : text) : option pyfloat :=
  let (neg, body) := split_sign (float_strip s) in
  let word := lower body in
  if text_eqb word "inf" || text_eqb word "infinity" then Some (Infinite neg)
  else if text_eqb word "nan" then Some NaN
  else
    match number body with
    | Some (ip, fp, r) =>
        match exponent r with
        | Some e =>
            let q := scale10 (int_of_digits (ip ++ fp))
                             (e - Z.of_nat (length fp)) in
            Some (if neg then fneg (double q) else double q)
        | None => None
        end
    | None => None
    end.

Definition parse_number (t : text) : option pyfloat :=
  let cleaned := strip (remove_char "," (remove_char "$" t)) in
  let cleaned :=
    if endswith "-" cleaned then "-"%char :: removelast cleaned else cleaned in
  float_of_text cleaned.

(** ** Small helpers of the source *)

Definition normalize_space (t : text) : text := join " " (split_ws (strip t)).

Definition compact_key (t : text) : text := re_sub NON_TOKEN_RE [] (upper t).

Definition text_eq_dec : forall a b : text, {a = b} + {a <> b} :=
  list_eq_dec ascii_dec.

(** A Python set of texts: a list without repetition. *)
Definition token_key_set (t : text) : list text :=
  nodup text_eq_dec (findall0 TOKEN_RE (upper t)).

Definition mem (x : text) (l : list text) : bool := existsb (text_eqb x) l.

(** [len(a & b)] *)
Definition inter_size (a b : list text) : nat :=
  length (filter (fun x => mem x b) a).

Definition normalize_ticker_symbol (ticker : text) : text :=
  let t := upper (strip ticker) in
  if text_eqb t "GOOGL" then "GOOG"
  else if text_eqb t "BRKB" then "BRK-B"
  else t.

Definition MONTH_TO_NUMBER : list (text * Z) :=
  [ ("JAN" : text, 1%Z); ("FEB" : text, 2%Z); ("MAR" : text, 3%Z);
    ("APR" : text, 4%Z); ("MAY" : text, 5%Z); ("JUN" : text, 6%Z);
    ("JUL" : text, 7%Z); ("AUG" : text, 8%Z); ("SEP" : text, 9%Z);
    ("OCT" : text, 10%Z); ("NOV" : text, 11%Z); ("DEC" : text, 12%Z) ].

(** [d.get(k)] on an association list with distinct keys. *)
Fixpoint dict_get {V : Type} (k : text) (d : list (text * V)) : option V :=
  match d with
  | [] => None
  | (k', v) :: d' => if text_eqb k k' then Some v else dict_get k d'
  end.

Definition month_token_to_number (token : text) : option Z :=
  let token := rstrip_char "." (upper token) in
  let token := if startswith "SEPT" token then ("SEP" : text) else firstn 3 token in
  dict_get token MONTH_TO_NUMBER.

Definition extract_statement_year_month (name : text) : option (Z * Z * Z) :=
  match re_search STATEMENT_DATE_RE name with
  | None => None
  | Some m =>
      Some (int_of_digits (group 1 m), int_of_digits (group 2 m),
            int_of_digits (group 3 m))
  end.

(** The literal [1.35]. *)
Definition DEFAULT_USD_TO_CAD : pyfloat := double (135 # 100).

Fixpoint statement_usd_to_cad_rate (pages : list text) : pyfloat :=
  match pages with
  | [] => DEFAULT_USD_TO_CAD
  | page :: pages' =>
      match re_search RBC_FX_RE page with
      | Some m =>
          match float_of_text (group 1 m) with
          | Some rate => rate
          | None => statement_usd_to_cad_rate pages'
          end
      | None => statement_usd_to_cad_rate pages'
      end
  end.

(** ** Alias tables *)

(** Both tables are Python dicts; the resolver iterates over the first
    one, so insertion order is kept. *)
Definition dict : Type := list (text * text).

Record tables : Type := Tables {
  compact_to_symbol : dict;
  code_to_symbol : dict
}.

Definition empty_tables : tables := Tables [] [].

Definition dict_mem (k : text) (d : dict) : bool :=
  match dict_get k d with Some _ => true | None => false end.

(** [d.setdefault(k, v)]: a new key goes last, a present key is left
    alone. *)
Definition setdefault (k v : text) (d : dict) : dict :=
  if dict_mem k d then d else d ++ [(k, v)].

Definition nonempty (t : text) : bool :=
  match t with [] => false | _ => true end.

(** The body of the line loop of [collect_rbc_asset_aliases] for a line
    inside an Asset Review section. *)
Definition collect_asset_line (line : text) (tb : tables) : tables :=
  match re_match RBC_ASSET_LINE_RE line with
  | None => tb
  | Some m =>
      let desc := normalize_space (group 1 m) in
      let symbol := upper (group 2 m) in
      let symbol := normalize_ticker_symbol symbol in
      let key := compact_key desc in
      let compact :=
        if nonempty key then setdefault key symbol (compact_to_symbol tb)
        else compact_to_symbol tb in
      let codes := code_to_symbol tb in
      let codes :=
        match re_search PAREN_CODE_RE desc with
        | Some code_match => setdefault (group 1 code_match) symbol codes
        | None => codes
        end in
      let codes :=
        if startswith "RBF" symbol && isdigit (skipn 3 symbol)
        then setdefault (skipn 3 symbol) symbol codes else codes in
      let codes :=
        if startswith "FID" symbol && isdigit (skipn 3 symbol)
        then setdefault (skipn 3 symbol) symbol codes else codes in
      Tables compact codes
  end.

(** One iteration of the line loop: the flag [in_asset_review] and the
    tables. *)
Definition collect_line (st : bool * tables) (line : text) : bool * tables :=
  let (in_asset_review, tb) := st in
  if negb (nonempty line) then st
  else if contains "Asset Review" line then (true, tb)
  else if in_asset_review && contains "Account Activity" line then (false, tb)
  else if negb in_asset_review then st
  else (in_asset_review, collect_asset_line line tb).

Definition page_lines (page : text) : list text :=
  map normalize_space (splitlines page).

(** One iteration of the page loop: the flag starts at [False]. *)
Definition collect_page (tb : tables) (page : text) : tables :=
  snd (fold_left collect_line (page_lines page) (false, tb)).

Definition collect_rbc_asset_aliases (pages : list text) (tb : tables)
  : tables :=
  fold_left collect_page pages tb.

(** ** Symbol resolution *)

(** The first code of the list that is a key of the table, with its
    symbol. *)
Fixpoint first_known (codes : list text) (d : dict) : option text :=
  match codes with
  | [] => None
  | c :: codes' =>
      match dict_get c d with
      | Some sym => Some sym
      | None => first_known codes' d
      end
  end.

(** The body of the loop over [compact_to_symbol.items()]: the score of
    one entry, when it has one. *)
Definition entry_score (compact_desc : text) (desc_tokens : list text)
  (key : text) : option nat :=
  if negb (nonempty key) then None
  else if nonempty compact_desc &&
          (contains compact_desc key || contains key compact_desc)
  then Some (Nat.min (length key) (length compact_desc))
  else
    let key_tokens := token_key_set key in
    let overlap := inter_size desc_tokens key_tokens in
    if 2 <=? overlap
    then Some (overlap * 100 + Nat.min (length key) (length compact_desc))
    else None.

Fixpoint score_entries (compact_desc : text) (desc_tokens : list text)
  (d : dict) : list (nat * text) :=
  match d with
  | [] => []
  | (key, symbol) :: d' =>
      match entry_score compact_desc desc_tokens key with
      | Some score => (score, symbol) :: score_entries compact_desc desc_tokens d'
      | None => score_entries compact_desc desc_tokens d'
      end
  end.

(** [candidates.sort(key=lambda x: x[0], reverse=True)]: a stable sort,
    so candidates of equal score keep their order. *)
Fixpoint insert_desc (c : nat * text) (l : list (nat * text))
  : list (nat * text) :=
  match l with
  | [] => [c]
  | c' :: l' => if fst c' <=? fst c then c :: l else c' :: insert_desc c l'
  end.

Definition sort_desc (l : list (nat * text)) : list (nat * text) :=
  fold_right insert_desc [] l.

Definition resolve_rbc_symbol (desc_text : text) (tb : tables) : option text :=
  let desc_text := normalize_space desc_text in
  if negb (nonempty desc_text) then None
  else
    let upper_desc := upper desc_text in
    let compact_desc := compact_key upper_desc in
    match first_known (findall1 PAREN_CODE_RE upper_desc) (code_to_symbol tb) with
    | Some sym => Some sym
    | None =>
    match first_known (findall1 FREE_CODE_RE upper_desc) (code_to_symbol tb) with
    | Some sym => Some sym
    | None =>
    match dict_get compact_desc (compact_to_symbol tb) with
    | Some sym => Some sym
    | None =>
        let desc_tokens := token_key_set desc_text in
        let candidates :=
          score_entries compact_desc desc_tokens (compact_to_symbol tb) in
        match candidates with
        | [] =>
            match re_search PAREN_CODE_RE upper_desc with
            | Some m_rbc =>
                if contains "RBC" upper_desc
                then Some (("RBF" : text) ++ group 1 m_rbc)
                else if contains "FIDELITY" upper_desc
                then Some (("FID" : text) ++ group 1 m_rbc)
                else None
            | None => None
            end
        | _ :: _ => option_map snd (hd_error (sort_desc candidates))
        end
    end end end.

(** ** The activity walk *)

Inductive side : Type := BUY | SELL.
Inductive currency : Type := USD | CAD.

(** The dict [current]. *)
Record pending : Type := Pending {
  p_date : text;
  p_side : side;
  p_currency : currency;
  p_desc_parts : list text;
  p_amount : option pyfloat
}.

(** An output tuple [(date, side, symbol, amount)]. *)
Record trade : Type := Trade {
  t_date : text;
  t_side : side;
  t_symbol : text;
  t_amount : pyfloat
}.

(** A diagnostic tuple [(date, side, desc_text, amount)]. *)
Record unresolved_row : Type := Unresolved {
  u_date : text;
  u_side : side;
  u_desc : text;
  u_amount : pyfloat
}.

(** The variables of [parse_rbc_statement_trades] that its loop and
    [flush_current] update. *)
Record walk : Type := Walk {
  trades : list trade;
  unresolved : list unresolved_row;
  current : option pending;
  in_activity : bool
}.

Definition set_current (c : option pending) (w : walk) : walk :=
  Walk (trades w) (unresolved w) c (in_activity w).

Definition set_in_activity (b : bool) (w : walk) : walk :=
  Walk (trades w) (unresolved w) (current w) b.

(** [if not symbol]: [None] and the empty text are both falsy. *)
Definition truthy (s : option text) : option text :=
  match s with
  | Some (c :: t) => Some (c :: t)
  | _ => None
  end.

Definition candidate_desc (cur : pending) : text :=
  normalize_space (join " " (p_desc_parts cur)).

Definition flush_current (tb : tables) (usd_to_cad : pyfloat) (w : walk)
  : walk :=
  match current w with
  | None => w
  | Some cur =>
      match p_amount cur with
      | None => set_current None w
      | Some amount =>
          let desc_text := candidate_desc cur in
          match truthy (resolve_rbc_symbol desc_text tb) with
          | None =>
              Walk (trades w)
                   (unresolved w ++
                      [Unresolved (p_date cur) (p_side cur) desc_text amount])
                   None (in_activity w)
          | Some symbol =>
              let trade_amount :=
                match p_currency cur with
                | USD => fmul amount usd_to_cad
                | CAD => amount
                end in
              Walk (trades w ++
                      [Trade (p_date cur) (p_side cur) symbol (fabs trade_amount)])
                   (unresolved w) None (in_activity w)
          end
      end
  end.

(** [m = RE.match(line)], then [RE.search(line)] when that fails. *)
Definition activity_match (line : text) : option mstate :=
  match re_match RBC_ACTIVITY_START_RE line with
  | Some m => Some m
  | None => re_search RBC_ACTIVITY_START_RE line
  end.

Definition has_amount (c : option pending) : bool :=
  match c with
  | Some cur => match p_amount cur with Some _ => true | None => false end
  | None => false
  end.

Definition iso_date (year month day : Z) : text :=
  format_0d 4 year ++ ("-" : text) ++ format_0d 2 month ++ ("-" : text)
    ++ format_0d 2 day.

(** The year given to an activity line of month [month_num]. *)
Definition activity_year (statement_year statement_month month_num : Z) : Z :=
  if (statement_month =? 1)%Z && (month_num =? 12)%Z
  then (statement_year - 1)%Z else statement_year.

(** The branch of the loop taken by a dated activity line. *)
Definition start_activity (tb : tables) (usd_to_cad : pyfloat)
  (statement_year statement_month : Z) (page_currency : currency)
  (m_activity : mstate) (w : walk) : walk :=
  let mon := group 1 m_activity in
  let day_text := group 2 m_activity in
  let activity := upper (group 3 m_activity) in
  let rest := group 4 m_activity in
  if negb (text_eqb activity "BOUGHT" || text_eqb activity "SOLD") then
    set_current None
      (if has_amount (current w) then flush_current tb usd_to_cad w else w)
  else
    let w := flush_current tb usd_to_cad w in
    let day := int_of_digits day_text in
    match month_token_to_number mon with
    | None => set_current None w
    | Some month_num =>
        if (month_num =? 0)%Z then set_current None w
        else
          let year := activity_year statement_year statement_month month_num in
          let side := if text_eqb activity "BOUGHT" then BUY else SELL in
          let desc := normalize_space rest in
          let '(desc, amount) :=
            match re_match RBC_INLINE_AMOUNT_RE desc with
            | Some m_inline =>
                (normalize_space (group 1 m_inline),
                 parse_number (group 4 m_inline))
            | None => (desc, None)
            end in
          set_current
            (Some (Pending (iso_date year month_num day) side page_currency
                           (if nonempty desc then [desc] else []) amount))
            w
    end.

Definition is_header_line (line : text) : bool :=
  startswith "Opening Balance" line
  || text_eqb line "PRICE"
  || text_eqb line "DATE ACTIVITY DESCRIPTION"
  || text_eqb line "QUANTITY \RATE DEBIT CREDIT".

Definition set_amount (a : option pyfloat) (cur : pending) : pending :=
  Pending (p_date cur) (p_side cur) (p_currency cur) (p_desc_parts cur) a.

Definition add_desc (line : text) (cur : pending) : pending :=
  Pending (p_date cur) (p_side cur) (p_currency cur)
          (p_desc_parts cur ++ [line]) (p_amount cur).

(** The tail of the loop body: a line that is neither a marker, a dated
    activity nor a header, read while a candidate is live. *)
Definition continue_candidate (line : text) (cur : pending) : pending :=
  match re_match RBC_AMOUNT_LINE_RE line, p_amount cur with
  | Some m_amt, None => set_amount (parse_number (group 3 m_amt)) cur
  | _, _ =>
      match re_match RBC_INLINE_AMOUNT_RE line, p_amount cur with
      | Some m_inline, None =>
          let desc_line := normalize_space (group 1 m_inline) in
          let cur := if nonempty desc_line then add_desc desc_line cur else cur in
          set_amount (parse_number (group 4 m_inline)) cur
      | _, _ =>
          match re_match RBC_IGNORE_DESCRIPTION_LINE_RE (upper line) with
          | Some _ => cur
          | None => add_desc line cur
          end
      end
  end.

(** One iteration of the line loop. *)
Definition step (tb : tables) (usd_to_cad : pyfloat)
  (statement_year statement_month : Z) (page_currency : currency)
  (w : walk) (line : text) : walk :=
  if negb (nonempty line) then w
  else if contains "FOOTNOTES" line then
    set_in_activity false (flush_current tb usd_to_cad w)
  else if contains "Account Activity" line then
    set_in_activity true (flush_current tb usd_to_cad w)
  else if negb (in_activity w) then w
  else if startswith "Closing Balance" line then
    set_in_activity false (flush_current tb usd_to_cad w)
  else
    match activity_match line with
    | Some m_activity =>
        start_activity tb usd_to_cad statement_year statement_month
                       page_currency m_activity w
    | None =>
        if is_header_line line then w
        else
          match current w with
          | None => w
          | Some cur => set_current (Some (continue_candidate line cur)) w
          end
    end.

Definition page_currency_of (page : text) : currency :=
  if contains "Statement (U.S.$)" page then USD else CAD.

(** One iteration of the page loop. *)
Definition walk_page (tb : tables) (usd_to_cad : pyfloat)
  (statement_year statement_month : Z) (w : walk) (page : text) : walk :=
  fold_left
    (step tb usd_to_cad statement_year statement_month (page_currency_of page))
    (page_lines page) w.

Definition initial_walk : walk := Walk [] [] None false.

(** The walk of [parse_rbc_statement_trades] up to and including the
    final flush. *)
Definition walk_statement (tb : tables) (statement_year statement_month : Z)
  (pages : list text) : walk :=
  let usd_to_cad := statement_usd_to_cad_rate pages in
  flush_current tb usd_to_cad
    (fold_left (walk_page tb usd_to_cad statement_year statement_month)
               pages initial_walk).

Definition unresolved_message (name : text) (n : nat) : text :=
  ("RBC unresolved symbols in " : text) ++ name ++ (": " : text)
    ++ str_N (N.of_nat n).

(** The trades returned and the lines printed. *)
Definition parse_rbc_statement_trades (name : text) (pages : list text)
  (tb : tables) : list trade * list text :=
  match extract_statement_year_month name with
  | None => ([], [])
  | Some (statement_year, statement_month, _) =>
      let w := walk_statement tb statement_year statement_month pages in
      (trades w,
       match unresolved w with
       | [] => []
       | _ :: _ => [unresolved_message name (length (unresolved w))]
       end)
  end.

(** ** The driver *)

(** Paths of one directory compare as their names do, character by
    character. *)
Fixpoint text_leb (a b : text) : bool :=
  match a, b with
  | [], _ => true
  | _ :: _, [] => false
  | x :: a', y :: b' =>
      if code x <? code y then true
      else if code y <? code x then false
      else text_leb a' b'
  end.

Fixpoint insert_sorted (x : text) (l : list text) : list text :=
  match l with
  | [] => [x]
  | y :: l' => if text_leb x y then x :: l else y :: insert_sorted x l'
  end.

(** [sorted(names)] *)
Definition sorted (l : list text) : list text := fold_right insert_sorted [] l.

(** The test of the loop of [list_rbc_statement_pdfs]: the name is a
    numbered copy and the base file exists among [entries]. *)
Definition is_duplicate_copy (entries : list text) (name : text) : bool :=
  match re_match DUPLICATE_COPY_RE name with
  | Some m => mem (group 1 m ++ (".pdf" : text)) entries
  | None => false
  end.

(** [directory] is [None] when [RBC_DIR] does not exist, and the names
    of its entries otherwise. *)
Definition list_rbc_statement_pdfs (directory : option (list text))
  : list text :=
  match directory with
  | None => []
  | Some entries =>
      let files := sorted (filter (endswith ".pdf") entries) in
      filter (fun name => negb (is_duplicate_copy entries name)) files
  end.

(** What [extract_pdf_pages_with_swift] hands back: an exception with
    its message, or the dict [pages_by_file] as its lookup. *)
Inductive extraction : Type :=
| ExtractionFailed (message : text)
| Extracted (pages_by_file : text -> option (list text)).

(** [pages = pages_by_file.get(path)], with the [if not pages: continue]
    that follows it. *)
Definition pages_of (pages_by_file : text -> option (list text)) (path : text)
  : option (list text) :=
  match pages_by_file path with
  | Some (page :: pages) => Some (page :: pages)
  | _ => None
  end.

(** The first loop of [parse_rbc]: both dicts are shared by all files. *)
Definition collect_all (pages_by_file : text -> option (list text))
  (pdf_paths : list text) : tables :=
  fold_left
    (fun tb path =>
       match pages_of pages_by_file path with
       | Some pages => collect_rbc_asset_aliases pages tb
       | None => tb
       end)
    pdf_paths empty_tables.

(** The second loop of [parse_rbc]: the trades so far and the lines
    printed so far. *)
Definition parse_all (pages_by_file : text -> option (list text))
  (tb : tables) (pdf_paths : list text) : list trade * list text :=
  fold_left
    (fun acc path =>
       match pages_of pages_by_file path with
       | Some pages =>
           let (ts, out) := parse_rbc_statement_trades path pages tb in
           (fst acc ++ ts, snd acc ++ out)
       | None => acc
       end)
    pdf_paths ([], []).

Definition parse_rbc (directory : option (list text))
  (extract_pdf_pages : list text -> extraction) : list trade * list text :=
  let pdf_paths := list_rbc_statement_pdfs directory in
  match pdf_paths with
  | [] => ([], [])
  | _ :: _ =>
      match extract_pdf_pages pdf_paths with
      | ExtractionFailed e => ([], [("Failed to parse RBC PDFs: " : text) ++ e])
      | Extracted pages_by_file =>
          let tb := collect_all pages_by_file pdf_paths in
          let (ts, out) := parse_all pages_by_file tb pdf_paths in
          (ts,
           out ++
           [ ("Parsed RBC statements: " : text)
               ++ str_N (N.of_nat (length pdf_paths)) ++ (" files" : text);
             ("Parsed RBC trades: " : text) ++ str_N (N.of_nat (length ts)) ])
      end
  end.

(** ** The Wealthsimple exports *)

(** The double quote and the apostrophe. *)
Definition dquote : ascii := "034".
Definition squote : ascii := "039".

Definition is_quote (c : ascii) : bool := ascii_eqb dquote c || ascii_eqb squote c.

(** A literal under [re.IGNORECASE], on the ASCII range. *)
Definition lit_ci (w : text) : re :=
  seqs (map (fun x => Cls (fun c => ascii_eqb (lower_char c) (lower_char x))) w).

(** [const\s+wealthsimpleTradeDataSrc\s*=\s*[QUOTE]([^QUOTE]+)[QUOTE]],
    a quote being a double quote or an apostrophe *)
Definition TRADE_SRC_RE : re :=
  seqs [ Lit "const"; plus is_space; Lit "wealthsimpleTradeDataSrc";
         star is_space; Lit "="; star is_space; Cls is_quote;
         Grp 1 (plus (fun c => negb (is_quote c))); Cls is_quote ].

(** [config] is the text of [config.js], [None] when the file does not
    exist. *)
Definition get_wealthsimple_trade_src (config : option text) : text :=
  match config with
  | Some t =>
      match re_search TRADE_SRC_RE t with
      | Some m => group 1 m
      | None => "activities_export"
      end
  | None => "activities_export"
  end.

(** [[A-Za-z0-9.\-]] *)
Definition ws_ticker_char (c : ascii) : bool :=
  is_upper c || is_lower c || is_digit c || is_char "." c || is_char "-" c.

(** [OLD_WS_RE], compiled with [re.IGNORECASE]; the groups ticker,
    verb, qty and date are numbered 1 to 4. *)
Definition OLD_WS_RE : re :=
  seqs [ Bol; Grp 1 (plus ws_ticker_char); star is_space; Lit "-";
         lazy_star any_char; Lit ":"; star is_space;
         Grp 2 (Alt (lit_ci "Bought") (lit_ci "Sold")); plus is_space;
         Grp 3 (plus digit_or_dot); plus is_space; lit_ci "share";
         Opt (lit_ci "s");
         Opt (seqs [ lazy_star any_char; lit_ci "(executed at ";
                     Grp 4 (seqs [ Rep true is_digit 4 (Some 4); Lit "-";
                                   Rep true is_digit 2 (Some 2); Lit "-";
                                   Rep true is_digit 2 (Some 2) ]);
                     Lit ")" ]) ].

(** A row of [csv.DictReader]: a field is a text, or [None] when the
    line was too short to hold it. *)
Definition csv_row : Type := list (text * option text).

(** [(row.get(k) or "")] *)
Definition cell (k : text) (row : csv_row) : text :=
  match dict_get k row with
  | Some (Some v) => v
  | _ => []
  end.

(** [row.get(k, "")] followed by a method call: [None] is the
    [AttributeError] raised on a field that is [None]. *)
Definition cell_default (k : text) (row : csv_row) : option text :=
  match dict_get k row with
  | Some (Some v) => Some v
  | Some None => None
  | None => Some []
  end.

(** [s.strip(QUOTE)] for the double quote *)
Definition strip_quotes (s : text) : text :=
  rstrip_char dquote (lstrip_char dquote s).

Definition side_of (s : text) : option side :=
  if text_eqb s "BUY" then Some BUY
  else if text_eqb s "SELL" then Some SELL
  else None.

(** What one row of a parser comes to: an exception, nothing, or a
    tuple. *)
Inductive outcome : Type :=
| Raised
| Skipped
| Yielded (t : trade).

(** [yield (date, side, ticker, abs(float(amount)))] under
    [if date and ticker and amount]. *)
Definition yield_trade (date : text) (sd : side) (ticker amount : text)
  : outcome :=
  if nonempty date && nonempty ticker && nonempty amount then
    match float_of_text amount with
    | Some a => Yielded (Trade date sd ticker (fabs a))
    | None => Raised
    end
  else Skipped.

(** The body of the loop of [parse_wealthsimple_activities]. *)
Definition activities_row (row : csv_row) : outcome :=
  if negb (text_eqb (strip (cell "activity_type" row)) "Trade") then Skipped
  else
    match side_of (upper (strip (cell "activity_sub_type" row))) with
    | None => Skipped
    | Some sd =>
        let date := strip (cell "transaction_date" row) in
        let ticker := strip (cell "symbol" row) in
        let ticker := normalize_ticker_symbol ticker in
        let amount := strip (cell "net_cash_amount" row) in
        yield_trade date sd ticker amount
    end.

(** The body of the loop of [parse_wealthsimple_monthly]. *)
Definition monthly_row (row : csv_row) : outcome :=
  match cell_default "transaction" row with
  | None => Raised
  | Some tx =>
      match side_of (upper (strip_quotes (strip tx))) with
      | None => Skipped
      | Some sd =>
          match cell_default "description" row with
          | None => Raised
          | Some desc =>
              match re_match OLD_WS_RE (strip_quotes (strip desc)) with
              | None => Skipped
              | Some m =>
                  match cell_default "date" row with
                  | None => Raised
                  | Some fallback =>
                      let fallback_date := strip_quotes (strip fallback) in
                      let date :=
                        if nonempty (group 4 m) then group 4 m
                        else fallback_date in
                      let ticker := upper (group 1 m) in
                      let ticker := normalize_ticker_symbol ticker in
                      match cell_default "amount" row with
                      | None => Raised
                      | Some amount =>
                          yield_trade date sd ticker
                                      (strip_quotes (strip amount))
                      end
                  end
              end
          end
      end
  end.

(** A generator drained by [list.extend]: the tuples yielded, or [None]
    when a row raises. *)
Fixpoint drain (body : csv_row -> outcome) (rows : list csv_row)
  : option (list trade) :=
  match rows with
  | [] => Some []
  | row :: rows' =>
      match body row with
      | Raised => None
      | Skipped => drain body rows'
      | Yielded t =>
          match drain body rows' with
          | Some ts => Some (t :: ts)
          | None => None
          end
      end
  end.

(** The two parsers, on the rows that [csv.DictReader] reads from the
    file. *)
Definition parse_wealthsimple_activities (rows : list csv_row)
  : option (list trade) := drain activities_row rows.

Definition parse_wealthsimple_monthly (rows : list csv_row)
  : option (list trade) := drain monthly_row rows.

(** The values of [source_specs]: the second component names the
    parser. *)
Inductive ws_parser : Type := ActivitiesParser | MonthlyParser.

Definition source_specs : list (text * (text * ws_parser)) :=
  [ ("activities_export" : text,
     ("activities_export" : text, ActivitiesParser));
    ("monthly_csvs" : text, ("monthly_csvs" : text, MonthlyParser));
    ("monthly-statements-2017-01-to-2026-02" : text,
     ("monthly-statements-2017-01-to-2026-02" : text, MonthlyParser)) ].

Definition parser_fn (p : ws_parser) (rows : list csv_row)
  : option (list trade) :=
  match p with
  | ActivitiesParser => parse_wealthsimple_activities rows
  | MonthlyParser => parse_wealthsimple_monthly rows
  end.

Definition parse_order (configured_src : text) : list text :=
  match dict_get configured_src source_specs with
  | Some _ => [configured_src]
  | None => []
  end
  ++ filter (fun key => negb (text_eqb key configured_src))
            (map fst source_specs).

(** [for path in files: parsed.extend(parser_fn(path))]; [read] gives
    the rows of a file. *)
Fixpoint extend_all (p : ws_parser) (read : text -> list csv_row)
  (files : list text) (parsed : list trade) : option (list trade) :=
  match files with
  | [] => Some parsed
  | path :: files' =>
      match parser_fn p (read path) with
      | Some ts => extend_all p read files' (parsed ++ ts)
      | None => None
      end
  end.

(** The loop over [parse_order]. [dirs] gives the entries of a folder
    of [csvs/wealthsimple], [None] when the folder does not exist;
    [read_csv] gives the rows of a file of a folder. *)
Fixpoint ws_loop (dirs : text -> option (list text))
  (read_csv : text -> text -> list csv_row) (configured_src : text)
  (order : list text) (parsed : list trade) (used_sources : list text)
  : option (list trade * list text) :=
  match order with
  | [] => Some (parsed, used_sources)
  | key :: order' =>
      match dict_get key source_specs with
      | None => None
      | Some (rel_path, p) =>
          match dirs rel_path with
          | None =>
              ws_loop dirs read_csv configured_src order' parsed used_sources
          | Some entries =>
              match sorted (filter (endswith ".csv") entries) with
              | [] =>
                  ws_loop dirs read_csv configured_src order' parsed
                          used_sources
              | path :: files' =>
                  let used_sources := used_sources ++ [rel_path] in
                  match extend_all p (read_csv rel_path) (path :: files')
                                   parsed with
                  | None => None
                  | Some parsed =>
                      if text_eqb key configured_src
                      then Some (parsed, used_sources)
                      else if negb (text_eqb key configured_src)
                      then Some (parsed, used_sources)
                      else ws_loop dirs read_csv configured_src order'
                                   parsed used_sources
                  end
              end
          end
      end
  end.

(** [ws_root] is [None] when [csvs/wealthsimple] does not exist.  The
    result is the pair returned, [None] when a parser raises, and the
    lines printed. *)
Definition parse_wealthsimple_from_available_sources
  (ws_root : option (text -> option (list text)))
  (read_csv : text -> text -> list csv_row) (configured_src : text)
  : option (list trade * list text) * list text :=
  match ws_root with
  | None =>
      (Some ([], []), [("WealthSimple folder missing: csvs/wealthsimple" : text)])
  | Some dirs =>
      (ws_loop dirs read_csv configured_src (parse_order configured_src) [] [],
       [])
  end.

(** * Notions used by the properties

    Predicates on matcher states and patterns, invariants of the walk,
    the shapes named by the statements, and the sample statements the
    examples run on. *)

(** ** Matcher states and patterns *)

(** [st'] is [st] moved forward over the word [w]. *)
Definition extends (st st' : mstate) (w : text) : Prop :=
  rest st = w ++ rest st' /\ seen st' = rev w ++ seen st.

(** Every character a pattern can consume belongs to the class [p]. *)
Fixpoint alphabet (p : ascii -> bool) (r : re) : Prop :=
  match r with
  | Cls q | Rep _ q _ _ => forall c, q c = true -> p c = true
  | Lit w => Forall (fun c => p c = true) w
  | Seq a b | Alt a b => alphabet p a /\ alphabet p b
  | Opt a | Grp _ a => alphabet p a
  | _ => True
  end.

(** A pattern built from literals only, and the words it can consume. *)
Fixpoint finite (r : re) : bool :=
  match r with
  | Eps | Lit _ => true
  | Seq a b | Alt a b => finite a && finite b
  | Opt a => finite a
  | _ => false
  end.

Fixpoint words (r : re) : list text :=
  match r with
  | Eps => [[]]
  | Lit w => [w]
  | Seq a b => flat_map (fun x => map (app x) (words b)) (words a)
  | Alt a b => words a ++ words b
  | Opt a => words a ++ [[]]
  | _ => []
  end.

(** The captures satisfy [P], group by group. *)
Definition caps_sat (P : nat -> text -> Prop) (c : list (nat * text)) : Prop :=
  forall n w, lookup_cap n c = Some w -> P n w.

(** Whatever a group of the pattern consumes satisfies [P] at the
    group's number. *)
Fixpoint groups_sat (P : nat -> text -> Prop) (r : re) : Prop :=
  match r with
  | Grp n a =>
      (forall st st', In st' (run a st) -> P n (consumed st st'))
      /\ groups_sat P a
  | Seq a b | Alt a b => groups_sat P a /\ groups_sat P b
  | Opt a => groups_sat P a
  | _ => True
  end.

(** Group [n] is bound by every success of the pattern. *)
Fixpoint binds (n : nat) (r : re) : bool :=
  match r with
  | Grp k a => (k =? n) || binds n a
  | Seq a b => binds n a || binds n b
  | Alt a b => binds n a && binds n b
  | _ => false
  end.

(** Group [n] has a value in the state. *)
Definition bound (n : nat) (st : mstate) : Prop :=
  lookup_cap n (caps st) <> None.

(** A lower bound on the length of what a pattern consumes. *)
Fixpoint min_len (r : re) : nat :=
  match r with
  | Cls _ => 1
  | Lit w => length w
  | Seq a b => min_len a + min_len b
  | Alt a b => Nat.min (min_len a) (min_len b)
  | Rep _ _ lo _ => lo
  | Grp _ a => min_len a
  | _ => 0
  end.

(** The pattern holds no group. *)
Fixpoint no_group (r : re) : bool :=
  match r with
  | Grp _ _ => false
  | Seq a b | Alt a b => no_group a && no_group b
  | Opt a => no_group a
  | _ => true
  end.

(** The 256 characters. *)
Definition all_ascii : list ascii := map ascii_of_nat (seq 0 256).

(** Group 1 of the activity pattern is one of the month words. *)
Definition month_group (n : nat) (w : text) : Prop :=
  n = 1 -> In w (words MONTH).

(** Group 1 of the exchange-rate pattern holds digits and points. *)
Definition fx_group (n : nat) (w : text) : Prop :=
  n = 1 -> Forall (fun c => digit_or_dot c = true) w.

(** The class of [NON_TOKEN_RE]. *)
Definition not_token_char (c : ascii) : bool := negb (is_upper_or_digit c).

(** ** Numbers *)

(** The character is not a letter of the ASCII alphabet. *)
Definition no_letter (c : ascii) : bool := negb (is_lower (lower_char c)).

(** The characters of [NUM_MINUS]. *)
Definition numeric_char (c : ascii) : bool :=
  is_digit c || is_char "," c || is_char "." c || is_char "-" c.




(** A run of digits cannot go on into [rest]. *)
Definition stops (rest : text) : Prop :=
  match rest with
  | [] => True
  | c :: _ => is_digit c = false /\ is_char "_" c = false
  end.

(** A decimal numeral: integer digits, then a point and fraction digits
    when there are any. *)
Definition numeral (ip fp : text) : text :=
  ip ++ match fp with [] => [] | _ :: _ => "."%char :: fp end.

(** What an absolute value is: a zero, a positive number, the positive
    infinity, or NaN; [x < 0] is false of it. *)
Definition not_negative (a : pyfloat) : Prop :=
  match a with
  | Zero _ => True
  | Binary s _ _ => s = false
  | Infinite n => n = false
  | NaN => True
  end.

(** The float that a decimal numeral writes: the one nearest to the
    integer [mant] divided by the power [10 ^ places]. *)
Definition decimal (mant : Z) (places : nat) : pyfloat :=
  double (scale10 mant (0 - Z.of_nat places)).

(** The text is an exchange-rate match that [float] reads, and its
    value. *)
Definition page_rate (page : text) : option pyfloat :=
  match re_search RBC_FX_RE page with
  | Some m => float_of_text (group 1 m)
  | None => None
  end.

(** ** The walk *)

(** The guards of the loop body that come before the activity pattern
    is tried: the line is not empty, is no section marker, and the walk
    is inside an activity section. *)
Definition in_section (w : walk) (line : text) : bool :=
  nonempty line
  && negb (contains "FOOTNOTES" line)
  && negb (contains "Account Activity" line)
  && in_activity w
  && negb (startswith "Closing Balance" line).

(** The line is none of the markers that switch [in_activity]. *)
Definition no_marker (line : text) : Prop :=
  contains "FOOTNOTES" line = false
  /\ contains "Account Activity" line = false
  /\ startswith "Closing Balance" line = false.

(** The token names a month, numbered 1 to 12. *)
Definition month_in_range (w : text) : bool :=
  match month_token_to_number w with
  | Some mn => ((1 <=? mn) && (mn <=? 12))%Z
  | None => false
  end.

(** The amount a flushed candidate is reported with. *)
Definition scaled_amount (usd_to_cad : pyfloat) (cur : pending)
  (amount : pyfloat) : pyfloat :=
  fabs (match p_currency cur with
        | USD => fmul amount usd_to_cad
        | CAD => amount
        end).

(** The description of the candidate resolves to a (non-empty) symbol. *)
Definition resolved (tb : tables) (cur : pending) : option text :=
  truthy (resolve_rbc_symbol (candidate_desc cur) tb).

(** The invariant of the walk: every trade amount is an absolute
    value. *)
Definition walk_ok (w : walk) : Prop :=
  Forall (fun t => not_negative (t_amount t)) (trades w).

(** Parsing the statement prints at least one line. *)
Definition skip_is_logged (name : text) (pages : list text) (tb : tables)
  : Prop :=
  snd (parse_rbc_statement_trades name pages tb) <> [].

(** ** Alias tables and the run *)

(** A dict transformer that only ever adds absent keys, the same ones
    whatever the dict holds. *)
Definition first_wins (f : dict -> dict) : Prop :=
  forall d k,
    dict_get k (f d) =
    match dict_get k d with
    | Some v => Some v
    | None => dict_get k (f [])
    end.

(** A tables transformer that acts on each dict by a [first_wins]
    transformer. *)
Definition tables_first_wins (F : tables -> tables) : Prop :=
  exists f1 f2, first_wins f1 /\ first_wins f2 /\
    forall tb, F tb = Tables (f1 (compact_to_symbol tb)) (f2 (code_to_symbol tb)).

(** The tables a file's own pages would build. *)
Definition own_tables (pages_by_file : text -> option (list text))
  (path : text) : tables :=
  match pages_of pages_by_file path with
  | Some pages => collect_rbc_asset_aliases pages empty_tables
  | None => empty_tables
  end.

(** The first value present in a list of lookups. *)
Fixpoint first_some {A : Type} (l : list (option A)) : option A :=
  match l with
  | [] => None
  | Some x :: _ => Some x
  | None :: l' => first_some l'
  end.

(** The trades one file contributes when it is parsed with the tables
    [tb]. *)
Definition file_trades (pages_by_file : text -> option (list text))
  (tb : tables) (path : text) : list trade :=
  match pages_of pages_by_file path with
  | Some pages => fst (parse_rbc_statement_trades path pages tb)
  | None => []
  end.

(** Every key of the compact dict built by the collector is a non-empty
    text of token characters. *)
Definition compact_keys (tb : tables) : Prop :=
  Forall (fun kv => fst kv <> []
                    /\ Forall (fun c => is_upper_or_digit c = true) (fst kv))
         (compact_to_symbol tb).

(** ** Resolution *)

(** The candidate that the descending stable sort puts first: the
    earliest of those with the highest score. *)
Fixpoint first_max (l : list (nat * text)) : option (nat * text) :=
  match l with
  | [] => None
  | c :: l' =>
      match first_max l' with
      | None => Some c
      | Some b => if fst b <=? fst c then Some c else Some b
      end
  end.


(** ** File names *)

(** [name] is [base-digits.pdf]. *)
Definition copy_shape (name base digits : text) : Prop :=
  name = base ++ ("-" : text) ++ digits ++ (".pdf" : text)
  /\ digits <> []
  /\ Forall (fun c => is_digit c = true) digits.

(** [name] is a numbered copy of a file that is present. *)
Definition copy_of_present (entries : list text) (name : text) : Prop :=
  exists base digits,
    copy_shape name base digits /\ In (base ++ (".pdf" : text)) entries.

(** The order of [sorted]. *)
Definition text_le (a b : text) : Prop := text_leb a b = true.

(** ** Dates in file names *)

(** The text begins with four digits, a hyphen, two digits, a hyphen
    and two digits. *)
Definition dated (t : text) : Prop :=
  exists a b c post,
    t = a ++ ("-" : text) ++ b ++ ("-" : text) ++ c ++ post
    /\ length a = 4 /\ length b = 2 /\ length c = 2
    /\ Forall (fun ch => is_digit ch = true) (a ++ b ++ c).

(** ** Shapes of symbols and codes *)

(** A symbol as an Asset Review row shows it: a capital letter followed
    by one to twelve capitals, digits, points or hyphens. *)
Definition ticker_shape (s : text) : Prop :=
  match s with
  | c :: t =>
      is_upper c = true
      /\ Forall (fun x => symbol_char x = true) t
      /\ 1 <= length t <= 12
  | [] => False
  end.

(** A symbol as the collector stores it: of that shape, and not one of
    the two aliases that [normalize_ticker_symbol] rewrites. *)
Definition stored_symbol (s : text) : Prop :=
  ticker_shape s /\ s <> "GOOGL" /\ s <> "BRKB".

(** A run of digits, at least one. *)
Definition code_key (k : text) : Prop :=
  k <> [] /\ Forall (fun c => is_digit c = true) k.

(** A symbol made by the issuer fallback: RBF or FID and a code of three
    to five digits. *)
Definition issuer_symbol (s : text) : Prop :=
  exists code,
    (s = ("RBF" : text) ++ code \/ s = ("FID" : text) ++ code)
    /\ 3 <= length code <= 5
    /\ Forall (fun c => is_digit c = true) code.

(** Both tables hold stored symbols only, and the code table is keyed
    by runs of digits. *)
Definition tables_shape (tb : tables) : Prop :=
  Forall (fun kv => stored_symbol (snd kv)) (compact_to_symbol tb)
  /\ Forall (fun kv => code_key (fst kv) /\ stored_symbol (snd kv))
            (code_to_symbol tb).

(** Group 2 of the asset pattern has the shape of a ticker. *)
Definition asset_group (n : nat) (w : text) : Prop :=
  n = 2 -> ticker_shape w.

(** Group 1 of the code patterns is three to five digits. *)
Definition code_group (n : nat) (w : text) : Prop :=
  n = 1 -> 3 <= length w <= 5 /\ Forall (fun c => is_digit c = true) w.

(** ** Shapes of trades *)

(** A date as the walk writes it: year, month and day in decimal,
    padded with zeros and joined by hyphens; the year is that of a
    statement or the one before, the month is a month, and the day is
    whatever one or two digits say. *)
Definition iso_shape (d : text) : Prop :=
  exists y mn dd,
    d = iso_date y mn dd
    /\ (-1 <= y <= 9999)%Z /\ (1 <= mn <= 12)%Z /\ (0 <= dd <= 99)%Z.

Definition trade_shape (t : trade) : Prop :=
  iso_shape (t_date t)
  /\ (stored_symbol (t_symbol t) \/ issuer_symbol (t_symbol t))
  /\ not_negative (t_amount t).

(** The invariant of the walk behind [trade_shape]. *)
Definition walk_shape (w : walk) : Prop :=
  Forall trade_shape (trades w)
  /\ match current w with
     | Some cur => iso_shape (p_date cur)
     | None => True
     end.

(** Group 2 of the activity pattern is one or two digits. *)
Definition day_group (n : nat) (w : text) : Prop :=
  n = 2 -> 1 <= length w <= 2 /\ Forall (fun c => is_digit c = true) w.

(** The line is a dated activity line whose verb is BOUGHT or SOLD. *)
Definition is_trade_line (line : text) : bool :=
  match activity_match line with
  | Some m =>
      text_eqb (upper (group 3 m)) "BOUGHT" || text_eqb (upper (group 3 m)) "SOLD"
  | None => false
  end.

(** The number of such lines in the pages of a statement. *)
Definition trade_lines (pages : list text) : nat :=
  length (filter is_trade_line (flat_map page_lines pages)).

(** The rows a walk accounts for: the trades, the unresolved rows and
    the live candidate. *)
Definition rows (w : walk) : nat :=
  length (trades w) + length (unresolved w)
  + match current w with Some _ => 1 | None => 0 end.

(** ** The Wealthsimple exports *)

(** A tuple as the Wealthsimple parsers yield it. *)
Definition ws_trade_shape (t : trade) : Prop :=
  t_date t <> []
  /\ t_symbol t <> []
  /\ normalize_ticker_symbol (t_symbol t) = t_symbol t
  /\ not_negative (t_amount t).

(** The files of a source folder, in the order in which they are
    parsed; none when the folder does not exist. *)
Definition csv_files (dirs : text -> option (list text)) (rel_path : text)
  : list text :=
  match dirs rel_path with
  | Some entries => sorted (filter (endswith ".csv") entries)
  | None => []
  end.

Definition has_files (dirs : text -> option (list text)) (rel_path : text)
  : bool :=
  match csv_files dirs rel_path with [] => false | _ :: _ => true end.

(** The source that is used: the first of the parse order whose folder
    holds files. *)
Definition first_source (dirs : text -> option (list text))
  (configured_src : text) : option text :=
  find (has_files dirs) (parse_order configured_src).


(** Group 1 of the configuration pattern holds no quote and is not
    empty. *)
Definition src_group (n : nat) (w : text) : Prop :=
  n = 1 -> w <> [] /\ Forall (fun c => is_quote c = false) w.

(** A sample export row. *)
Definition sample_ws_row (amount : text) : csv_row :=
  [ ("activity_type" : text, Some ("Trade" : text));
    ("activity_sub_type" : text, Some ("BUY" : text));
    ("transaction_date" : text, Some ("2024-01-02" : text));
    ("symbol" : text, Some ("googl" : text));
    ("net_cash_amount" : text, Some amount) ].

(** Folders of [csvs/wealthsimple]: both the activities export and the
    monthly files are present. *)
Definition sample_ws_dirs (rel_path : text) : option (list text) :=
  if text_eqb rel_path "activities_export" then Some [("b.csv" : text); ("a.csv" : text)]
  else if text_eqb rel_path "monthly_csvs" then Some [("m.csv" : text)]
  else None.

Definition sample_ws_read (rel_path path : text) : list csv_row :=
  if text_eqb rel_path "activities_export"
  then [sample_ws_row ("-10.5" : text)]
  else [].

(** ** Rows of an Asset Review section *)



(** ** Sample statements *)

(** A page made of the given lines, separated by line feeds. *)
Definition page_of_lines (lines : list text) : text := join ["010"%char] lines.

(** A row of an Asset Review section. *)
Definition sample_asset_row : text :=
  "APPLE INC AAPL 10 150.00 170.00 $1,700.00".

(** Two statements: the January one lists a holding, the February one
    sells it. *)
Definition january_page : text :=
  page_of_lines [("Asset Review" : text); sample_asset_row].

Definition february_page : text :=
  page_of_lines [("Account Activity" : text);
                 ("JAN.15 SOLD APPLE INC 10 170.00 1,700.00" : text);
                 ("Closing Balance" : text)].

Definition two_statements (path : text) : option (list text) :=
  if text_eqb path "2023-01-10.pdf" then Some [january_page]
  else if text_eqb path "2023-02-10.pdf" then Some [february_page]
  else None.

Definition two_statement_run : list trade * list text :=
  parse_rbc (Some [("2023-01-10.pdf" : text); ("2023-02-10.pdf" : text)])
            (fun _ => Extracted two_statements).

(** A U.S. dollar page with an exchange-rate line. *)
Definition usd_page : text :=
  page_of_lines [("Statement (U.S.$)" : text);
                 ("Exchange rate 1USD = 1.25 CAD" : text);
                 ("Asset Review" : text); sample_asset_row;
                 ("Account Activity" : text);
                 ("JAN.15 SOLD APPLE INC 10 170.00 1,700.00-" : text);
                 ("Closing Balance" : text)].

(** A page whose exchange-rate line carries a text that is no number. *)
Definition unreadable_rate_page : text :=
  page_of_lines [("Exchange rate 1USD = 1.2.3 CAD" : text)].

(** A U.S. dollar page whose rate has four hundred digits, with a sale
    of amount zero. *)
Definition overflow_page : text :=
  page_of_lines [("Statement (U.S.$)" : text);
                 ("Exchange rate 1USD = " : text) ++ repeat "9"%char 400
                   ++ (" CAD" : text);
                 ("Asset Review" : text); sample_asset_row;
                 ("Account Activity" : text);
                 ("JAN.15 SOLD APPLE INC 10 0.00 0.00" : text);
                 ("Closing Balance" : text)].

(** The worked example of the specification. *)
Definition example_page : text :=
  page_of_lines
    [("Account Activity" : text);
     ("JAN.15 BOUGHT XYZ FUND (12345) 100.000 10.00 1,000.00-" : text)].

(** A live candidate without an amount. *)
Definition sample_candidate : pending :=
  Pending "2022-12-29" BUY CAD [("APPLE INC" : text)] None.

(** A directory with a numbered copy, its base, and a numbered name
    whose base is absent. *)
Definition sample_directory : list text :=
  [("b-2023-02-10.pdf" : text); ("a-2023-01-10-1.pdf" : text);
   ("notes.txt" : text); ("a-2023-01-10.pdf" : text); ("c-1.pdf" : text)].

(** Tables with two entries contained in one description. *)
Definition sample_tables : tables :=
  Tables [("APPLE" : text, "APL" : text); ("APPLEINC" : text, "AAPL" : text);
          ("RBCBONDFUND" : text, "RBF900" : text)]
         [("900" : text, "RBF900" : text)].

(** * Properties *)

(** ** Texts *)

Lemma ascii_eqb_eq (a b : ascii) : ascii_eqb a b = true <-> a = b.
Proof.
  unfold ascii_eqb, code. rewrite Nat.eqb_eq. split.
  - intros H. rewrite <- (ascii_nat_embedding a), <- (ascii_nat_embedding b).
    now rewrite H.
  - now intros ->.
Qed.

Lemma ascii_eqb_refl (a : ascii) : ascii_eqb a a = true.
Proof. now apply ascii_eqb_eq. Qed.

Lemma text_eqb_eq (a b : text) : text_eqb a b = true <-> a = b.
Proof.
  revert b. induction a as [|x a IH]; intros [|y b]; simpl; try easy.
  rewrite andb_true_iff, ascii_eqb_eq, IH. split.
  - now intros [-> ->].
  - intros H. now inversion H.
Qed.

Lemma text_eqb_refl (a : text) : text_eqb a a = true.
Proof. now apply text_eqb_eq. Qed.

Lemma startswith_app (p s : text) : startswith p (p ++ s) = true.
Proof. induction p; simpl; [easy|]. now rewrite ascii_eqb_refl. Qed.

Lemma startswith_split (p s : text) :
  startswith p s = true -> exists t, s = p ++ t.
Proof.
  revert s. induction p as [|x p IH]; intros s H; simpl in *.
  - now exists s.
  - destruct s as [|y s]; [easy|]. apply andb_true_iff in H as [E H].
    apply ascii_eqb_eq in E as ->. destruct (IH _ H) as [t ->]. now exists t.
Qed.

(** ** Flushing the live candidate *)

Lemma flush_none tb rate w :
  current w = None -> flush_current tb rate w = w.
Proof. unfold flush_current. now intros ->. Qed.

Lemma flush_current_clears tb rate w :
  current (flush_current tb rate w) = None.
Proof.
  unfold flush_current.
  destruct (current w) as [cur|] eqn:E; [|exact E].
  destruct (p_amount cur); [|reflexivity].
  now destruct (truthy _).
Qed.

Lemma flush_in_activity tb rate w :
  in_activity (flush_current tb rate w) = in_activity w.
Proof.
  unfold flush_current.
  destruct (current w) as [cur|]; [|reflexivity].
  destruct (p_amount cur); [|reflexivity].
  now destruct (truthy _).
Qed.

Lemma app_one_neq {A} (l : list A) (x : A) : l ++ [x] <> l.
Proof.
  intros H. apply (f_equal (@length A)) in H.
  rewrite length_app in H. simpl in H. lia.
Qed.

(** C2. Flushing a live candidate: a trade is appended exactly when the
    candidate has an amount and its description resolves to a symbol;
    with an amount and no symbol the candidate goes to the unresolved
    diagnostics and not to the output; with no amount nothing is
    recorded; in every case the candidate is cleared. *)
Theorem flush_current_outcome (tb : tables) (usd_to_cad : pyfloat)
  (ts : list trade) (us : list unresolved_row) (cur : pending) (act : bool) :
  let w' := flush_current tb usd_to_cad (Walk ts us (Some cur) act) in
  current w' = None
  /\ in_activity w' = act
  /\ ((exists t, trades w' = ts ++ [t]) <->
      (exists amount symbol,
         p_amount cur = Some amount /\ resolved tb cur = Some symbol))
  /\ (forall amount symbol,
        p_amount cur = Some amount -> resolved tb cur = Some symbol ->
        trades w' =
          ts ++ [Trade (p_date cur) (p_side cur) symbol
                       (scaled_amount usd_to_cad cur amount)]
        /\ unresolved w' = us)
  /\ (forall amount,
        p_amount cur = Some amount -> resolved tb cur = None ->
        trades w' = ts
        /\ unresolved w' =
             us ++ [Unresolved (p_date cur) (p_side cur) (candidate_desc cur)
                               amount])
  /\ (p_amount cur = None -> trades w' = ts /\ unresolved w' = us).
Proof.
  unfold resolved, scaled_amount, flush_current; simpl.
  destruct (p_amount cur) as [a|] eqn:Ea; simpl.
  - destruct (truthy (resolve_rbc_symbol (candidate_desc cur) tb))
      as [sym|] eqn:Er; simpl.
    + split; [reflexivity|]. split; [reflexivity|]. split; [split|].
      * intros _. now exists a, sym.
      * intros _. eexists; reflexivity.
      * split; [|split]; [| intros b _ Hb; discriminate | intros Hb; discriminate].
        intros b s Hb Hs. injection Hb as <-. injection Hs as <-. now split.
    + split; [reflexivity|]. split; [reflexivity|]. split; [split|].
      * intros [t Ht]. symmetry in Ht. now apply app_one_neq in Ht.
      * intros (b & s & _ & Hs). discriminate.
      * split; [|split]; [intros b s _ Hs; discriminate | | intros Hb; discriminate].
        intros b Hb _. injection Hb as <-. now split.
  - split; [reflexivity|]. split; [reflexivity|]. split; [split|].
    + intros [t Ht]. symmetry in Ht. now apply app_one_neq in Ht.
    + intros (b & s & Hb & _). discriminate.
    + split; [|split]; [intros b s Hb; discriminate | intros b Hb; discriminate |].
      intros _. now split.
Qed.

(** ** The matcher: where a success stands *)

Lemma extends_refl st : extends st st [].
Proof. now split. Qed.

Lemma extends_trans st mid st' w1 w2 :
  extends st mid w1 -> extends mid st' w2 -> extends st st' (w1 ++ w2).
Proof.
  intros [R1 S1] [R2 S2]. split.
  - now rewrite R1, R2, app_assoc.
  - now rewrite S2, S1, rev_app_distr, app_assoc.
Qed.

Lemma advance_extends k st : extends st (advance k st) (firstn k (rest st)).
Proof. split; simpl; [now rewrite firstn_skipn | reflexivity]. Qed.

Lemma extends_consumed st st' w : extends st st' w -> consumed st st' = w.
Proof.
  intros [R _]. unfold consumed. rewrite R, length_app.
  replace (length w + length (rest st') - length (rest st')) with (length w + 0) by lia.
  now rewrite firstn_app_2, app_nil_r.
Qed.

Lemma extends_inj st st' w1 w2 :
  extends st st' w1 -> extends st st' w2 -> w1 = w2.
Proof.
  intros H1 H2. apply extends_consumed in H1, H2. congruence.
Qed.

Lemma set_cap_extends n w0 st st' w :
  extends st st' w -> extends st (set_cap n w0 st') w.
Proof. now intros [R S]. Qed.

Lemma in_counts g lo hi avail k :
  In k (counts g lo hi avail) <->
  lo <= k /\ k <= avail /\ (forall h, hi = Some h -> k <= h).
Proof.
  unfold counts.
  set (top := match hi with Some h => Nat.min h avail | None => avail end).
  assert (Htop : forall k, k <= top <->
                   k <= avail /\ (forall h, hi = Some h -> k <= h)).
  { intros j. unfold top. destruct hi as [h|].
    - split.
      + intros H. split; [lia|]. intros h' [= <-]. lia.
      + intros [H1 H2]. specialize (H2 h eq_refl). lia.
    - split; [intros H; split; [lia|discriminate] | now intros [H _]]. }
  destruct (top <? lo) eqn:E.
  - apply Nat.ltb_lt in E. split; [easy|].
    intros (H1 & H2). apply Htop in H2. lia.
  - apply Nat.ltb_ge in E.
    assert (In k (seq lo (S top - lo)) <-> lo <= k /\ k <= top).
    { rewrite in_seq. lia. }
    destruct g; [rewrite <- in_rev|]; rewrite H, Htop; tauto.
Qed.

Lemma in_run_seq r1 r2 st st' :
  In st' (run (Seq r1 r2) st) <->
  exists mid, In mid (run r1 st) /\ In st' (run r2 mid).
Proof. simpl. apply in_flat_map. Qed.

Lemma in_run_grp n r st st' :
  In st' (run (Grp n r) st) <->
  exists e, In e (run r st) /\ st' = set_cap n (consumed st e) e.
Proof.
  simpl. rewrite in_map_iff. split; intros (e & H1 & H2); exists e; split; auto.
Qed.

Lemma in_run_rep g p lo hi st st' :
  In st' (run (Rep g p lo hi) st) <->
  exists k, lo <= k /\ k <= span p (rest st)
            /\ (forall h, hi = Some h -> k <= h) /\ st' = advance k st.
Proof.
  simpl. rewrite in_map_iff. split.
  - intros (k & <- & Hk). apply in_counts in Hk. exists k. tauto.
  - intros (k & H1 & H2 & H3 & ->). exists k. split; [easy|].
    apply in_counts. tauto.
Qed.

Lemma in_run_lit w st st' :
  In st' (run (Lit w) st) <->
  startswith w (rest st) = true /\ st' = advance (length w) st.
Proof.
  simpl. destruct (startswith w (rest st)); simpl; [|easy].
  split; [intros [<-|[]]; easy | intros [_ ->]; now left].
Qed.

Lemma firstn_length_app {A} (w t : list A) : firstn (length w) (w ++ t) = w.
Proof.
  replace (length w) with (length w + 0) by lia.
  now rewrite firstn_app_2, app_nil_r.
Qed.

Lemma skipn_length_app {A} (w t : list A) : skipn (length w) (w ++ t) = t.
Proof. induction w; simpl; auto. Qed.

Lemma in_run_lit_word w st st' :
  In st' (run (Lit w) st) ->
  rest st = w ++ rest st' /\ caps st' = caps st.
Proof.
  intros H. apply in_run_lit in H as [S ->].
  apply startswith_split in S as [t E]. simpl.
  now rewrite E, skipn_length_app.
Qed.

Lemma in_run_opt r st st' :
  In st' (run (Opt r) st) <-> In st' (run r st) \/ st' = st.
Proof.
  cbn [run]. rewrite in_app_iff. cbn [In]. intuition.
Qed.

Lemma run_extends r : forall st st',
  In st' (run r st) -> exists w, extends st st' w.
Proof.
  induction r; intros st st' H; simpl in H.
  - destruct H as [<-|[]]. exists []. apply extends_refl.
  - destruct (head_is p (rest st)); [|easy]. destruct H as [<-|[]].
    eexists. apply advance_extends.
  - destruct (startswith w (rest st)); [|easy]. destruct H as [<-|[]].
    eexists. apply advance_extends.
  - apply in_flat_map in H as (mid & H1 & H2).
    destruct (IHr1 _ _ H1) as [w1 E1], (IHr2 _ _ H2) as [w2 E2].
    exists (w1 ++ w2). eapply extends_trans; eauto.
  - apply in_app_or in H as [H|H]; eauto.
  - apply in_app_or in H as [H|[<-|[]]]; eauto.
    exists []. apply extends_refl.
  - apply in_map_iff in H as (k & <- & _). eexists. apply advance_extends.
  - apply in_map_iff in H as (e & <- & H). destruct (IHr _ _ H) as [w E].
    exists w. now apply set_cap_extends.
  - destruct (seen st); [|easy]. destruct H as [<-|[]].
    exists []. apply extends_refl.
  - destruct (rest st) as [|c [|d t]]; try easy.
    + destruct H as [<-|[]]. exists []. apply extends_refl.
    + destruct (ascii_eqb c "010"); [|easy]. destruct H as [<-|[]].
      exists []. apply extends_refl.
  - destruct (xorb _ _); [|easy]. destruct H as [<-|[]].
    exists []. apply extends_refl.
  - destruct (head_is p (seen st)); [easy|]. destruct H as [<-|[]].
    exists []. apply extends_refl.
  - destruct (head_is p (rest st)); [easy|]. destruct H as [<-|[]].
    exists []. apply extends_refl.
Qed.

Lemma consumed_seq r1 r2 st mid st' :
  In mid (run r1 st) -> In st' (run r2 mid) ->
  consumed st st' = consumed st mid ++ consumed mid st'.
Proof.
  intros H1 H2.
  destruct (run_extends _ _ _ H1) as [w1 E1].
  destruct (run_extends _ _ _ H2) as [w2 E2].
  rewrite (extends_consumed _ _ _ E1), (extends_consumed _ _ _ E2).
  apply extends_consumed. eapply extends_trans; eauto.
Qed.

Lemma span_firstn p s k :
  k <= span p s -> Forall (fun c => p c = true) (firstn k s).
Proof.
  revert k. induction s as [|c s IH]; intros k H; simpl in *.
  - rewrite firstn_nil. constructor.
  - destruct k; [constructor|]. destruct (p c) eqn:E; [|lia].
    simpl. constructor; [easy|]. apply IH. lia.
Qed.

Lemma span_le p s : span p s <= length s.
Proof. induction s; simpl; [lia|]. destruct (p a); lia. Qed.

Lemma span_app_all p w t :
  Forall (fun c => p c = true) w -> length w <= span p (w ++ t).
Proof.
  induction 1; simpl; [lia|]. rewrite H. lia.
Qed.

(** ** The matcher: what a success has consumed and captured *)

Lemma consumed_self st : consumed st st = [].
Proof. apply extends_consumed, extends_refl. Qed.

Lemma consumed_advance k st : consumed st (advance k st) = firstn k (rest st).
Proof. apply extends_consumed, advance_extends. Qed.

Lemma consumed_set_cap n w st st' :
  consumed st (set_cap n w st') = consumed st st'.
Proof. reflexivity. Qed.

Lemma run_alphabet p r :
  alphabet p r -> forall st st',
  In st' (run r st) -> Forall (fun c => p c = true) (consumed st st').
Proof.
  induction r; simpl; intros A st st' H;
    try (destruct H as [<-|[]]; rewrite consumed_self; constructor).
  - destruct (rest st) as [|c t] eqn:E; simpl in H; [easy|].
    destruct (p0 c) eqn:Ec; [|easy]. destruct H as [<-|[]].
    rewrite consumed_advance, E. simpl. constructor; auto.
  - destruct (startswith w (rest st)) eqn:E; [|easy]. destruct H as [<-|[]].
    apply startswith_split in E as [t E].
    rewrite consumed_advance, E, firstn_length_app. exact A.
  - destruct A as [A1 A2]. apply in_flat_map in H as (mid & H1 & H2).
    rewrite (consumed_seq _ _ _ _ _ H1 H2). apply Forall_app. split; eauto.
  - destruct A as [A1 A2]. apply in_app_or in H as [H|H]; eauto.
  - apply in_app_or in H as [H|[<-|[]]]; eauto.
    rewrite consumed_self; constructor.
  - apply in_map_iff in H as (k & <- & Hk). apply in_counts in Hk.
    rewrite consumed_advance.
    eapply Forall_impl; [|apply span_firstn with (p := p0); lia]. auto.
  - apply in_map_iff in H as (e & <- & H). rewrite consumed_set_cap. eauto.
  - destruct (seen st); [|easy]. destruct H as [<-|[]].
    rewrite consumed_self; constructor.
  - destruct (rest st) as [|c [|d t]]; try easy.
    + destruct H as [<-|[]]. rewrite consumed_self; constructor.
    + destruct (ascii_eqb c "010"); [|easy]. destruct H as [<-|[]].
      rewrite consumed_self; constructor.
  - destruct (xorb _ _); [|easy]. destruct H as [<-|[]].
    rewrite consumed_self; constructor.
  - destruct (head_is p0 (seen st)); [easy|]. destruct H as [<-|[]].
    rewrite consumed_self; constructor.
  - destruct (head_is p0 (rest st)); [easy|]. destruct H as [<-|[]].
    rewrite consumed_self; constructor.
Qed.

Lemma run_words r :
  finite r = true -> forall st st',
  In st' (run r st) -> In (consumed st st') (words r).
Proof.
  induction r; simpl; intros F st st' H; try discriminate.
  - destruct H as [<-|[]]. rewrite consumed_self. now left.
  - destruct (startswith w (rest st)) eqn:E; [|easy]. destruct H as [<-|[]].
    apply startswith_split in E as [t E].
    rewrite consumed_advance, E, firstn_length_app. now left.
  - apply andb_true_iff in F as [F1 F2].
    apply in_flat_map in H as (mid & H1 & H2).
    rewrite (consumed_seq _ _ _ _ _ H1 H2). apply in_flat_map.
    exists (consumed st mid). split; [eauto|]. apply in_map. eauto.
  - apply andb_true_iff in F as [F1 F2].
    apply in_or_app. apply in_app_or in H as [H|H]; eauto.
  - apply in_or_app. apply in_app_or in H as [H|[<-|[]]]; eauto.
    right. rewrite consumed_self. now left.
Qed.

Lemma run_caps_sat P r :
  groups_sat P r -> forall st st',
  caps_sat P (caps st) -> In st' (run r st) -> caps_sat P (caps st').
Proof.
  induction r; simpl; intros G st st' C H;
    try (destruct H as [<-|[]]; exact C).
  - destruct (head_is p (rest st)); [|easy]. now destruct H as [<-|[]].
  - destruct (startswith w (rest st)); [|easy]. now destruct H as [<-|[]].
  - destruct G as [G1 G2]. apply in_flat_map in H as (mid & H1 & H2). eauto.
  - destruct G as [G1 G2]. apply in_app_or in H as [H|H]; eauto.
  - apply in_app_or in H as [H|[<-|[]]]; eauto.
  - apply in_map_iff in H as (k & <- & _). exact C.
  - destruct G as [G1 G2]. apply in_map_iff in H as (e & <- & H).
    intros k w. simpl. destruct (n =? k) eqn:E.
    + apply Nat.eqb_eq in E as <-. intros [= <-]. eauto.
    + apply (IHr G2 _ _ C H).
  - destruct (seen st); [|easy]. now destruct H as [<-|[]].
  - destruct (rest st) as [|c [|d t]]; try easy.
    + now destruct H as [<-|[]].
    + destruct (ascii_eqb c "010"); [|easy]. now destruct H as [<-|[]].
  - destruct (xorb _ _); [|easy]. now destruct H as [<-|[]].
  - destruct (head_is p (seen st)); [easy|]. now destruct H as [<-|[]].
  - destruct (head_is p (rest st)); [easy|]. now destruct H as [<-|[]].
Qed.

Lemma run_keeps_bound n r : forall st st',
  bound n st -> In st' (run r st) -> bound n st'.
Proof.
  unfold bound.
  induction r; simpl; intros st st' B H;
    try (destruct H as [<-|[]]; exact B).
  - destruct (head_is p (rest st)); [|easy]. now destruct H as [<-|[]].
  - destruct (startswith w (rest st)); [|easy]. now destruct H as [<-|[]].
  - apply in_flat_map in H as (mid & H1 & H2). eauto.
  - apply in_app_or in H as [H|H]; eauto.
  - apply in_app_or in H as [H|[<-|[]]]; eauto.
  - apply in_map_iff in H as (k & <- & _). exact B.
  - apply in_map_iff in H as (e & <- & H). simpl.
    destruct (n0 =? n); [easy|]. eauto.
  - destruct (seen st); [|easy]. now destruct H as [<-|[]].
  - destruct (rest st) as [|c [|d t]]; try easy.
    + now destruct H as [<-|[]].
    + destruct (ascii_eqb c "010"); [|easy]. now destruct H as [<-|[]].
  - destruct (xorb _ _); [|easy]. now destruct H as [<-|[]].
  - destruct (head_is p (seen st)); [easy|]. now destruct H as [<-|[]].
  - destruct (head_is p (rest st)); [easy|]. now destruct H as [<-|[]].
Qed.

Lemma run_binds n r :
  binds n r = true -> forall st st', In st' (run r st) -> bound n st'.
Proof.
  induction r; simpl; intros B st st' H; try discriminate.
  - apply in_flat_map in H as (mid & H1 & H2).
    apply orb_true_iff in B as [B|B].
    + eapply run_keeps_bound; eauto.
    + eauto.
  - apply andb_true_iff in B as [B1 B2]. apply in_app_or in H as [H|H]; eauto.
  - apply in_map_iff in H as (e & <- & H). unfold bound. simpl.
    destruct (n0 =? n) eqn:E; [easy|]. simpl in B. apply (IHr B _ _ H).
Qed.

Lemma hd_error_in {A} (l : list A) (x : A) : hd_error l = Some x -> In x l.
Proof. destruct l; [easy|]. intros [= ->]. now left. Qed.

(** What a match object of [r] satisfies: its groups satisfy [P], and a
    group [r] binds is read back by [group]. *)
Lemma match_at_group P r n before after m :
  groups_sat P r -> binds (S n) r = true ->
  match_at r before after = Some m -> P (S n) (group (S n) m).
Proof.
  intros G B H. unfold match_at in H. apply hd_error_in in H.
  apply in_map_iff in H as (e & <- & H).
  pose proof (run_binds _ r B _ _ H) as Bd.
  assert (C : caps_sat P (caps e)).
  { eapply run_caps_sat; eauto. intros k w E. discriminate. }
  unfold group, bound in *. simpl.
  destruct (lookup_cap (S n) (caps e)) eqn:E; [|easy]. eauto.
Qed.

Lemma search_from_match r : forall after before m,
  search_from r before after = Some m ->
  exists before' after', match_at r before' after' = Some m.
Proof.
  induction after as [|c after IH]; intros before m H; simpl in H.
  - destruct (match_at r before []) eqn:E; [|easy].
    injection H as <-. eauto.
  - destruct (match_at r before (c :: after)) eqn:E.
    + injection H as <-. eauto.
    + eauto.
Qed.

Lemma re_search_group P r n s m :
  groups_sat P r -> binds (S n) r = true ->
  re_search r s = Some m -> P (S n) (group (S n) m).
Proof.
  intros G B H. apply search_from_match in H as (b & a & H).
  eapply match_at_group; eauto.
Qed.

Lemma re_match_group P r n s m :
  groups_sat P r -> binds (S n) r = true ->
  re_match r s = Some m -> P (S n) (group (S n) m).
Proof. intros G B H. eapply match_at_group; eauto. Qed.

(** ** Character classes, by enumeration *)

Lemma in_all_ascii (c : ascii) : In c all_ascii.
Proof.
  unfold all_ascii. rewrite <- (ascii_nat_embedding c). apply in_map.
  apply in_seq. pose proof (nat_ascii_bounded c). lia.
Qed.

Lemma class_forall (f : ascii -> bool) :
  forallb f all_ascii = true -> forall c, f c = true.
Proof. intros H c. rewrite forallb_forall in H. apply H, in_all_ascii. Qed.

Lemma class_incl (q p : ascii -> bool) :
  forallb (fun c => implb (q c) (p c)) all_ascii = true ->
  forall c, q c = true -> p c = true.
Proof.
  intros H c Hq. pose proof (class_forall _ H c) as Hc. simpl in Hc.
  now rewrite Hq in Hc.
Qed.

(** ** Dated activity lines *)

Lemma step_in_section tb rate Y M pc w line :
  in_section w line = true ->
  step tb rate Y M pc w line =
    match activity_match line with
    | Some m_activity => start_activity tb rate Y M pc m_activity w
    | None =>
        if is_header_line line then w
        else
          match current w with
          | None => w
          | Some cur => set_current (Some (continue_candidate line cur)) w
          end
    end.
Proof.
  unfold in_section, step. intros H.
  repeat (apply andb_true_iff in H as [H ?]).
  rewrite H.
  destruct (contains "FOOTNOTES" line); [discriminate|].
  destruct (contains "Account Activity" line); [discriminate|].
  destruct (in_activity w); [|discriminate].
  destruct (startswith "Closing Balance" line); [discriminate|].
  reflexivity.
Qed.

Lemma month_words_in_range : forallb month_in_range (words MONTH) = true.
Proof. vm_compute. reflexivity. Qed.

Lemma activity_groups_sat : groups_sat month_group RBC_ACTIVITY_START_RE.
Proof.
  unfold RBC_ACTIVITY_START_RE. cbn [seqs groups_sat].
  repeat split; try (intros; intros E; discriminate E).
  intros st st' H _. now apply run_words.
Qed.

(** The month token of a dated activity line always names a month. *)
Lemma activity_month_known line m :
  activity_match line = Some m ->
  exists mn, month_token_to_number (group 1 m) = Some mn
             /\ (1 <= mn <= 12)%Z.
Proof.
  intros H.
  assert (G : month_group 1 (group 1 m)).
  { unfold activity_match in H.
    destruct (re_match RBC_ACTIVITY_START_RE line) eqn:E.
    - injection H as <-.
      eapply re_match_group; eauto using activity_groups_sat.
    - eapply re_search_group; eauto using activity_groups_sat. }
  specialize (G eq_refl).
  pose proof month_words_in_range as F. rewrite forallb_forall in F.
  specialize (F _ G). unfold month_in_range in F.
  destruct (month_token_to_number (group 1 m)) as [mn|]; [|discriminate].
  exists mn. split; [reflexivity|]. lia.
Qed.

(** C3. A dated line with verb BOUGHT or SOLD, read inside an activity
    section of a statement dated year [Y], month [M]: the candidate it
    creates is dated [Y - 1] when [M] is January and the line's month is
    December, and [Y] for every other pair of months. *)
Theorem activity_year_rollover (tb : tables) (usd_to_cad : pyfloat)
  (Y M : Z) (pc : currency) (w : walk) (line : text) (m : mstate) :
  in_section w line = true ->
  activity_match line = Some m ->
  upper (group 3 m) = "BOUGHT" \/ upper (group 3 m) = "SOLD" ->
  exists mn cand,
    month_token_to_number (group 1 m) = Some mn
    /\ current (step tb usd_to_cad Y M pc w line) = Some cand
    /\ (M = 1%Z /\ mn = 12%Z ->
        p_date cand = iso_date (Y - 1) 12 (int_of_digits (group 2 m)))
    /\ (~ (M = 1%Z /\ mn = 12%Z) ->
        p_date cand = iso_date Y mn (int_of_digits (group 2 m))).
Proof.
  intros S A V.
  destruct (activity_month_known _ _ A) as (mn & Hm & Hr).
  rewrite (step_in_section _ _ _ _ _ _ _ S), A.
  unfold start_activity. rewrite Hm.
  assert (Hv : negb (text_eqb (upper (group 3 m)) "BOUGHT"
                     || text_eqb (upper (group 3 m)) "SOLD") = false).
  { destruct V as [-> | ->]; reflexivity. }
  rewrite Hv.
  assert (Hz : (mn =? 0)%Z = false) by (apply Z.eqb_neq; lia).
  rewrite Hz.
  exists mn.
  destruct (re_match RBC_INLINE_AMOUNT_RE (normalize_space (group 4 m)));
    (eexists; split; [reflexivity|]; split; [reflexivity|]; simpl;
     unfold activity_year; split;
     [ intros [-> ->]; reflexivity
     | intros N;
       destruct (M =? 1)%Z eqn:E1; [|reflexivity];
       destruct (mn =? 12)%Z eqn:E2; [|reflexivity];
       apply Z.eqb_eq in E1, E2; tauto ]).
Qed.

Lemma activity_year_rollover_witness :
  exists mn cand,
    mn = 12%Z
    /\ current (step empty_tables DEFAULT_USD_TO_CAD 2023 1 CAD
                     (Walk [] [] None true) "DEC.29 BOUGHT APPLE INC")
       = Some cand
    /\ p_date cand = "2022-12-29".
Proof.
  destruct (activity_year_rollover empty_tables DEFAULT_USD_TO_CAD 2023 1 CAD
              (Walk [] [] None true) "DEC.29 BOUGHT APPLE INC"
              (match activity_match "DEC.29 BOUGHT APPLE INC" with
               | Some m => m | None => MState [] [] [] end))
    as (mn & cand & Hm & Hc & Hd & _).
  - vm_compute. reflexivity.
  - vm_compute. reflexivity.
  - left. vm_compute. reflexivity.
  - assert (E : mn = 12%Z) by (vm_compute in Hm; congruence).
    exists mn, cand. split; [exact E|]. split; [exact Hc|].
    rewrite (Hd (conj eq_refl E)). vm_compute. reflexivity.
Defined.

(** ** Section flags across pages *)

Lemma collect_line_outside tb line :
  contains "Asset Review" line = false ->
  collect_line (false, tb) line = (false, tb).
Proof.
  intros H. unfold collect_line. rewrite H.
  destruct (negb (nonempty line)); reflexivity.
Qed.

Lemma collect_lines_outside tb lines :
  (forall line, In line lines -> contains "Asset Review" line = false) ->
  fold_left collect_line lines (false, tb) = (false, tb).
Proof.
  induction lines as [|l lines IH]; intros H; cbn [fold_left]; [reflexivity|].
  rewrite collect_line_outside by (apply H; now left).
  apply IH. intros line Hl. apply H. now right.
Qed.

Lemma start_activity_in_activity tb rate Y M pc m w :
  in_activity (start_activity tb rate Y M pc m w) = in_activity w.
Proof.
  unfold start_activity.
  destruct (negb _).
  - simpl. destruct (has_amount (current w)); [apply flush_in_activity|easy].
  - destruct (month_token_to_number (group 1 m)) as [mn|]; simpl;
      [|apply flush_in_activity].
    destruct (mn =? 0)%Z; simpl; [apply flush_in_activity|].
    destruct (re_match RBC_INLINE_AMOUNT_RE _); simpl; apply flush_in_activity.
Qed.

(** A line that is no section marker leaves [in_activity] as it is. *)
Lemma step_keeps_in_activity tb rate Y M pc w line :
  contains "FOOTNOTES" line = false ->
  contains "Account Activity" line = false ->
  startswith "Closing Balance" line = false ->
  in_activity (step tb rate Y M pc w line) = in_activity w.
Proof.
  intros H1 H2 H3. unfold step. rewrite H1, H2, H3.
  destruct (negb (nonempty line)); [reflexivity|].
  destruct (negb (in_activity w)); [reflexivity|].
  destruct (activity_match line).
  - apply start_activity_in_activity.
  - destruct (is_header_line line); [reflexivity|].
    destruct (current w); reflexivity.
Qed.

(** C9. The alias collector starts every page outside the Asset Review
    section: a page none of whose lines contains "Asset Review" adds no
    entry, whatever the previous pages left open.  The activity walk
    differs: a page without section markers is walked with the
    [in_activity] flag the previous page ended with, and hands it on. *)
Theorem asset_review_flag_resets_per_page (tb : tables) (pages : list text)
  (page : text) :
  (forall line, In line (page_lines page) ->
                contains "Asset Review" line = false) ->
  collect_page tb page = tb
  /\ collect_rbc_asset_aliases (pages ++ [page]) tb
     = collect_rbc_asset_aliases pages tb
  /\ (forall tb' rate Y M w,
        (forall line, In line (page_lines page) -> no_marker line) ->
        in_activity (walk_page tb' rate Y M w page) = in_activity w).
Proof.
  intros H.
  assert (E : forall t, collect_page t page = t).
  { intros t. unfold collect_page. now rewrite collect_lines_outside. }
  split; [apply E|]. split.
  - unfold collect_rbc_asset_aliases. rewrite fold_left_app. simpl. apply E.
  - intros tb' rate Y M w N. unfold walk_page.
    revert w. induction (page_lines page) as [|l ls IH]; intros w;
      cbn [fold_left]; [reflexivity|].
    rewrite IH.
    + destruct (N l (or_introl eq_refl)) as (N1 & N2 & N3).
      now apply step_keeps_in_activity.
    + intros line Hl. apply H. now right.
    + intros line Hl. apply N. now right.
Qed.

(** An Asset Review heading that ends page one does not cover the asset
    row that opens page two. *)
Lemma asset_review_flag_resets_per_page_witness :
  collect_rbc_asset_aliases [("Asset Review" : text); sample_asset_row]
                            empty_tables
  = empty_tables.
Proof.
  pose proof (asset_review_flag_resets_per_page empty_tables
                [("Asset Review" : text)] sample_asset_row) as H.
  destruct H as (_ & H & _).
  - intros line Hl. vm_compute in Hl. destruct Hl as [<-|[]].
    vm_compute. reflexivity.
  - etransitivity; [exact H|]. vm_compute. reflexivity.
Defined.

(** ** Statements whose name carries no date *)

(** C8, as amended. A statement whose file name holds no
    [dddd-dd-dd] fragment yields no trade and prints nothing. *)
Theorem undated_statement_skipped (name : text) (pages : list text)
  (tb : tables) :
  re_search STATEMENT_DATE_RE name = None ->
  extract_statement_year_month name = None
  /\ parse_rbc_statement_trades name pages tb = ([], []).
Proof.
  intros H. unfold parse_rbc_statement_trades, extract_statement_year_month.
  now rewrite H.
Qed.

(** C8, as stated, fails: the statement ["statement.pdf"] is skipped and
    nothing is printed for it; the summary of the run counts it among
    the parsed statements. *)
Lemma undated_statement_not_logged :
  re_search STATEMENT_DATE_RE "statement.pdf" = None
  /\ ~ skip_is_logged "statement.pdf" [sample_asset_row] empty_tables
  /\ parse_rbc (Some [("statement.pdf" : text)])
               (fun _ => Extracted (fun _ => Some [sample_asset_row]))
     = ([], [("Parsed RBC statements: 1 files" : text);
             ("Parsed RBC trades: 0" : text)]).
Proof.
  split; [vm_compute; reflexivity|]. split.
  - intros H. apply H. vm_compute. reflexivity.
  - vm_compute. reflexivity.
Qed.

Lemma undated_statement_skipped_witness :
  parse_rbc_statement_trades "statement.pdf" [sample_asset_row] empty_tables
  = ([], []).
Proof.
  apply (undated_statement_skipped "statement.pdf" [sample_asset_row]
           empty_tables).
  vm_compute. reflexivity.
Defined.

(** ** One alias table for the whole run *)

Lemma first_wins_id : first_wins (fun d => d).
Proof. intros d k. now destruct (dict_get k d). Qed.

Lemma first_wins_compose f g :
  first_wins f -> first_wins g -> first_wins (fun d => g (f d)).
Proof.
  intros Hf Hg d k. rewrite (Hg (f d)), (Hg (f [])), (Hf d).
  destruct (dict_get k d); [reflexivity|].
  now destruct (dict_get k (f [])).
Qed.

Lemma dict_get_app k (d1 d2 : dict) :
  dict_get k (d1 ++ d2) =
  match dict_get k d1 with Some v => Some v | None => dict_get k d2 end.
Proof.
  induction d1 as [|[k' v'] d1 IH]; simpl; [reflexivity|].
  now destruct (text_eqb k k').
Qed.

Lemma first_wins_setdefault key v : first_wins (setdefault key v).
Proof.
  intros d k. unfold setdefault, dict_mem. simpl.
  destruct (dict_get key d) eqn:E.
  - destruct (dict_get k d) eqn:E'; [reflexivity|].
    destruct (text_eqb k key) eqn:Ek; [|reflexivity].
    apply text_eqb_eq in Ek as ->. congruence.
  - rewrite dict_get_app. now destruct (dict_get k d).
Qed.

Lemma first_wins_if (b : bool) f : first_wins f ->
  first_wins (fun d => if b then f d else d).
Proof. destruct b; [easy|]. intros _. apply first_wins_id. Qed.

Lemma tables_first_wins_id : tables_first_wins (fun tb => tb).
Proof.
  exists (fun d => d), (fun d => d).
  repeat split; try apply first_wins_id. now intros [].
Qed.

Lemma tables_first_wins_compose F G :
  tables_first_wins F -> tables_first_wins G ->
  tables_first_wins (fun tb => G (F tb)).
Proof.
  intros (f1 & f2 & H1 & H2 & HF) (g1 & g2 & K1 & K2 & HG).
  exists (fun d => g1 (f1 d)), (fun d => g2 (f2 d)).
  repeat split; try now apply first_wins_compose.
  intros tb. now rewrite HG, HF.
Qed.

Lemma collect_asset_line_first_wins line :
  tables_first_wins (collect_asset_line line).
Proof.
  unfold collect_asset_line.
  destruct (re_match RBC_ASSET_LINE_RE line) as [m|];
    [|apply tables_first_wins_id].
  set (symbol := normalize_ticker_symbol (upper (group 2 m))).
  set (desc := normalize_space (group 1 m)).
  exists (fun d => if nonempty (compact_key desc)
                   then setdefault (compact_key desc) symbol d else d).
  exists (fun d =>
    let d1 := match re_search PAREN_CODE_RE desc with
              | Some cm => setdefault (group 1 cm) symbol d
              | None => d
              end in
    let d2 := if startswith "RBF" symbol && isdigit (skipn 3 symbol)
              then setdefault (skipn 3 symbol) symbol d1 else d1 in
    if startswith "FID" symbol && isdigit (skipn 3 symbol)
    then setdefault (skipn 3 symbol) symbol d2 else d2).
  split; [apply first_wins_if, first_wins_setdefault|]. split; [|reflexivity].
  apply (first_wins_compose
           (fun d => let d1 := match re_search PAREN_CODE_RE desc with
                               | Some cm => setdefault (group 1 cm) symbol d
                               | None => d
                               end in
                     if startswith "RBF" symbol && isdigit (skipn 3 symbol)
                     then setdefault (skipn 3 symbol) symbol d1 else d1)
           (fun d2 => if startswith "FID" symbol && isdigit (skipn 3 symbol)
                      then setdefault (skipn 3 symbol) symbol d2 else d2)).
  - apply (first_wins_compose
             (fun d => match re_search PAREN_CODE_RE desc with
                       | Some cm => setdefault (group 1 cm) symbol d
                       | None => d
                       end)
             (fun d1 => if startswith "RBF" symbol && isdigit (skipn 3 symbol)
                        then setdefault (skipn 3 symbol) symbol d1 else d1)).
    + destruct (re_search PAREN_CODE_RE desc);
        [apply first_wins_setdefault | apply first_wins_id].
    + apply first_wins_if, first_wins_setdefault.
  - apply first_wins_if, first_wins_setdefault.
Qed.

(** The flag after a line does not depend on the tables, and the tables
    after it are a [first_wins] image of the tables before. *)
Lemma collect_line_first_wins line b :
  exists b' F, tables_first_wins F /\
    forall tb, collect_line (b, tb) line = (b', F tb).
Proof.
  unfold collect_line.
  destruct (negb (nonempty line));
    [exists b, (fun tb => tb); split; [apply tables_first_wins_id|easy]|].
  destruct (contains "Asset Review" line);
    [exists true, (fun tb => tb); split; [apply tables_first_wins_id|easy]|].
  destruct (b && contains "Account Activity" line);
    [exists false, (fun tb => tb); split; [apply tables_first_wins_id|easy]|].
  destruct (negb b);
    [exists b, (fun tb => tb); split; [apply tables_first_wins_id|easy]|].
  exists b, (collect_asset_line line).
  split; [apply collect_asset_line_first_wins|easy].
Qed.

Lemma collect_lines_first_wins lines : forall b,
  exists b' F, tables_first_wins F /\
    forall tb, fold_left collect_line lines (b, tb) = (b', F tb).
Proof.
  induction lines as [|l lines IH]; intros b.
  - exists b, (fun tb => tb). split; [apply tables_first_wins_id|easy].
  - destruct (collect_line_first_wins l b) as (b1 & F & HF & E1).
    destruct (IH b1) as (b2 & G & HG & E2).
    exists b2, (fun tb => G (F tb)).
    split; [now apply tables_first_wins_compose|].
    intros tb. cbn [fold_left]. now rewrite E1, E2.
Qed.

Lemma collect_page_first_wins page :
  tables_first_wins (fun tb => collect_page tb page).
Proof.
  destruct (collect_lines_first_wins (page_lines page) false)
    as (b & F & HF & E).
  destruct HF as (f1 & f2 & H1 & H2 & HF).
  exists f1, f2. repeat split; auto.
  intros tb. unfold collect_page. now rewrite E, HF.
Qed.

Lemma collect_pages_first_wins pages :
  tables_first_wins (collect_rbc_asset_aliases pages).
Proof.
  unfold collect_rbc_asset_aliases.
  induction pages as [|p pages IH]; [apply tables_first_wins_id|].
  cbn [fold_left].
  apply (tables_first_wins_compose (fun tb => collect_page tb p)
           (fun tb => fold_left collect_page pages tb)).
  - apply collect_page_first_wins.
  - exact IH.
Qed.

Lemma collect_all_from_first_wins pages_by_file paths :
  tables_first_wins
    (fun tb0 =>
       fold_left
         (fun tb path =>
            match pages_of pages_by_file path with
            | Some pages => collect_rbc_asset_aliases pages tb
            | None => tb
            end) paths tb0).
Proof.
  induction paths as [|p paths IH]; [apply tables_first_wins_id|].
  cbn [fold_left].
  apply (tables_first_wins_compose
           (fun tb => match pages_of pages_by_file p with
                      | Some pages => collect_rbc_asset_aliases pages tb
                      | None => tb
                      end)
           (fun tb => fold_left _ paths tb)); [|exact IH].
  destruct (pages_of pages_by_file p);
    [apply collect_pages_first_wins | apply tables_first_wins_id].
Qed.

Lemma collect_step_lookup pages_by_file p tb k :
  let tb' := match pages_of pages_by_file p with
             | Some pages => collect_rbc_asset_aliases pages tb
             | None => tb
             end in
  dict_get k (compact_to_symbol tb') =
    match dict_get k (compact_to_symbol tb) with
    | Some v => Some v
    | None => dict_get k (compact_to_symbol (own_tables pages_by_file p))
    end
  /\ dict_get k (code_to_symbol tb') =
    match dict_get k (code_to_symbol tb) with
    | Some v => Some v
    | None => dict_get k (code_to_symbol (own_tables pages_by_file p))
    end.
Proof.
  unfold own_tables. simpl.
  destruct (pages_of pages_by_file p) as [pages|].
  - destruct (collect_pages_first_wins pages) as (f1 & f2 & H1 & H2 & E).
    rewrite (E tb), (E empty_tables). simpl. split; [apply H1 | apply H2].
  - simpl. split.
    + now destruct (dict_get k (compact_to_symbol tb)).
    + now destruct (dict_get k (code_to_symbol tb)).
Qed.

Lemma collect_fold_lookup pages_by_file paths : forall tb k,
  let tb' := fold_left
               (fun tb path =>
                  match pages_of pages_by_file path with
                  | Some pages => collect_rbc_asset_aliases pages tb
                  | None => tb
                  end) paths tb in
  dict_get k (compact_to_symbol tb') =
    match dict_get k (compact_to_symbol tb) with
    | Some v => Some v
    | None =>
        first_some
          (map (fun p => dict_get k (compact_to_symbol (own_tables pages_by_file p)))
               paths)
    end
  /\ dict_get k (code_to_symbol tb') =
    match dict_get k (code_to_symbol tb) with
    | Some v => Some v
    | None =>
        first_some
          (map (fun p => dict_get k (code_to_symbol (own_tables pages_by_file p)))
               paths)
    end.
Proof.
  induction paths as [|p paths IH]; intros tb k; cbn [fold_left map first_some].
  - split.
    + now destruct (dict_get k (compact_to_symbol tb)).
    + now destruct (dict_get k (code_to_symbol tb)).
  - destruct (IH (match pages_of pages_by_file p with
                  | Some pages => collect_rbc_asset_aliases pages tb
                  | None => tb
                  end) k) as [I1 I2].
    destruct (collect_step_lookup pages_by_file p tb k) as [S1 S2].
    cbv zeta in *. rewrite I1, I2, S1, S2. split.
    + destruct (dict_get k (compact_to_symbol tb)); [reflexivity|].
      now destruct (dict_get k (compact_to_symbol (own_tables pages_by_file p))).
    + destruct (dict_get k (code_to_symbol tb)); [reflexivity|].
      now destruct (dict_get k (code_to_symbol (own_tables pages_by_file p))).
Qed.

Lemma parse_fold_trades pages_by_file tb paths : forall acc,
  fst (fold_left
         (fun acc path =>
            match pages_of pages_by_file path with
            | Some pages =>
                let (ts, out) := parse_rbc_statement_trades path pages tb in
                (fst acc ++ ts, snd acc ++ out)
            | None => acc
            end) paths acc)
  = fst acc ++ flat_map (file_trades pages_by_file tb) paths.
Proof.
  induction paths as [|p paths IH]; intros acc; cbn [fold_left flat_map].
  - now rewrite app_nil_r.
  - rewrite IH. unfold file_trades at 2.
    destruct (pages_of pages_by_file p) as [pages|]; [|reflexivity].
    destruct (parse_rbc_statement_trades p pages tb) as [ts out]. simpl.
    now rewrite app_assoc.
Qed.

(** C1, as amended. A run builds one pair of alias dicts from the pages
    of all selected files, in sorted file order and before any activity
    pass; every file's activity pass is given that same pair; and the
    entry of a key is that of the first file whose own pages define the
    key. *)
Theorem alias_tables_shared_by_run (directory : option (list text))
  (extract_pdf_pages : list text -> extraction)
  (pages_by_file : text -> option (list text)) :
  extract_pdf_pages (list_rbc_statement_pdfs directory)
    = Extracted pages_by_file ->
  let paths := list_rbc_statement_pdfs directory in
  let tb := collect_all pages_by_file paths in
  fst (parse_rbc directory extract_pdf_pages)
    = flat_map (file_trades pages_by_file tb) paths
  /\ (forall k,
        dict_get k (compact_to_symbol tb) =
        first_some
          (map (fun p => dict_get k (compact_to_symbol (own_tables pages_by_file p)))
               paths))
  /\ (forall k,
        dict_get k (code_to_symbol tb) =
        first_some
          (map (fun p => dict_get k (code_to_symbol (own_tables pages_by_file p)))
               paths)).
Proof.
  intros E paths tb. split; [|split].
  - subst paths tb. unfold parse_rbc.
    destruct (list_rbc_statement_pdfs directory) as [|p ps]; [reflexivity|].
    rewrite E.
    pose proof (parse_fold_trades pages_by_file
                  (collect_all pages_by_file (p :: ps)) (p :: ps) ([], []))
      as H.
    unfold parse_all.
    destruct (fold_left _ (p :: ps) ([], [])) as [ts out]. exact H.
  - intros k.
    exact (proj1 (collect_fold_lookup pages_by_file paths empty_tables k)).
  - intros k.
    exact (proj2 (collect_fold_lookup pages_by_file paths empty_tables k)).
Qed.

(** C1, as stated, fails: the February statement lists no asset of its
    own, so its own pages build empty tables, with which its sale
    resolves to nothing; in the run the sale is resolved through the
    entry that the January statement contributed. *)
Lemma alias_entry_from_other_statement :
  own_tables two_statements "2023-02-10.pdf" = empty_tables
  /\ fst (parse_rbc_statement_trades "2023-02-10.pdf" [february_page]
            (own_tables two_statements "2023-02-10.pdf")) = []
  /\ dict_get "APPLEINC"
       (compact_to_symbol (own_tables two_statements "2023-01-10.pdf"))
     = Some ("AAPL" : text)
  /\ fst two_statement_run
     = [Trade "2023-01-15" SELL "AAPL" (double 1700.00)].
Proof. vm_compute. repeat split. Qed.

Lemma alias_tables_shared_by_run_witness :
  fst two_statement_run
  = flat_map
      (file_trades two_statements
         (collect_all two_statements
            [("2023-01-10.pdf" : text); ("2023-02-10.pdf" : text)]))
      [("2023-01-10.pdf" : text); ("2023-02-10.pdf" : text)].
Proof.
  exact (proj1 (alias_tables_shared_by_run
                  (Some [("2023-01-10.pdf" : text); ("2023-02-10.pdf" : text)])
                  (fun _ => Extracted two_statements) two_statements
                  eq_refl)).
Defined.

(** ** Numbers *)

Lemma Forall_lstrip (P : ascii -> Prop) s : Forall P s -> Forall P (lstrip s).
Proof.
  induction 1 as [|c s Hc Hs IH]; simpl; [constructor|].
  destruct (is_space c); [exact IH | now constructor].
Qed.

Lemma Forall_strip (P : ascii -> Prop) s : Forall P s -> Forall P (strip s).
Proof.
  intros H. unfold strip, rstrip.
  apply Forall_rev, Forall_lstrip, Forall_rev, Forall_lstrip, H.
Qed.

Lemma Forall_removelast {A} (P : A -> Prop) l :
  Forall P l -> Forall P (removelast l).
Proof.
  induction 1 as [|x l Hx Hl IH]; simpl; [constructor|].
  destruct l; [constructor|]. now constructor.
Qed.

Lemma Forall_filter {A} (P : A -> Prop) f l :
  Forall P l -> Forall P (filter f l).
Proof.
  induction 1 as [|x l Hx Hl IH]; simpl; [constructor|].
  destruct (f x); [now constructor | exact IH].
Qed.

Lemma word_needs_letter (body : text) (word : String.string) c :
  text_eqb (lower body) (c :: String.list_ascii_of_string word) = true ->
  is_lower c = true ->
  Forall (fun c => no_letter c = true) body -> False.
Proof.
  intros E L F. apply text_eqb_eq in E.
  destruct body as [|b body]; [discriminate|].
  injection E as E _. inversion F as [|? ? Hb _]; subst.
  unfold no_letter in Hb. rewrite L in Hb. discriminate.
Qed.

Lemma numeric_no_letter c : numeric_char c = true -> no_letter c = true.
Proof. revert c. apply class_incl. vm_compute. reflexivity. Qed.

(** The whitespace that [float] skips is whitespace of [str.strip]. *)
Lemma float_space_is_space c : is_float_space c = true -> is_space c = true.
Proof. revert c. apply class_incl. vm_compute. reflexivity. Qed.




Lemma float_strip_no_space s :
  Forall (fun c => is_space c = false) s -> float_strip s = s.
Proof.
  intros F.
  assert (L : forall t, Forall (fun c => is_space c = false) t ->
                        float_lstrip t = t).
  { intros t Ft. destruct Ft as [|c t Hc _]; simpl; [reflexivity|].
    destruct (is_float_space c) eqn:E; [|reflexivity].
    apply float_space_is_space in E. congruence. }
  unfold float_strip. rewrite (L s F), L by now apply Forall_rev.
  apply rev_involutive.
Qed.

Lemma strip_no_space s :
  Forall (fun c => is_space c = false) s -> strip s = s.
Proof.
  intros F.
  assert (L : forall t, Forall (fun c => is_space c = false) t -> lstrip t = t).
  { intros t Ft. destruct Ft as [|c t Hc _]; simpl; [reflexivity|].
    now rewrite Hc. }
  unfold strip, rstrip. rewrite (L s F), L by now apply Forall_rev.
  apply rev_involutive.
Qed.

Lemma digitpart_tail_digits ds rest :
  Forall (fun c => is_digit c = true) ds -> stops rest ->
  digitpart_tail (ds ++ rest) = (ds, rest).
Proof.
  intros F S. induction F as [|d ds Hd _ IH]; cbn [app digitpart_tail].
  - destruct rest as [|c rest]; [reflexivity|]. destruct S as [S1 S2].
    cbn [digitpart_tail]. now rewrite S1, S2.
  - now rewrite Hd, IH.
Qed.

Lemma digitpart_digits d ds rest :
  Forall (fun c => is_digit c = true) (d :: ds) -> stops rest ->
  digitpart ((d :: ds) ++ rest) = Some (d :: ds, rest).
Proof.
  intros F S. inversion F as [|? ? Hd Hds]; subst.
  cbn [app digitpart]. now rewrite Hd, digitpart_tail_digits.
Qed.

Lemma number_numeral ip fp :
  ip <> [] ->
  Forall (fun c => is_digit c = true) ip ->
  Forall (fun c => is_digit c = true) fp ->
  number (numeral ip fp) = Some (ip, fp, []).
Proof.
  intros N Fi Ff. destruct ip as [|d ip]; [easy|]. unfold numeral, number.
  destruct fp as [|f fp].
  - rewrite digitpart_digits by easy. reflexivity.
  - rewrite digitpart_digits by (easy || (split; reflexivity)).
    change (is_char "." ".") with true. cbv iota.
    rewrite <- (app_nil_r (f :: fp)).
    rewrite digitpart_digits by easy. now rewrite app_nil_r.
Qed.

Lemma digit_facts c :
  is_digit c = true ->
  is_space c = false /\ is_char "-" c = false /\ is_char "+" c = false
  /\ no_letter c = true.
Proof.
  revert c.
  assert (H : forall c, implb (is_digit c)
            (negb (is_space c) && negb (is_char "-" c) && negb (is_char "+" c)
             && no_letter c) = true)
    by (apply class_forall; vm_compute; reflexivity).
  intros c Hc. specialize (H c). rewrite Hc in H. simpl in H.
  repeat (apply andb_true_iff in H as [H ?]).
  repeat split; try now apply negb_true_iff. assumption.
Qed.

Lemma numeral_chars (P : ascii -> Prop) ip fp :
  (forall c, is_digit c = true -> P c) -> P "."%char ->
  Forall (fun c => is_digit c = true) ip ->
  Forall (fun c => is_digit c = true) fp ->
  Forall P (numeral ip fp).
Proof.
  intros Hd Hp Fi Ff. unfold numeral. apply Forall_app. split.
  - eapply Forall_impl; [|exact Fi]. exact Hd.
  - destruct fp; [constructor|]. constructor; [exact Hp|].
    eapply Forall_impl; [|exact Ff]. exact Hd.
Qed.

Lemma float_of_text_signed (neg : bool) ip fp :
  ip <> [] ->
  Forall (fun c => is_digit c = true) ip ->
  Forall (fun c => is_digit c = true) fp ->
  float_of_text ((if neg then ["-"%char] else []) ++ numeral ip fp)
  = Some (let v := decimal (int_of_digits (ip ++ fp)) (length fp) in
          if neg then fneg v else v).
Proof.
  intros N Fi Ff. unfold float_of_text.
  assert (Fs : Forall (fun c => is_space c = false) (numeral ip fp)).
  { apply numeral_chars; auto. intros c Hc. now apply digit_facts. }
  assert (Fl : Forall (fun c => no_letter c = true) (numeral ip fp)).
  { apply numeral_chars; auto. intros c Hc. now apply digit_facts. }
  assert (Es : split_sign (float_strip ((if neg then ["-"%char] else [])
                                          ++ numeral ip fp))
               = (neg, numeral ip fp)).
  { rewrite float_strip_no_space.
    - destruct neg; [reflexivity|]. simpl.
      destruct ip as [|d ip]; [easy|]. simpl.
      inversion Fi as [|? ? Hd _]; subst.
      destruct (digit_facts d Hd) as (_ & H1 & H2 & _). now rewrite H1, H2.
    - apply Forall_app. split; [|exact Fs].
      destruct neg; repeat constructor. }
  rewrite Es.
  destruct (text_eqb (lower (numeral ip fp)) "inf") eqn:E1.
  { exfalso. eapply (word_needs_letter _ "nf" "i"); eauto. }
  destruct (text_eqb (lower (numeral ip fp)) "infinity") eqn:E2.
  { exfalso. eapply (word_needs_letter _ "nfinity" "i"); eauto. }
  destruct (text_eqb (lower (numeral ip fp)) "nan") eqn:E3.
  { exfalso. eapply (word_needs_letter _ "an" "n"); eauto. }
  simpl. rewrite number_numeral by assumption. reflexivity.
Qed.

Lemma scale10_decimal mant n :
  (scale10 mant (0 - Z.of_nat n)
   == inject_Z mant / inject_Z (10 ^ Z.of_nat n))%Q.
Proof.
  unfold scale10.
  assert (P : (0 < 10 ^ Z.of_nat n)%Z) by (apply Z.pow_pos_nonneg; lia).
  destruct n as [|n].
  - simpl. unfold Qeq, Qdiv, Qmult, Qinv, inject_Z. simpl. lia.
  - replace (0 <=? 0 - Z.of_nat (S n))%Z with false
      by (symmetry; apply Z.leb_gt; lia).
    replace (- (0 - Z.of_nat (S n)))%Z with (Z.of_nat (S n)) by lia.
    destruct (10 ^ Z.of_nat (S n))%Z as [|p|p] eqn:E; try lia.
    unfold Qeq, Qdiv, Qmult, Qinv, inject_Z. simpl. lia.
Qed.

Lemma rev_head {A} (P : A -> Prop) (l : list A) :
  l <> [] -> Forall P l -> exists d t, rev l = d :: t /\ P d.
Proof.
  intros N F. destruct (rev l) as [|d t] eqn:E.
  - apply (f_equal (@rev A)) in E. rewrite rev_involutive in E. now subst.
  - exists d, t. split; [reflexivity|].
    rewrite Forall_forall in F. apply F, in_rev. rewrite E. now left.
Qed.

Lemma numeral_no_trailing_minus ip fp :
  ip <> [] ->
  Forall (fun c => is_digit c = true) ip ->
  Forall (fun c => is_digit c = true) fp ->
  endswith "-" (numeral ip fp) = false.
Proof.
  intros N Fi Ff. unfold endswith, numeral.
  assert (H : exists d t, rev (ip ++ match fp with
                                     | [] => []
                                     | _ :: _ => "."%char :: fp
                                     end) = d :: t /\ is_digit d = true).
  { destruct fp as [|f fp].
    - rewrite app_nil_r. now apply rev_head.
    - rewrite rev_app_distr. change ("."%char :: f :: fp) with (["."%char] ++ f :: fp).
      rewrite rev_app_distr.
      destruct (rev_head _ (f :: fp) ltac:(easy) Ff) as (d & t & E & Hd).
      rewrite E. simpl. eauto. }
  destruct H as (d & t & -> & Hd).
  destruct (digit_facts d Hd) as (_ & H1 & _). simpl.
  change (ascii_eqb "-" d) with (is_char "-" d). now rewrite H1.
Qed.

(** A numeral written with dollar signs and thousands separators, and
    the same with a trailing minus sign. *)
Lemma parse_number_numeral s ip fp :
  ip <> [] ->
  Forall (fun c => is_digit c = true) ip ->
  Forall (fun c => is_digit c = true) fp ->
  remove_char "," (remove_char "$" s) = numeral ip fp ->
  parse_number s = Some (decimal (int_of_digits (ip ++ fp)) (length fp))
  /\ parse_number (s ++ ["-"%char])
     = Some (fneg (decimal (int_of_digits (ip ++ fp)) (length fp))).
Proof.
  intros N Fi Ff E.
  assert (Fs : Forall (fun c => is_space c = false) (numeral ip fp)).
  { apply numeral_chars; auto. intros c Hc. now apply digit_facts. }
  split.
  - unfold parse_number. rewrite E, strip_no_space by exact Fs.
    rewrite numeral_no_trailing_minus by assumption.
    apply (float_of_text_signed false); assumption.
  - unfold parse_number, remove_char in *. rewrite !filter_app, E.
    change (filter _ (filter _ ["-"%char])) with ["-"%char].
    rewrite strip_no_space
      by (apply Forall_app; split; [exact Fs | repeat constructor]).
    unfold endswith. rewrite rev_app_distr.
    change (startswith (rev "-") (rev ["-"%char] ++ rev (numeral ip fp)))
      with true.
    cbv iota. rewrite removelast_last.
    apply (float_of_text_signed true); assumption.
Qed.

(** *** Texts that [float] rejects *)

Lemma lstrip_decomp s :
  exists ws, s = ws ++ lstrip s /\ Forall (fun c => is_space c = true) ws.
Proof.
  induction s as [|c s (ws & E & F)]; [now exists []|].
  cbn [lstrip]. destruct (is_space c) eqn:Ec.
  - exists (c :: ws). split; [simpl; now rewrite <- E | now constructor].
  - now exists [].
Qed.

Lemma strip_decomp s :
  exists ws ws', s = ws ++ strip s ++ ws'
    /\ Forall (fun c => is_space c = true) ws
    /\ Forall (fun c => is_space c = true) ws'.
Proof.
  destruct (lstrip_decomp s) as (ws & E & F).
  destruct (lstrip_decomp (rev (lstrip s))) as (ws' & E' & F').
  exists ws, (rev ws'). unfold strip, rstrip. split; [|split].
  - rewrite <- rev_app_distr, <- E', rev_involutive. exact E.
  - exact F.
  - now apply Forall_rev.
Qed.

















(** ** Symbol resolution *)

Lemma hd_insert_desc c l :
  hd_error (insert_desc c l) =
  match hd_error l with
  | None => Some c
  | Some b => if fst b <=? fst c then Some c else Some b
  end.
Proof. destruct l as [|b l]; simpl; [reflexivity|]. now destruct (fst b <=? fst c). Qed.

Lemma hd_sort_desc l : hd_error (sort_desc l) = first_max l.
Proof.
  induction l as [|c l IH]; [reflexivity|].
  unfold sort_desc in *. cbn [fold_right first_max].
  now rewrite hd_insert_desc, IH.
Qed.

Lemma first_max_spec l b :
  first_max l = Some b ->
  exists l1 l2, l = l1 ++ b :: l2
    /\ (forall x, In x l1 -> fst x < fst b)
    /\ (forall x, In x l2 -> fst x <= fst b).
Proof.
  revert b. induction l as [|c l IH]; intros b H; [discriminate|].
  cbn [first_max] in H. destruct (first_max l) as [b'|] eqn:E.
  - destruct (IH b' eq_refl) as (l1 & l2 & -> & H1 & H2).
    destruct (fst b' <=? fst c) eqn:L; injection H as <-.
    + apply Nat.leb_le in L. exists [], (l1 ++ b' :: l2).
      split; [reflexivity|]. split; [easy|].
      intros x Hx. apply in_app_or in Hx as [Hx|[<-|Hx]].
      * specialize (H1 x Hx). lia.
      * exact L.
      * specialize (H2 x Hx). lia.
    + apply Nat.leb_gt in L. exists (c :: l1), l2.
      split; [reflexivity|]. split; [|exact H2].
      intros x [<-|Hx]; [exact L | now apply H1].
  - injection H as <-. destruct l as [|c' l].
    + exists [], []. now repeat split.
    + cbn [first_max] in E. destruct (first_max l) as [b''|]; [|discriminate].
      destruct (fst b'' <=? fst c'); discriminate.
Qed.


Lemma in_score_entries q toks d score sym :
  In (score, sym) (score_entries q toks d) <->
  exists key, In (key, sym) d /\ entry_score q toks key = Some score.
Proof.
  induction d as [|[k v] d IH]; cbn [score_entries].
  - split; [easy | now intros (key & [] & _)].
  - destruct (entry_score q toks k) as [s|] eqn:E.
    + cbn [In]. rewrite IH. split.
      * intros [[= <- <-]|(key & H1 & H2)]; [exists k | exists key]; auto.
      * intros (key & [[= <- <-]|H1] & H2).
        -- left. congruence.
        -- right. eauto.
    + rewrite IH. split.
      * intros (key & H1 & H2). exists key. split; [now right | easy].
      * intros (key & [[= <- <-]|H1] & H2); [congruence | eauto].
Qed.

(** The first code of the list that is a key of the dict. *)
Lemma first_known_spec codes d sym :
  first_known codes d = Some sym <->
  exists l1 c l2, codes = l1 ++ c :: l2
    /\ (forall x, In x l1 -> dict_get x d = None)
    /\ dict_get c d = Some sym.
Proof.
  induction codes as [|c codes IH]; cbn [first_known].
  - split; [easy|]. intros (l1 & c & l2 & E & _). now destruct l1.
  - destruct (dict_get c d) as [s|] eqn:E.
    + split.
      * intros [= <-]. exists [], c, codes. now repeat split.
      * intros (l1 & c' & l2 & Ec & H1 & H2). destruct l1 as [|x l1].
        -- injection Ec as <- _. congruence.
        -- injection Ec as <- _. specialize (H1 c (or_introl eq_refl)).
           congruence.
    + rewrite IH. split.
      * intros (l1 & c' & l2 & -> & H1 & H2). exists (c :: l1), c', l2.
        split; [reflexivity|]. split; [|exact H2].
        intros x [<-|Hx]; auto.
      * intros (l1 & c' & l2 & Ec & H1 & H2). destruct l1 as [|x l1].
        -- injection Ec as <- _. congruence.
        -- injection Ec as <- ->. exists l1, c', l2.
           split; [reflexivity|]. split; [|exact H2].
           intros y Hy. apply H1. now right.
Qed.




(** ** The matcher: lengths, captures of a sequence *)

Lemma run_extends_consumed r st st' :
  In st' (run r st) -> extends st st' (consumed st st').
Proof.
  intros H. destruct (run_extends _ _ _ H) as [w E].
  now rewrite (extends_consumed _ _ _ E).
Qed.

Lemma run_min_len r : forall st st',
  In st' (run r st) -> min_len r <= length (consumed st st').
Proof.
  induction r; cbn [min_len]; intros st st' H; try lia.
  - simpl in H. destruct (rest st) as [|c t] eqn:E; simpl in H; [easy|].
    destruct (p c); [|easy]. destruct H as [<-|[]].
    rewrite consumed_advance, E. simpl. lia.
  - apply in_run_lit in H as [S ->]. apply startswith_split in S as [t E].
    rewrite consumed_advance, E, firstn_length_app. lia.
  - apply in_run_seq in H as (mid & H1 & H2).
    rewrite (consumed_seq _ _ _ _ _ H1 H2), length_app.
    specialize (IHr1 _ _ H1). specialize (IHr2 _ _ H2). lia.
  - simpl in H. apply in_app_or in H as [H|H];
      [specialize (IHr1 _ _ H) | specialize (IHr2 _ _ H)]; lia.
  - apply in_run_rep in H as (k & H1 & H2 & _ & ->).
    rewrite consumed_advance, length_firstn.
    pose proof (span_le p (rest st)). lia.
  - apply in_run_grp in H as (e & H & ->). rewrite consumed_set_cap. auto.
Qed.

Lemma run_no_group r :
  no_group r = true -> forall st st', In st' (run r st) -> caps st' = caps st.
Proof.
  induction r; cbn [no_group]; intros G st st' H; try discriminate;
    simpl in H;
    try (destruct H as [<-|[]]; reflexivity).
  - destruct (head_is p (rest st)); [|easy]. now destruct H as [<-|[]].
  - destruct (startswith w (rest st)); [|easy]. now destruct H as [<-|[]].
  - apply andb_true_iff in G as [G1 G2].
    apply in_flat_map in H as (mid & H1 & H2).
    now rewrite (IHr2 G2 _ _ H2), (IHr1 G1 _ _ H1).
  - apply andb_true_iff in G as [G1 G2]. apply in_app_or in H as [H|H]; eauto.
  - apply in_app_or in H as [H|[<-|[]]]; eauto.
  - apply in_map_iff in H as (k & <- & _). reflexivity.
  - destruct (seen st); [|easy]. now destruct H as [<-|[]].
  - destruct (rest st) as [|c [|d t]]; try easy.
    + now destruct H as [<-|[]].
    + destruct (ascii_eqb c "010"); [|easy]. now destruct H as [<-|[]].
  - destruct (xorb _ _); [|easy]. now destruct H as [<-|[]].
  - destruct (head_is p (seen st)); [easy|]. now destruct H as [<-|[]].
  - destruct (head_is p (rest st)); [easy|]. now destruct H as [<-|[]].
Qed.

(** A success of a group without inner groups: where it stands and what
    it has captured. *)
Lemma in_run_plain_grp n r st st' :
  no_group r = true -> In st' (run (Grp n r) st) ->
  exists w, rest st = w ++ rest st'
            /\ caps st' = (n, w) :: caps st
            /\ seen st' = rev w ++ seen st
            /\ exists e, In e (run r st) /\ consumed st e = w.
Proof.
  intros G H. apply in_run_grp in H as (e & H & ->).
  destruct (run_extends_consumed _ _ _ H) as [R S].
  exists (consumed st e). simpl.
  rewrite (run_no_group _ G _ _ H). repeat split; auto. now exists e.
Qed.

(** A success of a repeated class: the run of characters passed over. *)
Lemma in_run_rep_word g p lo hi st st' :
  In st' (run (Rep g p lo hi) st) ->
  exists w, rest st = w ++ rest st'
            /\ caps st' = caps st
            /\ seen st' = rev w ++ seen st
            /\ Forall (fun c => p c = true) w
            /\ lo <= length w.
Proof.
  intros H. apply in_run_rep in H as (k & H1 & H2 & _ & ->).
  exists (firstn k (rest st)). simpl.
  split; [now rewrite firstn_skipn|]. split; [reflexivity|].
  split; [reflexivity|]. split; [now apply span_firstn|].
  rewrite length_firstn. pose proof (span_le p (rest st)). lia.
Qed.

Lemma in_run_eol st st' :
  In st' (run Eol st) ->
  st' = st /\ (rest st = [] \/ rest st = ["010"%char]).
Proof.
  simpl. destruct (rest st) as [|c [|d t]]; try easy.
  - intros [<-|[]]. auto.
  - destruct (ascii_eqb c "010") eqn:E; [|easy]. intros [<-|[]].
    apply ascii_eqb_eq in E as ->. auto.
Qed.

Lemma in_run_bol st st' :
  In st' (run Bol st) -> st' = st /\ seen st = [].
Proof. simpl. destruct (seen st); [|easy]. intros [<-|[]]. auto. Qed.

(** ** Whitespace-separated fields *)

Lemma split_ws_from_space a : forall cur c b,
  is_space c = true ->
  split_ws_from cur (a ++ c :: b)
  = split_ws_from cur a ++ split_ws_from [] b.
Proof.
  induction a as [|x a IH]; intros cur c b Hc; cbn [app split_ws_from].
  - rewrite Hc. now destruct cur.
  - destruct (is_space x).
    + destruct cur; rewrite IH by assumption; reflexivity.
    + now apply IH.
Qed.

Lemma split_ws_from_spaces ws b :
  Forall (fun c => is_space c = true) ws ->
  split_ws_from [] (ws ++ b) = split_ws_from [] b.
Proof.
  induction 1 as [|c ws Hc _ IH]; cbn [app split_ws_from]; [reflexivity|].
  now rewrite Hc.
Qed.

Lemma split_ws_gap a ws b :
  ws <> [] -> Forall (fun c => is_space c = true) ws ->
  split_ws (a ++ ws ++ b) = split_ws a ++ split_ws b.
Proof.
  intros N F. destruct ws as [|c ws]; [easy|]. inversion F; subst.
  unfold split_ws. cbn [app].
  now rewrite split_ws_from_space, split_ws_from_spaces.
Qed.

Lemma split_ws_from_token tok : forall cur,
  Forall (fun c => is_space c = false) tok ->
  split_ws_from cur tok =
  match rev cur ++ tok with [] => [] | t => [t] end.
Proof.
  induction tok as [|x tok IH]; intros cur F; cbn [split_ws_from].
  - rewrite app_nil_r. destruct cur as [|c cur]; [reflexivity|].
    simpl. now destruct (rev cur ++ [c]) eqn:E;
      [apply app_eq_nil in E as [_ E]|].
  - inversion F as [|? ? Hx Ft]; subst. rewrite Hx, IH by assumption.
    simpl. now rewrite <- app_assoc.
Qed.

Lemma split_ws_token tok :
  tok <> [] -> Forall (fun c => is_space c = false) tok ->
  split_ws tok = [tok].
Proof.
  intros N F. unfold split_ws. rewrite split_ws_from_token by assumption.
  simpl. now destruct tok.
Qed.

Lemma split_ws_token_eol tok tail :
  tok <> [] -> Forall (fun c => is_space c = false) tok ->
  tail = [] \/ tail = ["010"%char] ->
  split_ws (tok ++ tail) = [tok].
Proof.
  intros N F [-> | ->].
  - rewrite app_nil_r. now apply split_ws_token.
  - unfold split_ws. rewrite split_ws_from_space by reflexivity.
    fold (split_ws tok). now rewrite split_ws_token.
Qed.

(** ** Amount lines *)

Lemma num_minus_alphabet : alphabet numeric_char NUM_MINUS.
Proof.
  unfold NUM_MINUS, NUM. cbn [seqs alphabet star plus].
  repeat split; try (apply class_incl; vm_compute; reflexivity);
    repeat constructor.
Qed.

Lemma numeric_not_space c : numeric_char c = true -> is_space c = false.
Proof.
  intros H. apply negb_true_iff. revert c H. apply class_incl.
  vm_compute. reflexivity.
Qed.

(** What [NUM_MINUS] consumes: a non-empty text of digits, commas,
    points and minus signs, hence one without whitespace. *)
Lemma in_run_cls p st st' :
  In st' (run (Cls p) st) ->
  exists c, rest st = c :: rest st' /\ p c = true.
Proof.
  simpl. destruct (rest st) as [|c t] eqn:E; simpl; [easy|].
  destruct (p c) eqn:Ec; [|easy]. intros [<-|[]]. exists c.
  simpl. now rewrite E.
Qed.

Lemma consumed_of_rest st st' w :
  rest st = w ++ rest st' -> consumed st st' = w.
Proof.
  intros R. unfold consumed. rewrite R, length_app.
  replace (length w + length (rest st') - length (rest st')) with (length w)
    by lia.
  apply firstn_length_app.
Qed.

Lemma remove_commas_digits cs :
  Forall (fun c => digit_or_comma c = true) cs ->
  Forall (fun c => is_digit c = true) (remove_char "," (remove_char "$" cs)).
Proof.
  induction 1 as [|c cs Hc _ IH]; [constructor|].
  unfold remove_char in *. cbn [filter].
  destruct (negb (ascii_eqb "$" c)) eqn:E1; [|exact IH]. cbn [filter].
  destruct (negb (ascii_eqb "," c)) eqn:E2; [|exact IH].
  constructor; [|exact IH].
  unfold digit_or_comma, is_char in Hc. apply negb_true_iff in E2.
  rewrite E2, orb_false_r in Hc. exact Hc.
Qed.

Lemma remove_digits ds :
  Forall (fun c => is_digit c = true) ds ->
  remove_char "," (remove_char "$" ds) = ds.
Proof.
  induction 1 as [|c cs Hc _ IH]; [reflexivity|].
  unfold remove_char in *. cbn [filter].
  assert (E : negb (ascii_eqb "$" c) = true /\ negb (ascii_eqb "," c) = true).
  { assert (H : forall c, implb (is_digit c)
                (negb (ascii_eqb "$" c) && negb (ascii_eqb "," c)) = true)
      by (apply class_forall; vm_compute; reflexivity).
    specialize (H c). rewrite Hc in H. now apply andb_true_iff in H. }
  destruct E as [-> E2]. cbn [filter]. rewrite E2. now rewrite IH.
Qed.

(** Every text that [NUM_MINUS] consumes has a value. *)
Lemma num_minus_parses st e :
  In e (run NUM_MINUS st) ->
  exists v, parse_number (consumed st e) = Some v.
Proof.
  intros H. unfold NUM_MINUS, NUM in H. cbn [seqs] in H.
  apply in_run_seq in H as (mid & H & Hm).
  apply in_run_seq in H as (s1 & H1 & H).
  apply in_run_cls in H1 as (d & R1 & Hd).
  apply in_run_seq in H as (s2 & H2 & H).
  apply in_run_rep_word in H2 as (cs & R2 & _ & _ & Fc & _).
  assert (P : exists ip fp,
             ip <> [] /\ Forall (fun c => is_digit c = true) ip
             /\ Forall (fun c => is_digit c = true) fp
             /\ exists body, rest st = body ++ rest mid
                  /\ remove_char "," (remove_char "$" body) = numeral ip fp).
  { apply in_run_opt in H as [H| ->].
    - apply in_run_seq in H as (s3 & H3 & H4).
      apply in_run_lit_word in H3 as [R3 _].
      apply in_run_rep_word in H4 as (fs & R4 & _ & _ & Ff & Lf).
      exists (d :: remove_char "," (remove_char "$" cs)), fs.
      split; [easy|]. split; [constructor; [exact Hd|]; now apply remove_commas_digits|].
      split; [exact Ff|].
      exists ((d :: cs) ++ ("." : text) ++ fs). split.
      + rewrite R1, R2, R3, R4. now rewrite <- !app_assoc.
      + unfold remove_char. rewrite !filter_app.
        fold (remove_char "$" (d :: cs)) (remove_char "$" fs).
        fold (remove_char "," (remove_char "$" (d :: cs)))
             (remove_char "," (remove_char "$" fs)).
        rewrite (remove_digits fs Ff).
        change (d :: cs) with ([d] ++ cs).
        unfold remove_char at 1 2. rewrite !filter_app.
        fold (remove_char "$" [d]) (remove_char "$" cs).
        fold (remove_char "," (remove_char "$" [d]))
             (remove_char "," (remove_char "$" cs)).
        rewrite (remove_digits [d]) by (constructor; [exact Hd|constructor]).
        unfold numeral. destruct fs as [|f fs]; [simpl in Lf; lia|].
        reflexivity.
    - exists (d :: remove_char "," (remove_char "$" cs)), [].
      split; [easy|]. split; [constructor; [exact Hd|]; now apply remove_commas_digits|].
      split; [constructor|].
      exists (d :: cs). split; [now rewrite R1, R2|].
      change (d :: cs) with ([d] ++ cs).
      unfold remove_char at 1 2. rewrite !filter_app.
      fold (remove_char "$" [d]) (remove_char "$" cs).
      fold (remove_char "," (remove_char "$" [d]))
           (remove_char "," (remove_char "$" cs)).
      rewrite (remove_digits [d]) by (constructor; [exact Hd|constructor]).
      unfold numeral. now rewrite app_nil_r. }
  destruct P as (ip & fp & N & Fi & Ff & body & Rb & Eb).
  destruct (parse_number_numeral body ip fp N Fi Ff Eb) as (P1 & P2).
  apply in_run_opt in Hm as [Hm| ->].
  - apply in_run_lit_word in Hm as [Rm _].
    eexists. rewrite (consumed_of_rest st e (body ++ ["-"%char]));
      [exact P2|].
    rewrite Rb, Rm. now rewrite <- app_assoc.
  - eexists. rewrite (consumed_of_rest st mid body); [exact P1 | exact Rb].
Qed.

Lemma num_minus_word st e :
  In e (run NUM_MINUS st) ->
  consumed st e <> []
  /\ Forall (fun c => numeric_char c = true) (consumed st e)
  /\ Forall (fun c => is_space c = false) (consumed st e)
  /\ exists v, parse_number (consumed st e) = Some v.
Proof.
  intros H.
  pose proof (run_min_len _ _ _ H) as L. change (min_len NUM_MINUS) with 1 in L.
  pose proof (run_alphabet _ _ num_minus_alphabet _ _ H) as A.
  split; [intros E; rewrite E in L; simpl in L; lia|]. split; [exact A|].
  split; [|now apply num_minus_parses].
  eapply Forall_impl; [|exact A]. apply numeric_not_space.
Qed.

Lemma plus_space_word st st' :
  In st' (run (plus is_space) st) ->
  exists ws, rest st = ws ++ rest st' /\ caps st' = caps st
             /\ ws <> [] /\ Forall (fun c => is_space c = true) ws.
Proof.
  intros H. apply in_run_rep_word in H as (ws & R & C & _ & F & L).
  exists ws. repeat split; auto. intros ->. simpl in L. lia.
Qed.

(** An amount-triplet line has exactly three whitespace-separated
    fields, and they are the three groups of the pattern. *)
Lemma amount_line_fields line m :
  re_match RBC_AMOUNT_LINE_RE line = Some m ->
  split_ws line = [group 1 m; group 2 m; group 3 m]
  /\ Forall (fun c => numeric_char c = true) (group 3 m)
  /\ exists v, parse_number (group 3 m) = Some v.
Proof.
  intros H. unfold re_match, match_at in H. apply hd_error_in in H.
  apply in_run_grp in H as (e & H & ->).
  unfold RBC_AMOUNT_LINE_RE in H. cbn [seqs] in H.
  apply in_run_seq in H as (s1 & H1 & H). apply in_run_bol in H1 as [-> _].
  apply in_run_seq in H as (s2 & H2 & H).
  apply in_run_plain_grp in H2 as (c1 & R2 & C2 & _ & e2 & He2 & E2);
    [|reflexivity].
  apply in_run_seq in H as (s3 & H3 & H).
  apply plus_space_word in H3 as (ws1 & R3 & C3 & N3 & F3).
  apply in_run_seq in H as (s4 & H4 & H).
  apply in_run_plain_grp in H4 as (c2 & R4 & C4 & _ & e4 & He4 & E4);
    [|reflexivity].
  apply in_run_seq in H as (s5 & H5 & H).
  apply plus_space_word in H5 as (ws2 & R5 & C5 & N5 & F5).
  apply in_run_seq in H as (s6 & H6 & H).
  apply in_run_plain_grp in H6 as (c3 & R6 & C6 & _ & e6 & He6 & E6);
    [|reflexivity].
  apply in_run_eol in H as [-> T].
  destruct (num_minus_word _ _ He2) as (N1 & _ & S1 & _). rewrite E2 in N1, S1.
  destruct (num_minus_word _ _ He4) as (N2 & _ & S2 & _). rewrite E4 in N2, S2.
  destruct (num_minus_word _ _ He6) as (N6 & A6 & S6 & P6).
  rewrite E6 in N6, A6, S6, P6.
  unfold group. cbn [caps set_cap]. rewrite C6, C5, C4, C3, C2.
  cbn [lookup_cap Nat.eqb]. split; [|split; [exact A6 | exact P6]].
  cbn [rest] in R2. rewrite R2, R3, R4, R5, R6.
  rewrite split_ws_gap, split_ws_gap by assumption.
  rewrite split_ws_token_eol by assumption.
  now rewrite !split_ws_token.
Qed.

(** An inline-amount line ends with three whitespace-separated fields,
    the groups 2 to 4 of the pattern, after the fields of group 1. *)
Lemma inline_line_fields line m :
  re_match RBC_INLINE_AMOUNT_RE line = Some m ->
  split_ws line = split_ws (group 1 m) ++ [group 2 m; group 3 m; group 4 m]
  /\ Forall (fun c => numeric_char c = true) (group 4 m)
  /\ exists v, parse_number (group 4 m) = Some v.
Proof.
  intros H. unfold re_match, match_at in H. apply hd_error_in in H.
  apply in_run_grp in H as (e & H & ->).
  unfold RBC_INLINE_AMOUNT_RE in H. cbn [seqs] in H.
  apply in_run_seq in H as (s1 & H1 & H). apply in_run_bol in H1 as [-> _].
  apply in_run_seq in H as (s2 & H2 & H).
  apply in_run_plain_grp in H2 as (c1 & R2 & C2 & _ & _);
    [|reflexivity].
  apply in_run_seq in H as (s3 & H3 & H).
  apply plus_space_word in H3 as (ws1 & R3 & C3 & N3 & F3).
  apply in_run_seq in H as (s4 & H4 & H).
  apply in_run_plain_grp in H4 as (c2 & R4 & C4 & _ & e4 & He4 & E4);
    [|reflexivity].
  apply in_run_seq in H as (s5 & H5 & H).
  apply plus_space_word in H5 as (ws2 & R5 & C5 & N5 & F5).
  apply in_run_seq in H as (s6 & H6 & H).
  apply in_run_plain_grp in H6 as (c3 & R6 & C6 & _ & e6 & He6 & E6);
    [|reflexivity].
  apply in_run_seq in H as (s7 & H7 & H).
  apply plus_space_word in H7 as (ws3 & R7 & C7 & N7 & F7).
  apply in_run_seq in H as (s8 & H8 & H).
  apply in_run_plain_grp in H8 as (c4 & R8 & C8 & _ & e8 & He8 & E8);
    [|reflexivity].
  apply in_run_eol in H as [-> T].
  destruct (num_minus_word _ _ He4) as (N2 & _ & S2 & _). rewrite E4 in N2, S2.
  destruct (num_minus_word _ _ He6) as (N6 & _ & S6 & _). rewrite E6 in N6, S6.
  destruct (num_minus_word _ _ He8) as (N8 & A8 & S8 & P8).
  rewrite E8 in N8, A8, S8, P8.
  unfold group. cbn [caps set_cap]. rewrite C8, C7, C6, C5, C4, C3, C2.
  cbn [lookup_cap Nat.eqb]. split; [|split; [exact A8 | exact P8]].
  cbn [rest] in R2. rewrite R2, R3, R4, R5, R6, R7, R8.
  rewrite !split_ws_gap by assumption.
  rewrite split_ws_token_eol by assumption.
  rewrite (split_ws_token c2), (split_ws_token c3) by assumption.
  reflexivity.
Qed.

Lemma continue_candidate_keeps_amount line cur a :
  p_amount cur = Some a -> p_amount (continue_candidate line cur) = Some a.
Proof.
  intros E. unfold continue_candidate. rewrite E.
  destruct (re_match RBC_AMOUNT_LINE_RE line);
    destruct (re_match RBC_INLINE_AMOUNT_RE line);
    destruct (re_match RBC_IGNORE_DESCRIPTION_LINE_RE (upper line));
    exact E.
Qed.

(** C4. An amount-triplet or inline-amount line read while a candidate
    is live: when the candidate has no amount, its amount becomes the
    parsed third field of the triplet (the last of the line's three
    last whitespace-separated fields), which always has a value; when
    it has one, the amount is left as it is. *)
Theorem amount_is_third_field (tb : tables) (usd_to_cad : pyfloat) (Y M : Z)
  (pc : currency) (w : walk) (line : text) (cur : pending) :
  in_section w line = true ->
  activity_match line = None ->
  is_header_line line = false ->
  current w = Some cur ->
  exists cur',
    current (step tb usd_to_cad Y M pc w line) = Some cur'
    /\ (forall a, p_amount cur = Some a -> p_amount cur' = Some a)
    /\ (p_amount cur = None ->
        (forall m, re_match RBC_AMOUNT_LINE_RE line = Some m ->
           split_ws line = [group 1 m; group 2 m; group 3 m]
           /\ p_amount cur' = parse_number (group 3 m)
           /\ exists v, p_amount cur' = Some v)
        /\ (re_match RBC_AMOUNT_LINE_RE line = None ->
            forall m, re_match RBC_INLINE_AMOUNT_RE line = Some m ->
              split_ws line
              = split_ws (group 1 m) ++ [group 2 m; group 3 m; group 4 m]
              /\ p_amount cur' = parse_number (group 4 m)
              /\ exists v, p_amount cur' = Some v)).
Proof.
  intros S A Hh C.
  rewrite (step_in_section _ _ _ _ _ _ _ S), A, Hh, C.
  exists (continue_candidate line cur). split; [reflexivity|].
  split; [intros a; apply continue_candidate_keeps_amount|].
  intros N. split.
  - intros m Hm. destruct (amount_line_fields _ _ Hm) as (F & _ & q & P).
    assert (E : p_amount (continue_candidate line cur)
                = parse_number (group 3 m)).
    { unfold continue_candidate. now rewrite Hm, N. }
    split; [exact F|]. split; [exact E|]. exists q. now rewrite E.
  - intros Hn m Hm. destruct (inline_line_fields _ _ Hm) as (F & _ & q & P).
    assert (E : p_amount (continue_candidate line cur)
                = parse_number (group 4 m)).
    { unfold continue_candidate. rewrite Hn, Hm, N.
      now destruct (nonempty (normalize_space (group 1 m))). }
    split; [exact F|]. split; [exact E|]. exists q. now rewrite E.
Qed.

Lemma amount_is_third_field_witness :
  exists cur',
    current (step empty_tables DEFAULT_USD_TO_CAD 2023 1 CAD
                  (Walk [] [] (Some sample_candidate) true)
                  "10 150.00 1,500.00-") = Some cur'
    /\ p_amount cur' = Some (double (- 1500.00)).
Proof.
  destruct (amount_is_third_field empty_tables DEFAULT_USD_TO_CAD 2023 1 CAD
              (Walk [] [] (Some sample_candidate) true)
              "10 150.00 1,500.00-" sample_candidate)
    as (cur' & Hc & _ & Ha).
  - vm_compute. reflexivity.
  - vm_compute. reflexivity.
  - vm_compute. reflexivity.
  - reflexivity.
  - exists cur'. split; [exact Hc|].
    destruct (Ha eq_refl) as [H3 _].
    destruct (re_match RBC_AMOUNT_LINE_RE "10 150.00 1,500.00-") as [m|] eqn:E;
      [|vm_compute in E; discriminate].
    destruct (H3 m eq_refl) as (_ & -> & _).
    vm_compute in E. injection E as <-. vm_compute. reflexivity.
Defined.

(** ** The exchange rate and the amounts of the trades *)

Lemma fx_groups_sat : groups_sat fx_group RBC_FX_RE.
Proof.
  unfold RBC_FX_RE. cbn [seqs groups_sat]. repeat split.
  intros st st' H _. apply (run_alphabet digit_or_dot _) in H; [exact H|].
  cbn [plus alphabet]. auto.
Qed.

Lemma digit_or_dot_no_letter c : digit_or_dot c = true -> no_letter c = true.
Proof. revert c. apply class_incl. vm_compute. reflexivity. Qed.

Lemma rate_skips_pages pre pages :
  (forall p, In p pre -> re_search RBC_FX_RE p = None) ->
  statement_usd_to_cad_rate (pre ++ pages) = statement_usd_to_cad_rate pages.
Proof.
  induction pre as [|p pre IH]; intros H; cbn [app statement_usd_to_cad_rate];
    [reflexivity|].
  rewrite (H p (or_introl eq_refl)). apply IH. intros q Hq. apply H. now right.
Qed.

(** A page whose match carries a text that [float] rejects is passed
    over, as a page without a match is. *)
Lemma rate_skips_unreadable page pages m :
  re_search RBC_FX_RE page = Some m ->
  float_of_text (group 1 m) = None ->
  statement_usd_to_cad_rate (page :: pages) = statement_usd_to_cad_rate pages.
Proof. intros Hm Hf. cbn [statement_usd_to_cad_rate]. now rewrite Hm, Hf. Qed.

Lemma fabs_not_negative a : not_negative (fabs a).
Proof. now destruct a. Qed.

Lemma flush_ok tb rate w :
  walk_ok w -> walk_ok (flush_current tb rate w).
Proof.
  unfold walk_ok, flush_current. intros T.
  destruct (current w) as [cur|]; [|exact T].
  destruct (p_amount cur) as [a|]; [|exact T].
  destruct (truthy _) as [sym|]; [|exact T].
  cbn [trades]. apply Forall_app. split; [exact T|].
  constructor; [|constructor]. apply fabs_not_negative.
Qed.

Lemma start_activity_ok tb rate Y M pc m w :
  walk_ok w -> walk_ok (start_activity tb rate Y M pc m w).
Proof.
  intros W. pose proof (flush_ok tb rate w W) as F. unfold start_activity.
  destruct (negb _).
  - destruct (has_amount (current w)); [exact F | exact W].
  - destruct (month_token_to_number (group 1 m)) as [mn|]; [|exact F].
    destruct (mn =? 0)%Z; [exact F|].
    destruct (re_match RBC_INLINE_AMOUNT_RE _); exact F.
Qed.

Lemma step_ok tb rate Y M pc w line :
  walk_ok w -> walk_ok (step tb rate Y M pc w line).
Proof.
  intros W. pose proof (flush_ok tb rate w W) as F. unfold step.
  destruct (negb (nonempty line)); [exact W|].
  destruct (contains "FOOTNOTES" line); [exact F|].
  destruct (contains "Account Activity" line); [exact F|].
  destruct (negb (in_activity w)); [exact W|].
  destruct (startswith "Closing Balance" line); [exact F|].
  destruct (activity_match line); [now apply start_activity_ok|].
  destruct (is_header_line line); [exact W|].
  destruct (current w); exact W.
Qed.

Lemma walk_statement_ok tb Y M pages : walk_ok (walk_statement tb Y M pages).
Proof.
  unfold walk_statement.
  set (rate := statement_usd_to_cad_rate pages). clearbody rate.
  apply flush_ok.
  assert (L : forall pc lines w, walk_ok w ->
                walk_ok (fold_left (step tb rate Y M pc) lines w)).
  { intros pc. induction lines as [|l lines IH]; intros w W; cbn [fold_left];
      [exact W|].
    apply IH. now apply step_ok. }
  assert (P : forall ps w, walk_ok w ->
                walk_ok (fold_left (walk_page tb rate Y M) ps w)).
  { induction ps as [|p ps IH]; intros w W; cbn [fold_left]; [exact W|].
    apply IH. unfold walk_page. now apply L. }
  apply P. constructor.
Qed.

Lemma rate_skips pre pages :
  (forall p, In p pre -> page_rate p = None) ->
  statement_usd_to_cad_rate (pre ++ pages) = statement_usd_to_cad_rate pages.
Proof.
  induction pre as [|p pre IH]; intros H; cbn [app statement_usd_to_cad_rate];
    [reflexivity|].
  pose proof (H p (or_introl eq_refl)) as Hp. unfold page_rate in Hp.
  destruct (re_search RBC_FX_RE p) as [m|].
  - rewrite Hp. apply IH. intros q Hq. apply H. now right.
  - apply IH. intros q Hq. apply H. now right.
Qed.

Lemma start_activity_currency tb rate Y M pc m w cand :
  current (start_activity tb rate Y M pc m w) = Some cand ->
  p_currency cand = pc.
Proof.
  unfold start_activity. destruct (negb _); [discriminate|].
  destruct (month_token_to_number (group 1 m)) as [mn|]; [|discriminate].
  destruct (mn =? 0)%Z; [discriminate|].
  destruct (re_match RBC_INLINE_AMOUNT_RE _); intros [= <-]; reflexivity.
Qed.

Lemma continue_candidate_currency line cur :
  p_currency (continue_candidate line cur) = p_currency cur.
Proof.
  unfold continue_candidate.
  destruct (re_match RBC_AMOUNT_LINE_RE line);
    destruct (p_amount cur);
    destruct (re_match RBC_INLINE_AMOUNT_RE line);
    destruct (re_match RBC_IGNORE_DESCRIPTION_LINE_RE (upper line));
    try reflexivity;
    destruct (nonempty _); reflexivity.
Qed.

(** C7. The rate of a statement is the float of the first
    exchange-rate match that [float] reads, the pages being scanned in
    order and at most one match being tried on each page; it is the
    float 1.35 when no page has such a match, a page whose match does
    not read as a number counting for nothing.  A flushed candidate
    marked USD (the marker of the page of its activity line, kept until
    the flush) has its amount multiplied by the rate, one marked CAD
    has not; and the amount of every trade of a statement is an
    absolute value: a zero, a positive number, the positive infinity,
    or NaN. *)
Theorem fx_rate_and_trade_amounts :
  (forall pre page post r,
     (forall p, In p pre -> page_rate p = None) ->
     page_rate page = Some r ->
     statement_usd_to_cad_rate (pre ++ page :: post) = r)
  /\ (forall pages,
        (forall p, In p pages -> page_rate p = None) ->
        statement_usd_to_cad_rate pages = double 1.35)
  /\ (forall tb rate ts us cur act a sym,
        p_amount cur = Some a -> resolved tb cur = Some sym ->
        trades (flush_current tb rate (Walk ts us (Some cur) act))
        = ts ++ [Trade (p_date cur) (p_side cur) sym
                   (match p_currency cur with
                    | USD => fabs (fmul a rate)
                    | CAD => fabs a
                    end)])
  /\ (forall tb rate Y M pc m w cand,
        current (start_activity tb rate Y M pc m w) = Some cand ->
        p_currency cand = pc)
  /\ (forall line cur,
        p_currency (continue_candidate line cur) = p_currency cur)
  /\ (forall name pages tb,
        Forall (fun t => not_negative (t_amount t))
               (fst (parse_rbc_statement_trades name pages tb))).
Proof.
  split; [|split; [|split; [|split; [|split]]]].
  - intros pre page post r Hpre Hr.
    rewrite rate_skips by assumption.
    cbn [statement_usd_to_cad_rate]. unfold page_rate in Hr.
    destruct (re_search RBC_FX_RE page) as [m|]; [|discriminate].
    now rewrite Hr.
  - intros pages H. rewrite <- (app_nil_r pages).
    rewrite rate_skips by assumption. reflexivity.
  - intros tb rate ts us cur act a sym Ha Hs.
    unfold resolved in Hs. unfold flush_current. cbn [current].
    rewrite Ha, Hs. cbn [trades]. now destruct (p_currency cur).
  - apply start_activity_currency.
  - apply continue_candidate_currency.
  - intros name pages tb. unfold parse_rbc_statement_trades.
    destruct (extract_statement_year_month name) as [[[Y M] D]|];
      [|constructor].
    cbn [fst]. apply walk_statement_ok.
Qed.

(** A sale of 1,700.00- on a U.S. dollar page with rate 1.25. *)
Lemma fx_rate_and_trade_amounts_witness :
  statement_usd_to_cad_rate [january_page; usd_page] = double 1.25
  /\ statement_usd_to_cad_rate [january_page] = double 1.35
  /\ fst (parse_rbc_statement_trades "2023-02-10.pdf" [usd_page]
            (collect_rbc_asset_aliases [usd_page] empty_tables))
     = [Trade "2023-01-15" SELL "AAPL" (double 2125)].
Proof.
  destruct fx_rate_and_trade_amounts as (H1 & H2 & _).
  split; [|split].
  - apply (H1 [january_page] usd_page []).
    + intros p [<-|[]]. vm_compute. reflexivity.
    + vm_compute. reflexivity.
  - apply H2. intros p [<-|[]]. vm_compute. reflexivity.
  - vm_compute. reflexivity.
Defined.

(** The first match is not always the rate, and an amount is not always
    a number that is not negative.  A page whose match reads [1.2.3] is
    passed over: the rate comes from the next page, or is the default
    although a page has a match.  With a rate too long for a float the
    rate is the infinity, and a sale whose amount is zero is reported
    with the amount NaN, of which [0 <= x] is false. *)
Lemma rate_and_amount_exceptions :
  re_search RBC_FX_RE unreadable_rate_page <> None
  /\ statement_usd_to_cad_rate [unreadable_rate_page; usd_page] = double 1.25
  /\ statement_usd_to_cad_rate [unreadable_rate_page] = double 1.35
  /\ statement_usd_to_cad_rate [overflow_page] = Infinite false
  /\ fst (parse_rbc_statement_trades "2023-02-10.pdf" [overflow_page]
            (collect_rbc_asset_aliases [overflow_page] empty_tables))
     = [Trade "2023-01-15" SELL "AAPL" NaN]
  /\ ~ nonneg NaN.
Proof.
  split; [vm_compute; discriminate|].
  split; [vm_compute; reflexivity|]. split; [vm_compute; reflexivity|].
  split; [vm_compute; reflexivity|]. split; [vm_compute; reflexivity|].
  intros H. exact H.
Qed.

(** ** The matcher: building a success *)

Lemma run_seq_intro r1 r2 st mid st' :
  In mid (run r1 st) -> In st' (run r2 mid) -> In st' (run (Seq r1 r2) st).
Proof. intros H1 H2. apply in_run_seq. eauto. Qed.

Lemma run_rep_intro g p lo st w t :
  rest st = w ++ t -> Forall (fun c => p c = true) w -> lo <= length w ->
  In (MState (rev w ++ seen st) t (caps st)) (run (Rep g p lo None) st).
Proof.
  intros R F L. apply in_run_rep. exists (length w).
  split; [exact L|]. split; [rewrite R; now apply span_app_all|].
  split; [discriminate|]. unfold advance.
  now rewrite R, firstn_length_app, skipn_length_app.
Qed.

Lemma run_lit_intro w st t :
  rest st = w ++ t ->
  In (MState (rev w ++ seen st) t (caps st)) (run (Lit w) st).
Proof.
  intros R. apply in_run_lit. split; [rewrite R; apply startswith_app|].
  unfold advance. now rewrite R, firstn_length_app, skipn_length_app.
Qed.

Lemma run_grp_intro n r st e :
  In e (run r st) -> In (set_cap n (consumed st e) e) (run (Grp n r) st).
Proof. intros H. apply in_run_grp. eauto. Qed.

Lemma run_bol_intro st : seen st = [] -> In st (run Bol st).
Proof. simpl. intros ->. now left. Qed.

Lemma run_eol_intro st : rest st = [] -> In st (run Eol st).
Proof. simpl. intros ->. now left. Qed.

(** ** Numbered copies of a statement *)

Lemma split_at_first {A} (P : A -> Prop) a a' x x' (b b' : list A) :
  Forall P a -> Forall P a' -> ~ P x -> ~ P x' ->
  a ++ x :: b = a' ++ x' :: b' -> a = a' /\ x = x' /\ b = b'.
Proof.
  intros Fa. revert a'. induction Fa as [|y a Hy Fa IH]; intros a' Fa' Nx Nx' E.
  - destruct a' as [|y' a']; simpl in E.
    + injection E as E1 E2. subst. auto.
    + injection E as E1 E2. subst. now inversion Fa'.
  - destruct a' as [|y' a']; simpl in E.
    + injection E as E1 E2. subst. easy.
    + injection E as E1 E2. subst. inversion Fa'; subst.
      destruct (IH a' ltac:(assumption) Nx Nx' E2) as (-> & -> & ->). auto.
Qed.

(** A name has at most one reading as a numbered copy. *)
Lemma copy_shape_unique name base digits base' digits' :
  copy_shape name base digits -> copy_shape name base' digits' ->
  base = base' /\ digits = digits'.
Proof.
  intros (E & _ & F) (E' & _ & F'). rewrite E in E'.
  apply (f_equal (@rev ascii)) in E'.
  rewrite !rev_app_distr in E'. cbn [rev String.list_ascii_of_string app] in E'.
  rewrite <- !app_assoc in E'. cbn [app] in E'.
  injection E' as E'.
  apply (split_at_first (fun c => is_digit c = true)) in E'
    as (Ed & _ & Eb); try (now apply Forall_rev); try discriminate.
  apply (f_equal (@rev ascii)) in Ed, Eb. rewrite !rev_involutive in Ed, Eb.
  auto.
Qed.

Lemma duplicate_copy_match name m :
  re_match DUPLICATE_COPY_RE name = Some m ->
  exists digits tail,
    name = group 1 m ++ ("-" : text) ++ digits ++ (".pdf" : text) ++ tail
    /\ digits <> []
    /\ Forall (fun c => is_digit c = true) digits
    /\ (tail = [] \/ tail = ["010"%char]).
Proof.
  intros H. unfold re_match, match_at in H. apply hd_error_in in H.
  apply in_run_grp in H as (e & H & ->).
  unfold DUPLICATE_COPY_RE in H. cbn [seqs] in H.
  apply in_run_seq in H as (s1 & H1 & H). apply in_run_bol in H1 as [-> _].
  apply in_run_seq in H as (s2 & H2 & H).
  apply in_run_plain_grp in H2 as (c1 & R2 & C2 & _); [|reflexivity].
  apply in_run_seq in H as (s3 & H3 & H).
  apply in_run_lit_word in H3 as [R3 C3].
  apply in_run_seq in H as (s4 & H4 & H).
  apply in_run_rep_word in H4 as (ds & R4 & C4 & _ & F4 & L4).
  apply in_run_seq in H as (s5 & H5 & H).
  apply in_run_lit_word in H5 as [R5 C5].
  apply in_run_eol in H as [-> T].
  exists ds, (rest s5).
  unfold group. cbn [caps set_cap]. rewrite C5, C4, C3, C2.
  cbn [lookup_cap Nat.eqb]. cbn [rest] in R2.
  split; [now rewrite R2, R3, R4, R5|]. split; [|split; [exact F4|exact T]].
  intros ->. simpl in L4. lia.
Qed.

Lemma hd_error_some {A} (l : list A) x : In x l -> exists y, hd_error l = Some y.
Proof. destruct l; [easy|]. intros _. simpl. eauto. Qed.

Lemma copy_shape_matches name base digits :
  copy_shape name base digits ->
  Forall (fun c => any_char c = true) base ->
  exists m, re_match DUPLICATE_COPY_RE name = Some m.
Proof.
  intros (E & N & F) B. unfold re_match, match_at.
  set (st0 := MState [] name []).
  set (e1 := MState (rev base ++ []) (("-" : text) ++ digits ++ (".pdf" : text)) []).
  set (s1 := set_cap 1 (consumed st0 e1) e1).
  set (s2 := MState (rev ("-" : text) ++ seen s1) (digits ++ (".pdf" : text)) (caps s1)).
  set (s3 := MState (rev digits ++ seen s2) (".pdf" : text) (caps s2)).
  set (s4 := MState (rev (".pdf" : text) ++ seen s3) [] (caps s3)).
  apply (hd_error_some _ (set_cap 0 (consumed st0 s4) s4)).
  apply run_grp_intro. unfold DUPLICATE_COPY_RE. cbn [seqs].
  apply (run_seq_intro _ _ _ st0); [now apply run_bol_intro|].
  apply (run_seq_intro _ _ _ s1).
  { apply run_grp_intro. apply (run_rep_intro true any_char 0 st0 base); auto.
    cbn [length]. lia. }
  apply (run_seq_intro _ _ _ s2); [now apply (run_lit_intro "-" s1)|].
  apply (run_seq_intro _ _ _ s3).
  { apply (run_rep_intro true is_digit 1 s2 digits); auto.
    destruct digits; [easy|]. simpl. lia. }
  apply (run_seq_intro _ _ _ s4).
  { apply (run_lit_intro ".pdf" s3). cbn [rest s3]. now rewrite app_nil_r. }
  now apply run_eol_intro.
Qed.

Lemma ends_pdf_no_eol (g ds tail base digits : text) :
  g ++ ("-" : text) ++ ds ++ (".pdf" : text) ++ tail
  = base ++ ("-" : text) ++ digits ++ (".pdf" : text) ->
  tail = [] \/ tail = ["010"%char] -> tail = [].
Proof.
  intros E [-> | ->]; [reflexivity|]. exfalso.
  apply (f_equal (@rev ascii)) in E.
  rewrite !rev_app_distr in E. cbn [rev String.list_ascii_of_string app] in E.
  discriminate.
Qed.

(** The test of the pattern, in words: the name reads as a numbered
    copy of [base]. *)
Lemma duplicate_copy_group name base digits :
  copy_shape name base digits ->
  Forall (fun c => any_char c = true) base ->
  exists m, re_match DUPLICATE_COPY_RE name = Some m /\ group 1 m = base.
Proof.
  intros S B. destruct (copy_shape_matches _ _ _ S B) as [m Hm].
  exists m. split; [exact Hm|].
  destruct (duplicate_copy_match _ _ Hm) as (ds & tail & E & N & F & T).
  assert (tail = []) as ->.
  { destruct S as (E' & _).
    apply (ends_pdf_no_eol (group 1 m) ds tail base digits); [|exact T].
    now rewrite <- E, <- E'. }
  rewrite app_nil_r in E.
  assert (S' : copy_shape name (group 1 m) ds) by (repeat split; assumption).
  now destruct (copy_shape_unique _ _ _ _ _ S' S).
Qed.

(** ** The statements selected *)

Lemma code_inj a b : code a = code b -> a = b.
Proof. intros H. apply ascii_eqb_eq. unfold ascii_eqb. now apply Nat.eqb_eq. Qed.

Lemma text_leb_total a : forall b, text_leb a b = false -> text_leb b a = true.
Proof.
  induction a as [|x a IH]; intros [|y b]; cbn [text_leb]; try easy.
  destruct (code x <? code y) eqn:E1; [easy|].
  destruct (code y <? code x) eqn:E2; [easy|]. apply IH.
Qed.

Lemma text_leb_trans a : forall b c,
  text_leb a b = true -> text_leb b c = true -> text_leb a c = true.
Proof.
  induction a as [|x a IH]; intros [|y b] [|z c]; cbn [text_leb]; try easy.
  destruct (Nat.ltb_spec (code x) (code y)), (Nat.ltb_spec (code y) (code x)),
           (Nat.ltb_spec (code y) (code z)), (Nat.ltb_spec (code z) (code y)),
           (Nat.ltb_spec (code x) (code z)), (Nat.ltb_spec (code z) (code x));
    intros L1 L2; try reflexivity; try discriminate; try lia.
  eapply IH; eauto.
Qed.

Lemma in_insert_sorted x l y : In y (insert_sorted x l) <-> y = x \/ In y l.
Proof.
  induction l as [|z l IH]; cbn [insert_sorted].
  - simpl. intuition.
  - destruct (text_leb x z); cbn [In]; [intuition|]. rewrite IH. intuition.
Qed.

Lemma in_sorted l y : In y (sorted l) <-> In y l.
Proof.
  induction l as [|x l IH]; [reflexivity|].
  unfold sorted in *. cbn [fold_right]. rewrite in_insert_sorted, IH.
  simpl. intuition.
Qed.

Lemma insert_sorted_sorted x l :
  StronglySorted text_le l -> StronglySorted text_le (insert_sorted x l).
Proof.
  induction 1 as [|z l Hs IH Hz]; cbn [insert_sorted].
  - repeat constructor.
  - destruct (text_leb x z) eqn:E.
    + constructor; [now constructor|]. constructor; [exact E|].
      eapply Forall_impl; [|exact Hz]. intros a Ha.
      unfold text_le in *. eapply text_leb_trans; eauto.
    + constructor; [exact IH|]. apply Forall_forall. intros a Ha.
      apply in_insert_sorted in Ha as [->|Ha].
      * now apply text_leb_total.
      * rewrite Forall_forall in Hz. now apply Hz.
Qed.

Lemma sorted_sorted l : StronglySorted text_le (sorted l).
Proof.
  induction l as [|x l IH]; [constructor|].
  unfold sorted in *. cbn [fold_right]. now apply insert_sorted_sorted.
Qed.

Lemma filter_sorted (f : text -> bool) l :
  StronglySorted text_le l -> StronglySorted text_le (filter f l).
Proof.
  induction 1 as [|z l Hs IH Hz]; cbn [filter]; [constructor|].
  destruct (f z); [|exact IH]. constructor; [exact IH|].
  now apply Forall_filter.
Qed.

Lemma mem_in x l : mem x l = true <-> In x l.
Proof.
  unfold mem. rewrite existsb_exists. split.
  - intros (y & H & E). apply text_eqb_eq in E. now subst.
  - intros H. exists x. split; [exact H | apply text_eqb_refl].
Qed.

Lemma endswith_pdf_eol (pre : text) :
  endswith ".pdf" (pre ++ (".pdf" : text) ++ ["010"%char]) = false.
Proof.
  unfold endswith. rewrite !rev_app_distr.
  cbn [rev String.list_ascii_of_string app]. reflexivity.
Qed.

Lemma is_duplicate_copy_spec entries name :
  endswith ".pdf" name = true ->
  (is_duplicate_copy entries name = true -> copy_of_present entries name)
  /\ (Forall (fun c => any_char c = true) name ->
      copy_of_present entries name -> is_duplicate_copy entries name = true).
Proof.
  intros P. unfold is_duplicate_copy. split.
  - destruct (re_match DUPLICATE_COPY_RE name) as [m|] eqn:E; [|discriminate].
    intros M. apply mem_in in M.
    destruct (duplicate_copy_match _ _ E) as (ds & tail & En & N & F & [-> | ->]).
    + exists (group 1 m), ds. rewrite app_nil_r in En. now repeat split.
    + exfalso. rewrite En in P.
      replace (group 1 m ++ ("-" : text) ++ ds ++ (".pdf" : text) ++ ["010"%char])
        with ((group 1 m ++ ("-" : text) ++ ds) ++ (".pdf" : text) ++ ["010"%char])
        in P by now rewrite <- !app_assoc.
      now rewrite endswith_pdf_eol in P.
  - intros A (base & digits & S & I).
    assert (B : Forall (fun c => any_char c = true) base).
    { destruct S as (E & _). rewrite E in A. now apply Forall_app in A. }
    destruct (duplicate_copy_group _ _ _ S B) as (m & -> & ->).
    now apply mem_in.
Qed.

(** C10. The statements selected from a directory: a [.pdf] entry is
    dropped exactly when it reads [BASE-digits.pdf] and [BASE.pdf] is an
    entry too; every other [.pdf] entry is kept; the selection is in
    sorted order of names.  (Names are single-line texts.) *)
Theorem statement_selection (entries : list text) (name : text) :
  Forall (fun c => any_char c = true) name ->
  (In name (list_rbc_statement_pdfs (Some entries)) <->
   In name entries /\ endswith ".pdf" name = true
   /\ ~ copy_of_present entries name)
  /\ StronglySorted text_le (list_rbc_statement_pdfs (Some entries))
  /\ list_rbc_statement_pdfs None = [].
Proof.
  intros A. cbn [list_rbc_statement_pdfs]. split; [|split; [|reflexivity]].
  - rewrite filter_In, in_sorted, filter_In, negb_true_iff. split.
    + intros [[I P] D]. repeat split; auto. intros C.
      apply (is_duplicate_copy_spec entries name P) in C; [congruence|exact A].
    + intros (I & P & N). repeat split; auto.
      destruct (is_duplicate_copy entries name) eqn:D; [|reflexivity].
      exfalso. apply N. now apply (is_duplicate_copy_spec entries name P).
  - apply filter_sorted, sorted_sorted.
Qed.

Lemma statement_selection_witness :
  (In ("a-2023-01-10-1.pdf" : text)
      (list_rbc_statement_pdfs (Some sample_directory)) <->
   In ("a-2023-01-10-1.pdf" : text) sample_directory
   /\ endswith ".pdf" "a-2023-01-10-1.pdf" = true
   /\ ~ copy_of_present sample_directory "a-2023-01-10-1.pdf")
  /\ list_rbc_statement_pdfs (Some sample_directory)
     = [("a-2023-01-10.pdf" : text); ("b-2023-02-10.pdf" : text);
        ("c-1.pdf" : text)].
Proof.
  split.
  - apply (statement_selection sample_directory "a-2023-01-10-1.pdf").
    apply Forall_forall. intros c Hc. vm_compute in Hc.
    repeat (destruct Hc as [<-|Hc]; [reflexivity|]). destruct Hc.
  - vm_compute. reflexivity.
Defined.

(** ** Resolution on a small table *)


(** ** Compact keys and the token score *)

Lemma match_at_group0 r before after m :
  match_at r before after = Some m ->
  exists e, In e (run r (MState before after []))
            /\ group 0 m = consumed (MState before after []) e.
Proof.
  intros H. apply hd_error_in in H. apply in_run_grp in H as (e & H & ->).
  exists e. split; [exact H | reflexivity].
Qed.

Lemma match_at_plus_none p before c t :
  match_at (plus p) before (c :: t) = None -> p c = false.
Proof.
  intros H. destruct (p c) eqn:E; [|reflexivity]. exfalso.
  set (st := MState before (c :: t) []).
  assert (I : In (set_cap 0 (consumed st (advance 1 st)) (advance 1 st))
                 (run (Grp 0 (plus p)) st)).
  { apply run_grp_intro. apply in_run_rep. exists 1.
    split; [lia|]. split; [simpl; rewrite E; lia|]. split; [discriminate|].
    reflexivity. }
  apply hd_error_some in I as [y Hy]. unfold match_at in H. fold st in H.
  congruence.
Qed.

(** Substituting the empty text for the runs of a class leaves no
    character of the class. *)
Lemma sub_from_plus p : forall after skip before,
  Forall (fun c => p c = false) (sub_from (plus p) [] skip before after).
Proof.
  induction after as [|c after IH]; intros skip before.
  - destruct skip; cbn [sub_from]; [|constructor].
    destruct (match_at (plus p) before []); constructor.
  - destruct skip as [|skip]; cbn [sub_from]; [|apply IH].
    destruct (match_at (plus p) before (c :: after)) as [m|] eqn:E.
    + cbn [app]. destruct (match_at_group0 _ _ _ _ E) as (e & He & G).
      pose proof (run_min_len _ _ _ He) as L. rewrite <- G in L.
      cbn [plus min_len] in L.
      destruct (length (group 0 m)); [lia|]. apply IH.
    + constructor; [now apply (match_at_plus_none p before c after)|].
      apply IH.
Qed.

Lemma compact_key_chars t :
  Forall (fun c => is_upper_or_digit c = true) (compact_key t).
Proof.
  unfold compact_key, re_sub, NON_TOKEN_RE.
  eapply Forall_impl; [|apply (sub_from_plus not_token_char)].
  intros c H. now apply negb_false_iff in H.
Qed.

Lemma upper_token_chars s :
  Forall (fun c => is_upper_or_digit c = true) s -> upper s = s.
Proof.
  induction 1 as [|c s Hc _ IH]; [reflexivity|].
  cbn [upper map]. fold (upper s). rewrite IH. f_equal.
  unfold upper_char.
  assert (L : is_lower c = false).
  { apply negb_true_iff. revert c Hc. apply class_incl. vm_compute. reflexivity. }
  now rewrite L.
Qed.

Lemma span_all p s : Forall (fun c => p c = true) s -> span p s = length s.
Proof. induction 1 as [|c s Hc _ IH]; simpl; [reflexivity|]. now rewrite Hc, IH. Qed.

Lemma match_at_plus_all p before c t :
  Forall (fun x => p x = true) (c :: t) ->
  exists m, match_at (plus p) before (c :: t) = Some m
            /\ group 0 m = c :: t.
Proof.
  intros F. unfold match_at. cbn [plus run]. cbn [rest].
  rewrite (span_all _ _ F). unfold counts.
  cbn [length Nat.ltb Nat.leb].
  replace (S (S (length t)) - 1) with (S (length t)) by lia.
  rewrite seq_S, rev_app_distr. cbn [rev app map hd_error].
  eexists. split; [reflexivity|].
  unfold group. cbn [caps set_cap lookup_cap Nat.eqb].
  rewrite consumed_advance. cbn [rest].
  change (1 + length t) with (length (c :: t)). apply firstn_all.
Qed.

Lemma finditer_skip_rest p : forall t before,
  finditer_from (plus p) (length t) before t = [].
Proof.
  induction t as [|c t IH]; intros before; cbn [length finditer_from].
  - reflexivity.
  - apply IH.
Qed.

(** A non-empty text of token characters is one token. *)
Lemma token_key_set_compact key :
  key <> [] -> Forall (fun c => is_upper_or_digit c = true) key ->
  token_key_set key = [key].
Proof.
  intros N F. unfold token_key_set, findall0, TOKEN_RE.
  rewrite (upper_token_chars _ F). destruct key as [|c t]; [easy|].
  cbn [finditer_from].
  destruct (match_at_plus_all is_upper_or_digit [] c t F) as (m & -> & G).
  rewrite G. cbn [length Nat.sub]. rewrite Nat.sub_0_r, finditer_skip_rest.
  cbn [map]. rewrite G. reflexivity.
Qed.

Lemma inter_size_single toks key :
  NoDup toks -> inter_size toks [key] <= 1.
Proof.
  unfold inter_size. induction 1 as [|x toks Hx Hn IH]; cbn [filter length];
    [lia|].
  destruct (mem x [key]) eqn:E; [|exact IH].
  apply mem_in in E as [<-|[]]. cbn [length].
  assert (Z : filter (fun y => mem y [key]) toks = []).
  { clear IH Hn. induction toks as [|y toks IH]; [reflexivity|].
    cbn [filter]. destruct (mem y [key]) eqn:Ey.
    - apply mem_in in Ey as [<-|[]]. exfalso. apply Hx. now left.
    - apply IH. intros H. apply Hx. now right. }
  rewrite Z. simpl. lia.
Qed.

Lemma token_key_set_nodup t : NoDup (token_key_set t).
Proof. apply NoDup_nodup. Qed.

Lemma collect_asset_line_keys line tb :
  compact_keys tb -> compact_keys (collect_asset_line line tb).
Proof.
  intros K. unfold collect_asset_line.
  destruct (re_match RBC_ASSET_LINE_RE line) as [m|]; [|exact K].
  unfold compact_keys. cbn [compact_to_symbol].
  destruct (nonempty (compact_key (normalize_space (group 1 m)))) eqn:N;
    [|exact K].
  unfold setdefault. destruct (dict_mem _ _); [exact K|].
  apply Forall_app. split; [exact K|]. constructor; [|constructor].
  cbn [fst]. split; [|apply compact_key_chars].
  intros E. now rewrite E in N.
Qed.

Lemma collect_line_keys line b tb :
  compact_keys tb -> compact_keys (snd (collect_line (b, tb) line)).
Proof.
  intros K. unfold collect_line.
  destruct (negb (nonempty line)); [exact K|].
  destruct (contains "Asset Review" line); [exact K|].
  destruct (b && contains "Account Activity" line); [exact K|].
  destruct (negb b); [exact K|].
  now apply collect_asset_line_keys.
Qed.

Lemma collect_lines_keys lines : forall st,
  compact_keys (snd st) -> compact_keys (snd (fold_left collect_line lines st)).
Proof.
  induction lines as [|l lines IH]; intros [b tb] K; cbn [fold_left];
    [exact K|].
  apply IH. now apply collect_line_keys.
Qed.

Lemma collect_pages_keys pages : forall tb,
  compact_keys tb -> compact_keys (collect_rbc_asset_aliases pages tb).
Proof.
  unfold collect_rbc_asset_aliases.
  induction pages as [|p pages IH]; intros tb K; cbn [fold_left]; [exact K|].
  apply IH. unfold collect_page. now apply (collect_lines_keys _ (false, tb)).
Qed.

(** X1. On the tables the collector builds, an entry scores only by
    containment: its key is a single token, so it never shares two
    tokens with a description. *)
Theorem token_overlap_never_scores (pages : list text) (desc key symbol : text) :
  In (key, symbol)
     (compact_to_symbol (collect_rbc_asset_aliases pages empty_tables)) ->
  let compact_desc := compact_key (upper (normalize_space desc)) in
  let tokens := token_key_set (normalize_space desc) in
  token_key_set key = [key]
  /\ inter_size tokens (token_key_set key) <= 1
  /\ (contains compact_desc key = false ->
      contains key compact_desc = false ->
      entry_score compact_desc tokens key = None).
Proof.
  intros I. cbv zeta.
  assert (K : compact_keys (collect_rbc_asset_aliases pages empty_tables))
    by (apply collect_pages_keys; constructor).
  unfold compact_keys in K. rewrite Forall_forall in K.
  destruct (K _ I) as [N F]. cbn [fst] in N, F.
  pose proof (token_key_set_compact key N F) as T.
  pose proof (inter_size_single (token_key_set (normalize_space desc)) key
                (token_key_set_nodup _)) as L.
  split; [exact T|]. split; [now rewrite T|].
  intros C1 C2. unfold entry_score.
  destruct key as [|k0 key']; [easy|]. cbn [nonempty negb].
  rewrite C1, C2, andb_false_r, T.
  destruct (2 <=? _) eqn:E; [|reflexivity].
  apply Nat.leb_le in E. lia.
Qed.

Lemma token_overlap_never_scores_witness :
  entry_score (compact_key (upper (normalize_space "APPLE COMPUTER INC")))
              (token_key_set (normalize_space "APPLE COMPUTER INC"))
              "APPLEINC"
  = None.
Proof.
  destruct (token_overlap_never_scores
              [january_page] "APPLE COMPUTER INC" "APPLEINC" "AAPL")
    as (_ & _ & H).
  - vm_compute. left. reflexivity.
  - apply H; vm_compute; reflexivity.
Defined.

(** ** The worked examples of the specification *)

(** A purchase with an inline amount in a statement dated February
    2023, with no exchange-rate line: resolved through the code table
    when the code is known, counted as unresolved when nothing
    matches. *)
Theorem example_inline_purchase :
  parse_rbc_statement_trades "2023-02-10.pdf" [example_page]
    (Tables [] [("12345" : text, "XYZF" : text)])
  = ([Trade "2023-01-15" BUY "XYZF" (double 1000)], [])
  /\ parse_rbc_statement_trades "2023-02-10.pdf" [example_page] empty_tables
     = ([], [("RBC unresolved symbols in 2023-02-10.pdf: 1" : text)]).
Proof. split; vm_compute; reflexivity. Qed.

(** * Further properties of the helpers, the collector, the resolver
      and the walk *)

(** ** [compact_key] *)

Lemma match_at_plus_span p before c t :
  p c = true ->
  exists m, match_at (plus p) before (c :: t) = Some m
            /\ length (group 0 m) = S (span p t).
Proof.
  intros Hc. unfold match_at. cbn [plus run]. cbn [rest span]. rewrite Hc.
  unfold counts. cbn [Nat.ltb Nat.leb].
  replace (S (S (span p t)) - 1) with (S (span p t)) by lia.
  rewrite seq_S, rev_app_distr. cbn [rev app map hd_error].
  eexists. split; [reflexivity|].
  unfold group. cbn [caps set_cap lookup_cap Nat.eqb].
  rewrite consumed_advance. cbn [rest]. rewrite length_firstn.
  pose proof (span_le p t). simpl. lia.
Qed.

Lemma sub_from_skip p k : forall t before,
  k <= span p t ->
  exists before',
    sub_from (plus p) [] k before t
    = sub_from (plus p) [] 0 before' (skipn k t)
    /\ filter (fun c => negb (p c)) t
       = filter (fun c => negb (p c)) (skipn k t).
Proof.
  induction k as [|k IH]; intros t before L.
  - exists before. now split.
  - destruct t as [|c t]; [simpl in L; lia|]. simpl in L.
    destruct (p c) eqn:Ec; [|lia].
    destruct (IH t (c :: before) ltac:(lia)) as (b' & E1 & E2).
    exists b'. cbn [sub_from skipn filter]. rewrite Ec. cbn [negb].
    now split.
Qed.

Lemma sub_plus_filter p n : forall after before,
  length after <= n ->
  sub_from (plus p) [] 0 before after = filter (fun c => negb (p c)) after.
Proof.
  induction n as [|n IH]; intros after before L.
  - destruct after; [|simpl in L; lia]. cbn [sub_from filter].
    now destruct (match_at (plus p) before []).
  - destruct after as [|c t].
    { cbn [sub_from filter]. now destruct (match_at (plus p) before []). }
    simpl in L. cbn [sub_from filter]. destruct (p c) eqn:Ec.
    + destruct (match_at_plus_span p before c t Ec) as (m & -> & Lm).
      rewrite Lm. cbn [app negb].
      destruct (sub_from_skip p (span p t) t (c :: before) (le_n _))
        as (b' & -> & ->).
      apply IH. rewrite length_skipn. lia.
    + destruct (match_at (plus p) before (c :: t)) as [m|] eqn:E.
      * exfalso. destruct (match_at_group0 _ _ _ _ E) as (e & He & _).
        apply in_run_rep in He as (k & H1 & H2 & _). simpl in H2.
        rewrite Ec in H2. lia.
      * cbn [negb]. f_equal. apply IH. lia.
Qed.

Lemma filter_filter_same {A} (f : A -> bool) l :
  filter f (filter f l) = filter f l.
Proof.
  induction l as [|x l IH]; [reflexivity|]. cbn [filter].
  destruct (f x) eqn:E; [|exact IH]. cbn [filter]. now rewrite E, IH.
Qed.

Lemma upper_char_idem c : upper_char (upper_char c) = upper_char c.
Proof.
  apply ascii_eqb_eq. revert c.
  apply (class_forall (fun c => ascii_eqb (upper_char (upper_char c))
                                          (upper_char c))).
  vm_compute. reflexivity.
Qed.

Lemma upper_idem s : upper (upper s) = upper s.
Proof.
  unfold upper. rewrite map_map. apply map_ext. apply upper_char_idem.
Qed.

Lemma compact_key_filter t :
  compact_key t = filter is_upper_or_digit (upper t).
Proof.
  unfold compact_key, re_sub, NON_TOKEN_RE.
  rewrite (sub_plus_filter _ (length (upper t))) by lia.
  apply filter_ext. intros c. apply negb_involutive.
Qed.

(** X3. [compact_key] keeps, in order, exactly the capital letters and the
    digits of the upper-cased text; so it is idempotent and blind to
    case, whitespace and punctuation. *)
Theorem compact_key_is_filter (t : text) :
  compact_key t = filter is_upper_or_digit (upper t)
  /\ compact_key (compact_key t) = compact_key t
  /\ compact_key (upper t) = compact_key t
  /\ (forall a b c,
        is_upper_or_digit (upper_char c) = false ->
        compact_key (a ++ c :: b) = compact_key (a ++ b)).
Proof.
  split; [apply compact_key_filter|]. split; [|split].
  - rewrite (compact_key_filter (compact_key t)), upper_token_chars
      by apply compact_key_chars.
    rewrite (compact_key_filter t). apply filter_filter_same.
  - now rewrite !compact_key_filter, upper_idem.
  - intros a b c Hc. rewrite !compact_key_filter. unfold upper.
    rewrite !map_app. cbn [map]. rewrite !filter_app. cbn [filter].
    now rewrite Hc.
Qed.

(** ** [normalize_space] *)

Lemma split_ws_from_tokens s : forall cur,
  Forall (fun c => is_space c = false) cur ->
  Forall (fun tok => tok <> [] /\ Forall (fun c => is_space c = false) tok)
         (split_ws_from cur s).
Proof.
  induction s as [|c s IH]; intros cur F; cbn [split_ws_from].
  - destruct cur as [|x cur]; constructor; [|constructor]. split.
    + intros E. apply (f_equal (@length ascii)) in E.
      rewrite length_rev in E. discriminate.
    + now apply Forall_rev.
  - destruct (is_space c) eqn:Ec.
    + destruct cur as [|x cur]; [now apply IH|]. constructor; [|now apply IH].
      split; [|now apply Forall_rev].
      intros E. apply (f_equal (@length ascii)) in E.
      rewrite length_rev in E. discriminate.
    + apply IH. now constructor.
Qed.

Lemma split_ws_tokens s :
  Forall (fun tok => tok <> [] /\ Forall (fun c => is_space c = false) tok)
         (split_ws s).
Proof. apply split_ws_from_tokens. constructor. Qed.

Lemma split_ws_trailing a ws :
  Forall (fun c => is_space c = true) ws -> split_ws (a ++ ws) = split_ws a.
Proof.
  intros F. destruct ws as [|c ws]; [now rewrite app_nil_r|].
  rewrite <- (app_nil_r (c :: ws)), split_ws_gap by easy.
  apply app_nil_r.
Qed.

Lemma split_ws_strip s : split_ws (strip s) = split_ws s.
Proof.
  destruct (strip_decomp s) as (ws & ws' & E & F & F').
  rewrite E at 2. unfold split_ws at 2. rewrite split_ws_from_spaces by exact F.
  fold (split_ws (strip s ++ ws')). now rewrite split_ws_trailing.
Qed.

Lemma split_ws_join toks :
  Forall (fun tok => tok <> [] /\ Forall (fun c => is_space c = false) tok)
         toks ->
  split_ws (join " " toks) = toks.
Proof.
  induction 1 as [|p ps [N Fp] Fs IH]; [reflexivity|].
  destruct ps as [|q ps].
  - cbn [join]. now apply split_ws_token.
  - change (join " " (p :: q :: ps))
      with (p ++ (" " : text) ++ join " " (q :: ps)).
    rewrite split_ws_gap; [|easy|now repeat constructor].
    now rewrite split_ws_token, IH.
Qed.

Lemma join_chars (P : ascii -> Prop) sep toks :
  Forall P sep -> Forall (Forall P) toks -> Forall P (join sep toks).
Proof.
  intros Hs. induction 1 as [|p ps Hp Hps IH]; [constructor|].
  destruct ps as [|q ps]; [exact Hp|].
  change (join sep (p :: q :: ps)) with (p ++ sep ++ join sep (q :: ps)).
  apply Forall_app. split; [exact Hp|]. apply Forall_app. now split.
Qed.

Lemma split_ws_nil s :
  split_ws s = [] <-> Forall (fun c => is_space c = true) s.
Proof.
  split.
  - unfold split_ws. induction s as [|c s IH]; [constructor|].
    cbn [split_ws_from]. destruct (is_space c) eqn:Ec.
    + intros H. constructor; [exact Ec | now apply IH].
    + intros H. exfalso.
      assert (G : forall t cur, cur <> [] -> split_ws_from cur t <> []).
      { clear. induction t as [|x t IH]; intros cur N; cbn [split_ws_from].
        - now destruct cur.
        - destruct (is_space x); [now destruct cur | now apply IH]. }
      now apply (G s [c]).
  - intros F. rewrite <- (app_nil_r s). unfold split_ws.
    now rewrite split_ws_from_spaces.
Qed.

Lemma normalize_space_join t : normalize_space t = join " " (split_ws t).
Proof. unfold normalize_space. now rewrite split_ws_strip. Qed.

Lemma split_ws_normalize_space t : split_ws (normalize_space t) = split_ws t.
Proof. rewrite normalize_space_join. apply split_ws_join, split_ws_tokens. Qed.

Lemma normalize_space_idem t :
  normalize_space (normalize_space t) = normalize_space t.
Proof.
  now rewrite (normalize_space_join (normalize_space t)),
    split_ws_normalize_space, normalize_space_join.
Qed.

(** X4. [normalize_space] joins the whitespace-separated words of the text
    with single spaces: the words are kept, in order; the only
    whitespace left is the space; normalising twice changes nothing;
    and the result is empty exactly for a blank text. *)
Theorem normalize_space_words (t : text) :
  normalize_space t = join " " (split_ws t)
  /\ split_ws (normalize_space t) = split_ws t
  /\ normalize_space (normalize_space t) = normalize_space t
  /\ Forall (fun c => is_space c = true -> c = " "%char) (normalize_space t)
  /\ (normalize_space t = [] <-> Forall (fun c => is_space c = true) t).
Proof.
  split; [apply normalize_space_join|].
  split; [apply split_ws_normalize_space|].
  split; [apply normalize_space_idem|]. split.
  - rewrite normalize_space_join. apply join_chars; [now repeat constructor|].
    eapply Forall_impl; [|apply split_ws_tokens]. intros tok [_ F].
    eapply Forall_impl; [|exact F]. intros c H1 H2. congruence.
  - rewrite <- split_ws_nil, <- split_ws_normalize_space.
    split; [now intros ->|].
    intros H. now rewrite normalize_space_join, <- split_ws_normalize_space, H.
Qed.

(** ** [normalize_ticker_symbol] *)

Lemma lstrip_idem s : lstrip (lstrip s) = lstrip s.
Proof.
  induction s as [|c s IH]; [reflexivity|]. cbn [lstrip].
  destruct (is_space c) eqn:E; [exact IH|]. cbn [lstrip]. now rewrite E.
Qed.

Lemma lstrip_keeps_last a c :
  is_space c = false -> exists x, lstrip (a ++ [c]) = x ++ [c].
Proof.
  intros Hc. induction a as [|y a (x & IH)]; cbn [app lstrip].
  - rewrite Hc. now exists [].
  - destruct (is_space y); [now exists x|]. now exists (y :: a).
Qed.

Lemma lstrip_rstrip_lstrip s : lstrip (rstrip (lstrip s)) = rstrip (lstrip s).
Proof.
  destruct (lstrip s) as [|c u] eqn:E; [reflexivity|].
  assert (Hc : is_space c = false).
  { clear -E. induction s as [|x s IH]; [discriminate|]. cbn [lstrip] in E.
    destruct (is_space x) eqn:Ex; [now apply IH|]. congruence. }
  unfold rstrip. cbn [rev].
  destruct (lstrip_keeps_last (rev u) c Hc) as (x & ->).
  rewrite rev_app_distr. cbn [rev app lstrip]. now rewrite Hc.
Qed.

Lemma strip_idem s : strip (strip s) = strip s.
Proof.
  unfold strip at 1. unfold strip at 1. rewrite lstrip_rstrip_lstrip.
  unfold strip, rstrip. now rewrite rev_involutive, lstrip_idem.
Qed.

Lemma is_space_upper_char c : is_space (upper_char c) = is_space c.
Proof.
  apply eqb_prop. revert c.
  apply (class_forall (fun c => Bool.eqb (is_space (upper_char c))
                                         (is_space c))).
  vm_compute. reflexivity.
Qed.

Lemma lstrip_map f s :
  (forall c, is_space (f c) = is_space c) ->
  lstrip (map f s) = map f (lstrip s).
Proof.
  intros H. induction s as [|c s IH]; [reflexivity|]. cbn [map lstrip].
  rewrite H. now destruct (is_space c).
Qed.

Lemma strip_upper s : strip (upper s) = upper (strip s).
Proof.
  unfold strip, rstrip, upper.
  rewrite lstrip_map, <- map_rev, lstrip_map, map_rev
    by apply is_space_upper_char.
  reflexivity.
Qed.

Lemma upper_strip_fix s : upper (strip (upper (strip s))) = upper (strip s).
Proof. now rewrite strip_upper, strip_idem, upper_idem. Qed.

Lemma normalize_ticker_symbol_idem ticker :
  normalize_ticker_symbol (normalize_ticker_symbol ticker)
  = normalize_ticker_symbol ticker.
Proof.
  unfold normalize_ticker_symbol.
  destruct (text_eqb (upper (strip ticker)) "GOOGL") eqn:E1; [reflexivity|].
  destruct (text_eqb (upper (strip ticker)) "BRKB") eqn:E2; [reflexivity|].
  now rewrite upper_strip_fix, E1, E2.
Qed.

(** X5. [normalize_ticker_symbol] is idempotent, so applying it again to
    stored tickers, as the writer of the output does, changes nothing;
    it ignores case and surrounding whitespace, and never returns the
    aliases GOOGL or BRKB. *)
Theorem normalize_ticker_symbol_idempotent (ticker : text) :
  normalize_ticker_symbol (normalize_ticker_symbol ticker)
  = normalize_ticker_symbol ticker
  /\ normalize_ticker_symbol (upper ticker) = normalize_ticker_symbol ticker
  /\ normalize_ticker_symbol (strip ticker) = normalize_ticker_symbol ticker
  /\ normalize_ticker_symbol ticker <> "GOOGL"
  /\ normalize_ticker_symbol ticker <> "BRKB".
Proof.
  split; [apply normalize_ticker_symbol_idem|].
  unfold normalize_ticker_symbol.
  rewrite strip_upper, upper_idem, strip_idem.
  destruct (text_eqb (upper (strip ticker)) "GOOGL") eqn:E1;
    [repeat split; try reflexivity; discriminate|].
  destruct (text_eqb (upper (strip ticker)) "BRKB") eqn:E2;
    [repeat split; try reflexivity; discriminate|].
  repeat split.
  - intros H. rewrite H in E1. discriminate.
  - intros H. rewrite H in E2. discriminate.
Qed.

(** ** [month_token_to_number] *)

Lemma lstrip_char_suffix a s : exists ds, s = ds ++ lstrip_char a s.
Proof.
  induction s as [|c s (ds & E)]; [now exists []|]. cbn [lstrip_char].
  destruct (ascii_eqb a c); [|now exists []].
  exists (c :: ds). simpl. now rewrite <- E.
Qed.

Lemma rstrip_char_prefix a s : exists ds, s = rstrip_char a s ++ ds.
Proof.
  destruct (lstrip_char_suffix a (rev s)) as (ds & E).
  exists (rev ds). unfold rstrip_char.
  now rewrite <- rev_app_distr, <- E, rev_involutive.
Qed.

Lemma lstrip_char_stops a s c t :
  ascii_eqb a c = false ->
  exists x, lstrip_char a (s ++ c :: t) = x ++ c :: t.
Proof.
  intros Hc. induction s as [|y s (x & IH)]; cbn [app lstrip_char].
  - rewrite Hc. now exists [].
  - destruct (ascii_eqb a y); [now exists x|]. now exists (y :: s).
Qed.

Lemma rstrip_char_keeps a k c tail :
  ascii_eqb a c = false ->
  exists x, rstrip_char a ((k ++ [c]) ++ tail) = (k ++ [c]) ++ x.
Proof.
  intros Hc. unfold rstrip_char.
  rewrite !rev_app_distr. cbn [rev app].
  destruct (lstrip_char_stops a (rev tail) c (rev k) Hc) as (x & ->).
  exists (rev x). rewrite rev_app_distr. cbn [rev].
  now rewrite rev_involutive.
Qed.

Lemma dict_get_in {V} k (d : list (text * V)) v :
  dict_get k d = Some v -> In (k, v) d.
Proof.
  induction d as [|[k' v'] d IH]; [discriminate|]. cbn [dict_get].
  destruct (text_eqb k k') eqn:E.
  - apply text_eqb_eq in E as ->. intros [= ->]. now left.
  - intros H. right. now apply IH.
Qed.

Lemma firstn_prefix {A} n (l : list A) : exists t, l = firstn n l ++ t.
Proof. exists (skipn n l). now rewrite firstn_skipn. Qed.

(** X6. A token names a month exactly when, upper-cased, it begins with one
    of the twelve three-letter abbreviations; whatever follows the
    abbreviation is ignored.  The number is between 1 and 12. *)
Theorem month_token_by_prefix (token : text) (n : Z) :
  (month_token_to_number token = Some n <->
   exists k tail, In (k, n) MONTH_TO_NUMBER /\ upper token = k ++ tail)
  /\ (month_token_to_number token = Some n -> (1 <= n <= 12)%Z).
Proof.
  assert (R : forall k, In (k, n) MONTH_TO_NUMBER -> (1 <= n <= 12)%Z).
  { intros k H. simpl in H.
    repeat (destruct H as [H|H]; [injection H as _ <-; lia|]). easy. }
  assert (D : month_token_to_number token = Some n ->
              exists k tail, In (k, n) MONTH_TO_NUMBER
                             /\ upper token = k ++ tail).
  { unfold month_token_to_number.
    destruct (rstrip_char_prefix "." (upper token)) as (ds & E).
    destruct (startswith "SEPT" (rstrip_char "." (upper token))) eqn:S.
    - intros H. apply dict_get_in in H.
      apply startswith_split in S as [t S].
      exists ("SEP" : text), ("T"%char :: t ++ ds). split; [exact H|].
      rewrite E, S. reflexivity.
    - intros H. apply dict_get_in in H.
      destruct (firstn_prefix 3 (rstrip_char "." (upper token))) as (t & F).
      exists (firstn 3 (rstrip_char "." (upper token))), (t ++ ds).
      split; [exact H|]. rewrite app_assoc, <- F. exact E. }
  split; [split; [exact D|] | intros H; destruct (D H) as (k & _ & I & _); eauto].
  intros (k & tail & I & E). unfold month_token_to_number. rewrite E.
  simpl in I.
  repeat (destruct I as [I|I];
    [ injection I as <- <-;
      match goal with
      | |- context [rstrip_char ?a ([?c1; ?c2; ?c3] ++ tail)] =>
          destruct (rstrip_char_keeps a [c1; c2] c3 tail eq_refl) as (x & X);
          cbn [app] in X |- *; rewrite X
      end;
      first [ reflexivity | destruct (startswith _ _); reflexivity ]
    |]).
  easy.
Qed.

(** ** [extract_statement_year_month] *)

Lemma digit_value_range c : is_digit c = true -> (0 <= digit_value c <= 9)%Z.
Proof.
  intros H.
  assert (G : ((0 <=? digit_value c) && (digit_value c <=? 9))%Z = true)
    by (revert c H; apply class_incl; vm_compute; reflexivity).
  apply andb_true_iff in G as [G1 G2]. lia.
Qed.

Lemma int_of_digits_from w : forall acc,
  Forall (fun c => is_digit c = true) w -> (0 <= acc)%Z ->
  let v := fold_left (fun acc c => (10 * acc + digit_value c)%Z) w acc in
  (0 <= v < (acc + 1) * 10 ^ Z.of_nat (length w))%Z.
Proof.
  induction w as [|c w IH]; intros acc F A; cbn [fold_left length].
  - simpl. lia.
  - inversion F as [|? ? Hc Fw]; subst.
    pose proof (digit_value_range c Hc) as D.
    specialize (IH (10 * acc + digit_value c)%Z Fw ltac:(lia)).
    cbn zeta in IH |- *. rewrite Nat2Z.inj_succ, Z.pow_succ_r by lia.
    assert (P : (0 < 10 ^ Z.of_nat (length w))%Z)
      by (apply Z.pow_pos_nonneg; lia).
    nia.
Qed.

Lemma int_of_digits_range w :
  Forall (fun c => is_digit c = true) w ->
  (0 <= int_of_digits w < 10 ^ Z.of_nat (length w))%Z.
Proof.
  intros F. pose proof (int_of_digits_from w 0%Z F ltac:(lia)) as H.
  cbn zeta in H. unfold int_of_digits. lia.
Qed.

Lemma search_from_split r : forall after before m,
  search_from r before after = Some m ->
  exists pre post, after = pre ++ post
                   /\ match_at r (rev pre ++ before) post = Some m.
Proof.
  induction after as [|c after IH]; intros before m H; cbn [search_from] in H.
  - destruct (match_at r before []) eqn:E; [|easy]. injection H as <-.
    now exists [], [].
  - destruct (match_at r before (c :: after)) eqn:E.
    + injection H as <-. now exists [], (c :: after).
    + apply IH in H as (pre & post & -> & H). exists (c :: pre), post.
      split; [reflexivity|]. cbn [rev]. now rewrite <- app_assoc.
Qed.

(** A success of a class repeated a fixed number of times. *)
Lemma in_run_rep_exact g p n st st' :
  In st' (run (Rep g p n (Some n)) st) ->
  exists w, rest st = w ++ rest st'
            /\ caps st' = caps st
            /\ Forall (fun c => p c = true) w
            /\ length w = n.
Proof.
  intros H. apply in_run_rep in H as (k & H1 & H2 & H3 & ->).
  specialize (H3 n eq_refl). assert (k = n) as -> by lia.
  exists (firstn n (rest st)). cbn [advance rest caps].
  split; [now rewrite firstn_skipn|]. split; [reflexivity|].
  split; [now apply span_firstn|].
  rewrite length_firstn. pose proof (span_le p (rest st)). lia.
Qed.

Lemma run_rep_exact_intro g p st w t :
  rest st = w ++ t -> Forall (fun c => p c = true) w ->
  In (MState (rev w ++ seen st) t (caps st))
     (run (Rep g p (length w) (Some (length w))) st).
Proof.
  intros R F. apply in_run_rep. exists (length w).
  split; [lia|]. split; [rewrite R; now apply span_app_all|].
  split; [intros h [= <-]; lia|]. unfold advance.
  now rewrite R, firstn_length_app, skipn_length_app.
Qed.

(** What a match of the date pattern has read. *)
Lemma statement_date_match before after m :
  match_at STATEMENT_DATE_RE before after = Some m ->
  exists post,
    after = group 1 m ++ ("-" : text) ++ group 2 m ++ ("-" : text)
              ++ group 3 m ++ post
    /\ length (group 1 m) = 4 /\ length (group 2 m) = 2
    /\ length (group 3 m) = 2
    /\ Forall (fun c => is_digit c = true)
              (group 1 m ++ group 2 m ++ group 3 m).
Proof.
  intros H. unfold match_at in H. apply hd_error_in in H.
  apply in_run_grp in H as (e & H & ->).
  unfold STATEMENT_DATE_RE in H. cbn [seqs] in H.
  apply in_run_seq in H as (s1 & H1 & H).
  apply in_run_plain_grp in H1 as (g1 & R1 & C1 & _ & e1 & He1 & E1);
    [|reflexivity].
  apply in_run_seq in H as (s2 & H2 & H).
  apply in_run_lit_word in H2 as [R2 C2].
  apply in_run_seq in H as (s3 & H3 & H).
  apply in_run_plain_grp in H3 as (g2 & R3 & C3 & _ & e3 & He3 & E3);
    [|reflexivity].
  apply in_run_seq in H as (s4 & H4 & H).
  apply in_run_lit_word in H4 as [R4 C4].
  apply in_run_plain_grp in H as (g3 & R5 & C5 & _ & e5 & He5 & E5);
    [|reflexivity].
  apply in_run_rep_exact in He1 as (w1 & W1 & _ & F1 & L1).
  apply in_run_rep_exact in He3 as (w3 & W3 & _ & F3 & L3).
  apply in_run_rep_exact in He5 as (w5 & W5 & _ & F5 & L5).
  assert (g1 = w1) as ->.
  { rewrite <- E1. unfold consumed. rewrite W1, length_app.
    replace (length w1 + length (rest e1) - length (rest e1))
      with (length w1) by lia. apply firstn_length_app. }
  assert (g2 = w3) as ->.
  { rewrite <- E3. unfold consumed. rewrite W3, length_app.
    replace (length w3 + length (rest e3) - length (rest e3))
      with (length w3) by lia. apply firstn_length_app. }
  assert (g3 = w5) as ->.
  { rewrite <- E5. unfold consumed. rewrite W5, length_app.
    replace (length w5 + length (rest e5) - length (rest e5))
      with (length w5) by lia. apply firstn_length_app. }
  exists (rest e). unfold group. cbn [caps set_cap]. rewrite C5, C4, C3, C2, C1.
  cbn [lookup_cap Nat.eqb rest] in *.
  split; [now rewrite R1, R2, R3, R4, R5|].
  repeat split; try assumption.
  apply Forall_app. split; [exact F1|]. now apply Forall_app.
Qed.

Lemma search_from_first r : forall after before m,
  search_from r before after = Some m ->
  exists pre post,
    after = pre ++ post
    /\ match_at r (rev pre ++ before) post = Some m
    /\ (forall p1 p2, pre = p1 ++ p2 -> p2 <> [] ->
                      match_at r (rev p1 ++ before) (p2 ++ post) = None).
Proof.
  induction after as [|c after IH]; intros before m H; cbn [search_from] in H.
  - destruct (match_at r before []) eqn:E; [|easy]. injection H as <-.
    exists [], []. repeat split; [exact E|].
    intros p1 p2 Ep N. now destruct p1, p2.
  - destruct (match_at r before (c :: after)) eqn:E.
    + injection H as <-. exists [], (c :: after). repeat split; [exact E|].
      intros p1 p2 Ep N. now destruct p1, p2.
    + apply IH in H as (pre & post & -> & H & F). exists (c :: pre), post.
      split; [reflexivity|]. split.
      * cbn [rev]. now rewrite <- app_assoc.
      * intros [|x p1] p2 Ep N; cbn [app] in Ep.
        { subst p2. exact E. }
        injection Ep as <- Ep. cbn [rev]. rewrite <- app_assoc.
        now apply F.
Qed.

(** A text that begins with a date is matched where it stands. *)
Lemma dated_matches before t :
  dated t -> match_at STATEMENT_DATE_RE before t <> None.
Proof.
  intros (a & b & c & post & -> & La & Lb & Lc & F).
  apply Forall_app in F as [Fa F]. apply Forall_app in F as [Fb Fc].
  set (name := a ++ ("-" : text) ++ b ++ ("-" : text) ++ c ++ post).
  set (st0 := MState before name []).
  set (e1 := MState (rev a ++ before)
                    (("-" : text) ++ b ++ ("-" : text) ++ c ++ post) []).
  set (s1 := set_cap 1 (consumed st0 e1) e1).
  set (s2 := MState (rev ("-" : text) ++ seen s1)
                    (b ++ ("-" : text) ++ c ++ post) (caps s1)).
  set (e3 := MState (rev b ++ seen s2) (("-" : text) ++ c ++ post) (caps s2)).
  set (s3 := set_cap 2 (consumed s2 e3) e3).
  set (s4 := MState (rev ("-" : text) ++ seen s3) (c ++ post) (caps s3)).
  set (e5 := MState (rev c ++ seen s4) post (caps s4)).
  set (s5 := set_cap 3 (consumed s4 e5) e5).
  assert (H : In (set_cap 0 (consumed st0 s5) s5)
                 (run (Grp 0 STATEMENT_DATE_RE) st0)).
  { apply run_grp_intro. unfold STATEMENT_DATE_RE. cbn [seqs].
    apply (run_seq_intro _ _ _ s1).
    { apply run_grp_intro. rewrite <- La.
      now apply (run_rep_exact_intro true is_digit st0 a). }
    apply (run_seq_intro _ _ _ s2); [now apply (run_lit_intro "-" s1)|].
    apply (run_seq_intro _ _ _ s3).
    { apply run_grp_intro. rewrite <- Lb.
      now apply (run_rep_exact_intro true is_digit s2 b). }
    apply (run_seq_intro _ _ _ s4); [now apply (run_lit_intro "-" s3)|].
    apply run_grp_intro. rewrite <- Lc.
    now apply (run_rep_exact_intro true is_digit s4 c). }
  apply hd_error_some in H as [m Hm]. unfold match_at. fold st0.
  now rewrite Hm.
Qed.

Lemma statement_date_inv (name : text) (y mo d : Z) :
  extract_statement_year_month name = Some (y, mo, d) ->
  exists pre a b c post,
    name = pre ++ a ++ ("-" : text) ++ b ++ ("-" : text) ++ c ++ post
    /\ length a = 4 /\ length b = 2 /\ length c = 2
    /\ Forall (fun ch => is_digit ch = true) (a ++ b ++ c)
    /\ y = int_of_digits a /\ mo = int_of_digits b /\ d = int_of_digits c
    /\ (0 <= y <= 9999)%Z /\ (0 <= mo <= 99)%Z /\ (0 <= d <= 99)%Z
    /\ (forall p1 p2,
          pre = p1 ++ p2 -> p2 <> [] ->
          ~ dated (p2 ++ a ++ ("-" : text) ++ b ++ ("-" : text) ++ c ++ post)).
Proof.
  unfold extract_statement_year_month, re_search.
  destruct (search_from STATEMENT_DATE_RE [] name) as [m|] eqn:E;
    [|discriminate].
  intros [= <- <- <-].
  apply search_from_first in E as (pre & post & -> & E & First).
  apply statement_date_match in E as (tl & -> & L1 & L2 & L3 & F).
  exists pre, (group 1 m), (group 2 m), (group 3 m), tl.
  apply Forall_app in F as F'. destruct F' as [F1 F23].
  apply Forall_app in F23 as [F2 F3].
  pose proof (int_of_digits_range _ F1) as B1. rewrite L1 in B1.
  pose proof (int_of_digits_range _ F2) as B2. rewrite L2 in B2.
  pose proof (int_of_digits_range _ F3) as B3. rewrite L3 in B3.
  change (10 ^ Z.of_nat 4)%Z with 10000%Z in B1.
  change (10 ^ Z.of_nat 2)%Z with 100%Z in B2, B3.
  repeat split; try assumption; try reflexivity; try lia.
  intros p1 p2 Ep N D.
  apply (dated_matches (rev p1 ++ [])) in D. now apply D, First.
Qed.

(** X7. The date of a statement is read from the first place of the file
    name where four digits, a hyphen, two digits, a hyphen and two
    digits follow one another, no earlier place of the name beginning
    such a run: the three runs of digits are read as numbers, so the
    year is at most 9999 and month and day are at most 99, with no
    check that they name a calendar date. *)
Theorem statement_date_fields (name : text) (y mo d : Z) :
  extract_statement_year_month name = Some (y, mo, d) ->
  exists pre a b c post,
    name = pre ++ a ++ ("-" : text) ++ b ++ ("-" : text) ++ c ++ post
    /\ length a = 4 /\ length b = 2 /\ length c = 2
    /\ Forall (fun ch => is_digit ch = true) (a ++ b ++ c)
    /\ y = int_of_digits a /\ mo = int_of_digits b /\ d = int_of_digits c
    /\ (0 <= y <= 9999)%Z /\ (0 <= mo <= 99)%Z /\ (0 <= d <= 99)%Z
    /\ (forall p1 p2,
          pre = p1 ++ p2 -> p2 <> [] ->
          ~ dated (p2 ++ a ++ ("-" : text) ++ b ++ ("-" : text) ++ c ++ post)).
Proof. apply statement_date_inv. Qed.

Lemma statement_date_fields_witness :
  exists pre a b c post,
    ("2022-13-45_to_2023-01-31.pdf" : text)
    = pre ++ a ++ ("-" : text) ++ b ++ ("-" : text) ++ c ++ post
    /\ length a = 4 /\ length b = 2 /\ length c = 2
    /\ Forall (fun ch => is_digit ch = true) (a ++ b ++ c)
    /\ 2022%Z = int_of_digits a /\ 13%Z = int_of_digits b
    /\ 45%Z = int_of_digits c
    /\ (0 <= 2022 <= 9999)%Z /\ (0 <= 13 <= 99)%Z /\ (0 <= 45 <= 99)%Z
    /\ (forall p1 p2,
          pre = p1 ++ p2 -> p2 <> [] ->
          ~ dated (p2 ++ a ++ ("-" : text) ++ b ++ ("-" : text) ++ c ++ post)).
Proof.
  apply (statement_date_fields "2022-13-45_to_2023-01-31.pdf" 2022 13 45).
  vm_compute. reflexivity.
Defined.

Lemma app_inv_length {A} (a a' b b' : list A) :
  length a = length a' -> a ++ b = a' ++ b' -> a = a' /\ b = b'.
Proof.
  revert a'. induction a as [|x a IH]; intros [|x' a'] L E;
    try discriminate; [now split|].
  injection L as L. injection E as -> E.
  destruct (IH _ L E) as [-> ->]. now split.
Qed.

(** X8. A name that begins with four digits, a hyphen, two digits, a hyphen
    and two digits is dated by these three numbers, whatever they are
    and whatever follows. *)
Theorem statement_date_read_back (a b c post : text) :
  length a = 4 -> length b = 2 -> length c = 2 ->
  Forall (fun ch => is_digit ch = true) (a ++ b ++ c) ->
  extract_statement_year_month
    (a ++ ("-" : text) ++ b ++ ("-" : text) ++ c ++ post)
  = Some (int_of_digits a, int_of_digits b, int_of_digits c).
Proof.
  intros La Lb Lc F.
  apply Forall_app in F as [Fa F]. apply Forall_app in F as [Fb Fc].
  set (name := a ++ ("-" : text) ++ b ++ ("-" : text) ++ c ++ post).
  set (st0 := MState [] name []).
  set (e1 := MState (rev a ++ [])
                    (("-" : text) ++ b ++ ("-" : text) ++ c ++ post) []).
  set (s1 := set_cap 1 (consumed st0 e1) e1).
  set (s2 := MState (rev ("-" : text) ++ seen s1)
                    (b ++ ("-" : text) ++ c ++ post) (caps s1)).
  set (e3 := MState (rev b ++ seen s2) (("-" : text) ++ c ++ post) (caps s2)).
  set (s3 := set_cap 2 (consumed s2 e3) e3).
  set (s4 := MState (rev ("-" : text) ++ seen s3) (c ++ post) (caps s3)).
  set (e5 := MState (rev c ++ seen s4) post (caps s4)).
  set (s5 := set_cap 3 (consumed s4 e5) e5).
  assert (H : In (set_cap 0 (consumed st0 s5) s5)
                 (run (Grp 0 STATEMENT_DATE_RE) st0)).
  { apply run_grp_intro. unfold STATEMENT_DATE_RE. cbn [seqs].
    apply (run_seq_intro _ _ _ s1).
    { apply run_grp_intro. rewrite <- La.
      now apply (run_rep_exact_intro true is_digit st0 a). }
    apply (run_seq_intro _ _ _ s2); [now apply (run_lit_intro "-" s1)|].
    apply (run_seq_intro _ _ _ s3).
    { apply run_grp_intro. rewrite <- Lb.
      now apply (run_rep_exact_intro true is_digit s2 b). }
    apply (run_seq_intro _ _ _ s4); [now apply (run_lit_intro "-" s3)|].
    apply run_grp_intro. rewrite <- Lc.
    now apply (run_rep_exact_intro true is_digit s4 c). }
  apply hd_error_some in H as [m Hm].
  assert (S : re_search STATEMENT_DATE_RE name = Some m).
  { unfold re_search. destruct name; cbn [search_from]; unfold match_at;
      fold st0; now rewrite Hm. }
  unfold extract_statement_year_month. rewrite S.
  apply statement_date_match in Hm as (tl & E & L1 & L2 & L3 & _).
  unfold name in E.
  apply app_inv_length in E as [<- E]; [|congruence].
  apply (app_inv_length ("-" : text) ("-" : text)) in E as [_ E];
    [|reflexivity].
  apply app_inv_length in E as [<- E]; [|congruence].
  apply (app_inv_length ("-" : text) ("-" : text)) in E as [_ E];
    [|reflexivity].
  apply app_inv_length in E as [<- E]; [|congruence].
  reflexivity.
Qed.

Lemma statement_date_read_back_witness :
  extract_statement_year_month "2023-13-45-copy.pdf"
  = Some (2023%Z, 13%Z, 45%Z).
Proof.
  apply (statement_date_read_back "2023" "13" "45" "-copy.pdf");
    try reflexivity.
  repeat constructor.
Defined.

(** ** Descriptions are matched without regard to case and spacing *)

Lemma split_ws_from_map f s : forall cur,
  (forall c, is_space (f c) = is_space c) ->
  split_ws_from (map f cur) (map f s) = map (map f) (split_ws_from cur s).
Proof.
  intros cur H. revert cur.
  induction s as [|c s IH]; intros cur.
  - destruct cur as [|x cur]; [reflexivity|].
    change (split_ws_from (map f (x :: cur)) (map f []))
      with [rev (map f (x :: cur))].
    now rewrite <- map_rev.
  - change (map f (c :: s)) with (f c :: map f s). cbn [split_ws_from].
    rewrite H. destruct (is_space c).
    + destruct cur as [|x cur]; [apply (IH [])|].
      change (map f (x :: cur)) with (f x :: map f cur).
      cbn iota. change (f x :: map f cur) with (map f (x :: cur)).
      rewrite <- map_rev. cbn [map]. f_equal. apply (IH []).
    + apply (IH (c :: cur)).
Qed.

Lemma join_map (f : ascii -> ascii) sep toks :
  join (map f sep) (map (map f) toks) = map f (join sep toks).
Proof.
  induction toks as [|p ps IH]; [reflexivity|].
  destruct ps as [|q ps]; [reflexivity|].
  change (join sep (p :: q :: ps)) with (p ++ sep ++ join sep (q :: ps)).
  change (map (map f) (p :: q :: ps))
    with (map f p :: map (map f) (q :: ps)).
  change (join (map f sep) (map f p :: map (map f) (q :: ps)))
    with (map f p ++ map f sep ++ join (map f sep) (map (map f) (q :: ps))).
  now rewrite IH, !map_app.
Qed.

Lemma normalize_space_upper t :
  normalize_space (upper t) = upper (normalize_space t).
Proof.
  rewrite !normalize_space_join. unfold split_ws, upper.
  change (split_ws_from [] (map upper_char t))
    with (split_ws_from (map upper_char []) (map upper_char t)).
  rewrite (split_ws_from_map upper_char t [] is_space_upper_char).
  apply (join_map upper_char " ").
Qed.

Lemma nonempty_upper t : nonempty (upper t) = nonempty t.
Proof. now destruct t. Qed.

Lemma resolve_of_upper d tb :
  resolve_rbc_symbol d tb
  = resolve_rbc_symbol (upper (normalize_space d)) tb.
Proof.
  unfold resolve_rbc_symbol, token_key_set.
  now rewrite normalize_space_upper, normalize_space_idem, !upper_idem,
    nonempty_upper.
Qed.

(** X9. The resolver sees a description only through its upper-cased words:
    two descriptions with the same words, whatever their case and the
    whitespace between and around the words, resolve alike. *)
Theorem resolve_ignores_case_and_spacing (d1 d2 : text) (tb : tables) :
  map upper (split_ws d1) = map upper (split_ws d2) ->
  resolve_rbc_symbol d1 tb = resolve_rbc_symbol d2 tb.
Proof.
  intros E. rewrite (resolve_of_upper d1), (resolve_of_upper d2).
  rewrite !normalize_space_join.
  assert (U : forall d, upper (join " " (split_ws d))
                        = join " " (map upper (split_ws d))).
  { intros d. symmetry. apply (join_map upper_char " "). }
  now rewrite !U, E.
Qed.

Lemma resolve_ignores_case_and_spacing_witness :
  resolve_rbc_symbol "  Apple   inc " sample_tables
  = resolve_rbc_symbol "APPLE INC" sample_tables.
Proof.
  apply (resolve_ignores_case_and_spacing "  Apple   inc " "APPLE INC").
  vm_compute. reflexivity.
Defined.

(** ** Where a resolved symbol comes from *)

Lemma in_run_rep_bounds g p lo hi st st' :
  In st' (run (Rep g p lo (Some hi)) st) ->
  lo <= length (consumed st st') <= hi
  /\ Forall (fun c => p c = true) (consumed st st').
Proof.
  intros H. apply in_run_rep in H as (k & H1 & H2 & H3 & ->).
  specialize (H3 hi eq_refl). rewrite consumed_advance, length_firstn.
  pose proof (span_le p (rest st)). split; [lia|]. now apply span_firstn.
Qed.

Lemma paren_code_groups_sat : groups_sat code_group PAREN_CODE_RE.
Proof.
  unfold PAREN_CODE_RE. cbn [seqs groups_sat].
  split; [exact I|]. split; [|exact I]. split; [|exact I].
  intros st st' H _. now apply in_run_rep_bounds in H.
Qed.

Lemma first_known_in codes d sym :
  first_known codes d = Some sym -> exists k, In (k, sym) d.
Proof.
  intros H. apply first_known_spec in H as (_ & c & _ & _ & _ & H).
  exists c. now apply dict_get_in.
Qed.

Lemma resolve_sources desc tb s :
  resolve_rbc_symbol desc tb = Some s ->
  (exists k, In (k, s) (code_to_symbol tb))
  \/ (exists k, In (k, s) (compact_to_symbol tb))
  \/ issuer_symbol s.
Proof.
  unfold resolve_rbc_symbol.
  destruct (negb (nonempty (normalize_space desc))); [discriminate|].
  set (u := upper (normalize_space desc)).
  destruct (first_known (findall1 PAREN_CODE_RE u) (code_to_symbol tb))
    as [s1|] eqn:E1.
  { intros [= <-]. left. eapply first_known_in; eauto. }
  destruct (first_known (findall1 FREE_CODE_RE u) (code_to_symbol tb))
    as [s2|] eqn:E2.
  { intros [= <-]. left. eapply first_known_in; eauto. }
  destruct (dict_get (compact_key u) (compact_to_symbol tb)) as [s3|] eqn:E3.
  { intros [= <-]. right. left. eexists. eapply dict_get_in; eauto. }
  destruct (score_entries _ _ _) as [|c cs] eqn:E4.
  - destruct (re_search PAREN_CODE_RE u) as [m|] eqn:E5; [|discriminate].
    pose proof (re_search_group code_group PAREN_CODE_RE 0 u m
                  paren_code_groups_sat eq_refl E5 eq_refl) as [L F].
    destruct (contains "RBC" u).
    + intros [= <-]. right. right. exists (group 1 m). auto.
    + destruct (contains "FIDELITY" u); [|discriminate].
      intros [= <-]. right. right. exists (group 1 m). auto.
  - rewrite hd_sort_desc.
    destruct (first_max (c :: cs)) as [[score sym]|] eqn:E5; [|discriminate].
    intros [= <-]. right. left.
    apply first_max_spec in E5 as (l1 & l2 & E5 & _).
    assert (I : In (score, sym) (c :: cs)) by (rewrite E5; apply in_elt).
    rewrite <- E4 in I. apply in_score_entries in I as (key & I & _).
    now exists key.
Qed.

(** X10. The resolver never invents a symbol: what it returns is a value of
    the code table, a value of the description table, or the prefix
    RBF or FID followed by a parenthesized code of three to five
    digits.  So with both tables empty only the issuer fallback can
    resolve a description. *)
Theorem resolve_symbol_provenance (desc : text) (tb : tables) (s : text) :
  resolve_rbc_symbol desc tb = Some s ->
  ((exists k, In (k, s) (code_to_symbol tb))
   \/ (exists k, In (k, s) (compact_to_symbol tb))
   \/ issuer_symbol s)
  /\ (tb = empty_tables -> issuer_symbol s).
Proof.
  intros H. pose proof (resolve_sources _ _ _ H) as S. split; [exact S|].
  intros ->. destruct S as [[k []]|[[k []]|S]]. exact S.
Qed.

Lemma resolve_symbol_provenance_witness :
  ((exists k, In (k, "RBF900" : text) (code_to_symbol sample_tables))
   \/ (exists k, In (k, "RBF900" : text) (compact_to_symbol sample_tables))
   \/ issuer_symbol "RBF900")
  /\ (sample_tables = empty_tables -> issuer_symbol "RBF900").
Proof.
  apply (resolve_symbol_provenance "RBC Bond Fund (900)" sample_tables).
  vm_compute. reflexivity.
Defined.

(** ** What the collector stores *)

Lemma asset_symbol_shape st st' :
  In st' (run (Seq (Cls is_upper) (Rep true symbol_char 1 (Some 12))) st) ->
  ticker_shape (consumed st st').
Proof.
  intros H. pose proof H as H'. apply in_run_seq in H' as (mid & H1 & H2).
  rewrite (consumed_seq _ _ _ _ _ H1 H2).
  apply in_run_cls in H1 as (c & R & Hc).
  rewrite (consumed_of_rest st mid [c] R).
  apply in_run_rep_bounds in H2 as [L F]. cbn [app ticker_shape]. auto.
Qed.

Lemma asset_groups_sat : groups_sat asset_group RBC_ASSET_LINE_RE.
Proof.
  unfold RBC_ASSET_LINE_RE, NUM, plus, star, lazy_star.
  cbn [seqs groups_sat].
  repeat match goal with
         | |- _ /\ _ => split
         | |- True => exact I
         end.
  all: intros st st' H E; try discriminate.
  now apply asset_symbol_shape.
Qed.

Lemma symbol_char_facts c :
  symbol_char c = true -> upper_char c = c /\ is_space c = false.
Proof.
  intros H.
  assert (G : ascii_eqb (upper_char c) c && negb (is_space c) = true)
    by (revert c H; apply class_incl; vm_compute; reflexivity).
  apply andb_true_iff in G as [G1 G2].
  split; [now apply ascii_eqb_eq | now apply negb_true_iff].
Qed.

Lemma is_upper_symbol_char c : is_upper c = true -> symbol_char c = true.
Proof. revert c. apply class_incl. vm_compute. reflexivity. Qed.

Lemma ticker_shape_chars s :
  ticker_shape s -> Forall (fun c => symbol_char c = true) s.
Proof.
  destruct s as [|c t]; [easy|]. intros (U & F & _).
  constructor; [now apply is_upper_symbol_char | exact F].
Qed.

Lemma symbol_chars_plain s :
  Forall (fun c => symbol_char c = true) s -> upper (strip s) = s.
Proof.
  intros F. rewrite strip_no_space.
  - unfold upper. rewrite <- (map_id s) at 2. apply map_ext_in. intros c I.
    rewrite Forall_forall in F. now apply symbol_char_facts, F.
  - eapply Forall_impl; [|exact F]. intros c H. now apply symbol_char_facts.
Qed.

Lemma text_eqb_neq a b : text_eqb a b = false -> a <> b.
Proof. intros E ->. now rewrite text_eqb_refl in E. Qed.

Lemma stored_symbol_fixed s :
  stored_symbol s -> normalize_ticker_symbol s = s.
Proof.
  intros (T & N1 & N2). unfold normalize_ticker_symbol.
  rewrite (symbol_chars_plain s) by now apply ticker_shape_chars.
  destruct (text_eqb s "GOOGL") eqn:E1;
    [now apply text_eqb_eq in E1|].
  destruct (text_eqb s "BRKB") eqn:E2; [now apply text_eqb_eq in E2|].
  reflexivity.
Qed.

Lemma stored_symbol_of_row w :
  ticker_shape w -> stored_symbol (normalize_ticker_symbol (upper w)).
Proof.
  intros T. pose proof (ticker_shape_chars _ T) as F.
  assert (U : upper w = w).
  { rewrite <- (symbol_chars_plain w F) at 2. rewrite strip_no_space;
      [reflexivity|].
    eapply Forall_impl; [|exact F]. intros c H. now apply symbol_char_facts. }
  rewrite U. unfold normalize_ticker_symbol. rewrite (symbol_chars_plain w F).
  destruct (text_eqb w "GOOGL") eqn:E1.
  { repeat split; try discriminate; try (cbn; lia). repeat constructor. }
  destruct (text_eqb w "BRKB") eqn:E2.
  { repeat split; try discriminate; try (cbn; lia). repeat constructor. }
  split; [exact T|]. split; now apply text_eqb_neq.
Qed.

Lemma setdefault_forall (P : text * text -> Prop) k v d :
  Forall P d -> P (k, v) -> Forall P (setdefault k v d).
Proof.
  intros F H. unfold setdefault. destruct (dict_mem k d); [exact F|].
  apply Forall_app. split; [exact F | now repeat constructor].
Qed.

Lemma isdigit_code_key k : isdigit k = true -> code_key k.
Proof.
  unfold isdigit. destruct k as [|c k]; [discriminate|]. intros H.
  split; [discriminate|]. now apply Forall_forall, forallb_forall.
Qed.

Lemma collect_asset_line_shape line tb :
  tables_shape tb -> tables_shape (collect_asset_line line tb).
Proof.
  intros [S1 S2]. unfold collect_asset_line.
  destruct (re_match RBC_ASSET_LINE_RE line) as [m|] eqn:E; [|now split].
  pose proof (re_match_group asset_group RBC_ASSET_LINE_RE 1 line m
                asset_groups_sat eq_refl E eq_refl) as T.
  apply stored_symbol_of_row in T.
  set (symbol := normalize_ticker_symbol (upper (group 2 m))) in *.
  split; cbn [compact_to_symbol code_to_symbol].
  - destruct (nonempty _); [|exact S1]. now apply setdefault_forall.
  - assert (A : Forall (fun kv => code_key (fst kv) /\ stored_symbol (snd kv))
                  (match re_search PAREN_CODE_RE
                           (normalize_space (group 1 m)) with
                   | Some code_match =>
                       setdefault (group 1 code_match) symbol (code_to_symbol tb)
                   | None => code_to_symbol tb
                   end)).
    { destruct (re_search PAREN_CODE_RE _) as [cm|] eqn:Ec; [|exact S2].
      apply setdefault_forall; [exact S2|]. split; [|exact T].
      pose proof (re_search_group code_group PAREN_CODE_RE 0 _ cm
                    paren_code_groups_sat eq_refl Ec eq_refl) as [L F].
      split; [|exact F]. cbn [fst]. intros Z. rewrite Z in L.
      simpl in L. lia. }
    assert (K : forall (b : bool) d,
               Forall (fun kv => code_key (fst kv) /\ stored_symbol (snd kv)) d ->
               Forall (fun kv => code_key (fst kv) /\ stored_symbol (snd kv))
                 (if b && isdigit (skipn 3 symbol)
                  then setdefault (skipn 3 symbol) symbol d else d)).
    { intros b d Fd. destruct b; cbn [andb]; [|exact Fd].
      destruct (isdigit (skipn 3 symbol)) eqn:D; [|exact Fd].
      apply setdefault_forall; [exact Fd|].
      split; [now apply isdigit_code_key | exact T]. }
    apply K, K, A.
Qed.

Lemma collect_lines_inv (P : tables -> Prop) :
  (forall line tb, P tb -> P (collect_asset_line line tb)) ->
  forall lines st, P (snd st) -> P (snd (fold_left collect_line lines st)).
Proof.
  intros Step.
  induction lines as [|l lines IH]; intros [b tb] K; cbn [fold_left];
    [exact K|].
  apply IH. unfold collect_line.
  destruct (negb (nonempty l)); [exact K|].
  destruct (contains "Asset Review" l); [exact K|].
  destruct (b && contains "Account Activity" l); [exact K|].
  destruct (negb b); [exact K|]. now apply Step.
Qed.

Lemma collect_pages_inv (P : tables -> Prop) :
  (forall line tb, P tb -> P (collect_asset_line line tb)) ->
  forall pages tb, P tb -> P (collect_rbc_asset_aliases pages tb).
Proof.
  intros Step. unfold collect_rbc_asset_aliases.
  induction pages as [|p pages IH]; intros tb K; cbn [fold_left]; [exact K|].
  apply IH. unfold collect_page.
  now apply (collect_lines_inv P Step _ (false, tb)).
Qed.

(** X11. The collector stores well-formed entries only: every symbol it adds
    to either table is a capital letter followed by one to twelve
    capitals, digits, points or hyphens, is never GOOGL or BRKB, and is
    left as it is by [normalize_ticker_symbol]; every key it adds to
    the code table is a non-empty run of digits. *)
Theorem collected_tables_shape (pages : list text) (tb : tables) :
  tables_shape tb ->
  let tb' := collect_rbc_asset_aliases pages tb in
  tables_shape tb'
  /\ (forall k s, In (k, s) (compact_to_symbol tb') \/ In (k, s) (code_to_symbol tb') ->
                  normalize_ticker_symbol s = s).
Proof.
  intros S tb'.
  assert (S' : tables_shape tb')
    by (apply collect_pages_inv; [apply collect_asset_line_shape | exact S]).
  split; [exact S'|]. destruct S' as [S1 S2].
  rewrite Forall_forall in S1, S2.
  intros k s [I|I]; apply stored_symbol_fixed.
  - apply (S1 _ I).
  - apply (S2 _ I).
Qed.

Lemma collected_tables_shape_witness :
  let tb' := collect_rbc_asset_aliases [january_page] empty_tables in
  tables_shape tb'
  /\ (forall k s, In (k, s) (compact_to_symbol tb') \/ In (k, s) (code_to_symbol tb') ->
                  normalize_ticker_symbol s = s).
Proof.
  apply (collected_tables_shape [january_page] empty_tables).
  split; constructor.
Defined.

(** ** Statements without an activity section *)

Lemma step_outside tb rate Y M pc w line :
  contains "Account Activity" line = false ->
  in_activity w = false -> current w = None ->
  step tb rate Y M pc w line = w.
Proof.
  intros A I C. unfold step. rewrite A, I, (flush_none _ _ _ C).
  destruct (negb (nonempty line)); [reflexivity|].
  destruct (contains "FOOTNOTES" line); [|reflexivity].
  destruct w. cbn in *. now subst.
Qed.

Lemma walk_lines_outside tb rate Y M pc lines : forall w,
  Forall (fun line => contains "Account Activity" line = false) lines ->
  in_activity w = false -> current w = None ->
  fold_left (step tb rate Y M pc) lines w = w.
Proof.
  induction lines as [|l lines IH]; intros w F I C; cbn [fold_left];
    [reflexivity|].
  inversion F as [|? ? Hl Fl]; subst.
  rewrite (step_outside _ _ _ _ _ _ _ Hl I C). now apply IH.
Qed.

(** X12. A statement none of whose lines contains "Account Activity" yields
    nothing: no trade, no unresolved row and no message, whatever its
    other lines say. *)
Theorem no_activity_section_no_trades (name : text) (pages : list text)
  (tb : tables) :
  (forall page line, In page pages -> In line (page_lines page) ->
                     contains "Account Activity" line = false) ->
  parse_rbc_statement_trades name pages tb = ([], []).
Proof.
  intros H. unfold parse_rbc_statement_trades.
  destruct (extract_statement_year_month name) as [[[Y M] D]|];
    [|reflexivity].
  assert (W : walk_statement tb Y M pages = initial_walk).
  { unfold walk_statement.
    set (rate := statement_usd_to_cad_rate pages). clearbody rate.
    assert (G : fold_left (walk_page tb rate Y M) pages initial_walk
                = initial_walk).
    { induction pages as [|p pages IH]; [reflexivity|]. cbn [fold_left].
      unfold walk_page at 2. rewrite walk_lines_outside; try reflexivity.
      - apply IH. intros page line I. apply H. now right.
      - apply Forall_forall. intros line I. apply (H p); [now left|exact I]. }
    rewrite G. reflexivity. }
  now rewrite W.
Qed.

Lemma no_activity_section_no_trades_witness :
  parse_rbc_statement_trades "2023-01-10.pdf"
    [page_of_lines [("JAN.15 BOUGHT XYZ FUND (12345) 100.000 10.00 1,000.00-" : text);
                    ("Closing Balance" : text)]]
    sample_tables
  = ([], []).
Proof.
  apply no_activity_section_no_trades.
  intros page line [<-|[]] I. vm_compute in I.
  destruct I as [<-|[<-|[]]]; reflexivity.
Defined.

(** ** At most one row per dated BOUGHT or SOLD line *)

Ltac count_rows :=
  unfold rows in *;
  cbn [trades unresolved current in_activity set_current set_in_activity];
  rewrite ?flush_current_clears; lia.

Lemma rows_flush tb rate w : rows (flush_current tb rate w) <= rows w.
Proof.
  unfold flush_current, rows. destruct (current w) as [cur|] eqn:E.
  - destruct (p_amount cur); [|cbn; lia].
    destruct (truthy _); cbn; rewrite length_app; cbn; lia.
  - rewrite E. lia.
Qed.

Lemma rows_flushed tb rate w :
  length (trades (flush_current tb rate w))
  + length (unresolved (flush_current tb rate w)) <= rows w.
Proof.
  pose proof (rows_flush tb rate w) as H. unfold rows in H at 1.
  rewrite flush_current_clears in H. lia.
Qed.

Lemma rows_start_activity tb rate Y M pc m w :
  rows (start_activity tb rate Y M pc m w)
  <= rows w
     + (if text_eqb (upper (group 3 m)) "BOUGHT"
           || text_eqb (upper (group 3 m)) "SOLD" then 1 else 0).
Proof.
  unfold start_activity.
  destruct (text_eqb (upper (group 3 m)) "BOUGHT"
            || text_eqb (upper (group 3 m)) "SOLD"); cbn [negb].
  - pose proof (rows_flushed tb rate w) as F.
    destruct (month_token_to_number (group 1 m)) as [mn|];
      [|count_rows].
    destruct (mn =? 0)%Z; [count_rows|].
    destruct (re_match RBC_INLINE_AMOUNT_RE _); count_rows.
  - destruct (has_amount (current w)).
    + pose proof (rows_flushed tb rate w). count_rows.
    + count_rows.
Qed.

Lemma rows_step tb rate Y M pc w line :
  rows (step tb rate Y M pc w line)
  <= rows w + (if is_trade_line line then 1 else 0).
Proof.
  unfold step. pose proof (rows_flushed tb rate w) as F.
  destruct (negb (nonempty line)); [lia|].
  destruct (contains "FOOTNOTES" line);
    [count_rows|].
  destruct (contains "Account Activity" line);
    [count_rows|].
  destruct (negb (in_activity w)); [lia|].
  destruct (startswith "Closing Balance" line);
    [count_rows|].
  unfold is_trade_line. destruct (activity_match line) as [m|].
  - apply rows_start_activity.
  - destruct (is_header_line line); [lia|].
    destruct (current w) as [cur|] eqn:E; [|lia].
    unfold rows. cbn [trades unresolved current set_current]. rewrite E. lia.
Qed.

Lemma rows_lines tb rate Y M pc lines : forall w,
  rows (fold_left (step tb rate Y M pc) lines w)
  <= rows w + length (filter is_trade_line lines).
Proof.
  induction lines as [|l lines IH]; intros w; cbn [fold_left filter];
    [simpl; lia|].
  specialize (IH (step tb rate Y M pc w l)).
  pose proof (rows_step tb rate Y M pc w l) as S.
  destruct (is_trade_line l); cbn [length]; lia.
Qed.

Lemma rows_pages tb rate Y M pages : forall w,
  rows (fold_left (walk_page tb rate Y M) pages w)
  <= rows w + trade_lines pages.
Proof.
  unfold trade_lines.
  induction pages as [|p pages IH]; intros w; cbn [fold_left flat_map];
    [simpl; lia|].
  specialize (IH (walk_page tb rate Y M w p)).
  rewrite filter_app, length_app.
  pose proof (rows_lines tb rate Y M (page_currency_of p) (page_lines p) w) as L.
  fold (walk_page tb rate Y M w p) in L. lia.
Qed.

(** X13. A statement never reports more rows than it has dated lines whose
    verb is BOUGHT or SOLD: the trades and the unresolved rows
    together are at most as many as these lines, so no other line ever
    makes a trade. *)
Theorem rows_bounded_by_trade_lines (tb : tables) (Y M : Z)
  (pages : list text) (name : text) :
  let w := walk_statement tb Y M pages in
  length (trades w) + length (unresolved w) <= trade_lines pages
  /\ length (fst (parse_rbc_statement_trades name pages tb))
     <= trade_lines pages.
Proof.
  assert (B : forall Y M,
            length (trades (walk_statement tb Y M pages))
            + length (unresolved (walk_statement tb Y M pages))
            <= trade_lines pages).
  { intros Y' M'. unfold walk_statement.
    set (rate := statement_usd_to_cad_rate pages).
    pose proof (rows_flushed tb rate
                  (fold_left (walk_page tb rate Y' M') pages initial_walk)) as F.
    pose proof (rows_pages tb rate Y' M' pages initial_walk) as P.
    unfold rows in P at 2. cbn in P. lia. }
  split; [apply B|]. unfold parse_rbc_statement_trades.
  destruct (extract_statement_year_month name) as [[[Y' M'] D]|];
    cbn [fst length]; [|lia].
  specialize (B Y' M'). lia.
Qed.

(** ** The trades of a run are well formed *)

Lemma format_year_length y :
  (-1 <= y <= 9999)%Z -> length (format_0d 4 y) = 4.
Proof.
  intros R.
  assert (G : forallb (fun n => length (format_0d 4 (Z.of_nat n - 1)) =? 4)
                      (seq 0 (Z.to_nat 10001)) = true) by (vm_compute; reflexivity).
  rewrite forallb_forall in G.
  specialize (G (Z.to_nat (y + 1))).
  replace (Z.of_nat (Z.to_nat (y + 1)) - 1)%Z with y in G by lia.
  apply Nat.eqb_eq, G, in_seq. lia.
Qed.

Lemma format_two_length z :
  (0 <= z <= 99)%Z -> length (format_0d 2 z) = 2.
Proof.
  intros R.
  assert (G : forallb (fun n => length (format_0d 2 (Z.of_nat n)) =? 2)
                      (seq 0 100) = true) by (vm_compute; reflexivity).
  rewrite forallb_forall in G.
  specialize (G (Z.to_nat z)).
  replace (Z.of_nat (Z.to_nat z)) with z in G by lia.
  apply Nat.eqb_eq, G, in_seq. lia.
Qed.

Lemma iso_shape_length d : iso_shape d -> length d = 10.
Proof.
  intros (y & mn & dd & -> & Ry & Rm & Rd). unfold iso_date.
  rewrite !length_app, format_year_length, !format_two_length by lia.
  reflexivity.
Qed.

Lemma month_token_range token n :
  month_token_to_number token = Some n -> (1 <= n <= 12)%Z.
Proof.
  unfold month_token_to_number. intros H. apply dict_get_in in H.
  simpl in H.
  repeat (destruct H as [H|H]; [injection H as _ <-; lia|]). easy.
Qed.

Lemma activity_day_groups_sat : groups_sat day_group RBC_ACTIVITY_START_RE.
Proof.
  unfold RBC_ACTIVITY_START_RE, MONTH, plus, star.
  cbn [seqs alts groups_sat].
  repeat match goal with
         | |- _ /\ _ => split
         | |- True => exact I
         end.
  all: intros st st' H E; try discriminate.
  now apply in_run_rep_bounds in H.
Qed.

Lemma activity_day_range line m :
  activity_match line = Some m ->
  (0 <= int_of_digits (group 2 m) <= 99)%Z.
Proof.
  intros H.
  assert (G : day_group 2 (group 2 m)).
  { unfold activity_match in H.
    destruct (re_match RBC_ACTIVITY_START_RE line) as [m'|] eqn:E.
    - injection H as ->.
      exact (re_match_group day_group _ 1 _ _ activity_day_groups_sat
               eq_refl E).
    - exact (re_search_group day_group _ 1 _ _ activity_day_groups_sat
               eq_refl H). }
  destruct (G eq_refl) as [L F].
  pose proof (int_of_digits_range _ F) as R.
  assert (10 ^ Z.of_nat (length (group 2 m)) <= 10 ^ 2)%Z
    by (apply Z.pow_le_mono_r; lia).
  lia.
Qed.

Lemma issuer_symbol_fixed s :
  issuer_symbol s -> normalize_ticker_symbol s = s /\ s <> [].
Proof.
  intros (code & E & L & F).
  assert (C : Forall (fun c => symbol_char c = true) code).
  { eapply Forall_impl; [|exact F]. apply class_incl. vm_compute.
    reflexivity. }
  unfold normalize_ticker_symbol.
  destruct E as [-> | ->]; (split; [|discriminate]);
    rewrite symbol_chars_plain
      by (apply Forall_app; split; [now repeat constructor | exact C]);
    reflexivity.
Qed.

Lemma stored_symbol_nonempty s : stored_symbol s -> s <> [].
Proof. intros [T _] ->. exact T. Qed.

Lemma tables_shape_values tb k s :
  tables_shape tb ->
  In (k, s) (code_to_symbol tb) \/ In (k, s) (compact_to_symbol tb) ->
  stored_symbol s.
Proof.
  intros [S1 S2] [I|I].
  - rewrite Forall_forall in S2. apply (S2 _ I).
  - rewrite Forall_forall in S1. apply (S1 _ I).
Qed.

Lemma truthy_some s x : truthy s = Some x -> s = Some x.
Proof. destruct s as [[|c t]|]; try discriminate. now intros [= <-]. Qed.

Lemma flush_shape tb rate w :
  tables_shape tb -> walk_shape w ->
  walk_shape (flush_current tb rate w).
Proof.
  intros S [T D]. unfold flush_current.
  destruct (current w) as [cur|] eqn:E; [|split; [exact T | now rewrite E]].
  destruct (p_amount cur) as [a|] eqn:Ea; [|now split].
  destruct (truthy _) as [sym|] eqn:Es; [|now split].
  split; [|exact I]. cbn [trades]. apply Forall_app. split; [exact T|].
  constructor; [|constructor]. apply truthy_some in Es.
  repeat split; cbn [t_date t_symbol t_amount].
  - exact D.
  - apply resolve_sources in Es as [[k I]|[[k I]|I]].
    + left. apply (tables_shape_values tb k); auto.
    + left. apply (tables_shape_values tb k); auto.
    + now right.
  - apply fabs_not_negative.
Qed.

Lemma start_activity_shape tb rate Y M pc m w :
  tables_shape tb -> (0 <= Y <= 9999)%Z ->
  (0 <= int_of_digits (group 2 m) <= 99)%Z ->
  walk_shape w -> walk_shape (start_activity tb rate Y M pc m w).
Proof.
  intros S RY RD W. unfold start_activity.
  destruct (negb _).
  - destruct (has_amount (current w)).
    + destruct (flush_shape tb rate w S W) as [T _]. now split.
    + destruct W as [T _]. now split.
  - pose proof (flush_shape tb rate w S W) as [T _].
    destruct (month_token_to_number (group 1 m)) as [mn|] eqn:Em;
      [|now split].
    apply month_token_range in Em.
    destruct (mn =? 0)%Z; [now split|].
    assert (D : iso_shape (iso_date (activity_year Y M mn) mn
                                    (int_of_digits (group 2 m)))).
    { eexists _, _, _. split; [reflexivity|]. split; [|now split].
      unfold activity_year. destruct (_ && _); lia. }
    destruct (re_match RBC_INLINE_AMOUNT_RE _);
      (split; [exact T | exact D]).
Qed.

Lemma continue_candidate_date line cur :
  p_date (continue_candidate line cur) = p_date cur.
Proof.
  unfold continue_candidate.
  destruct (re_match RBC_AMOUNT_LINE_RE line);
    destruct (p_amount cur);
    destruct (re_match RBC_INLINE_AMOUNT_RE line);
    destruct (re_match RBC_IGNORE_DESCRIPTION_LINE_RE (upper line));
    try reflexivity;
    destruct (nonempty _); reflexivity.
Qed.

Lemma step_shape tb rate Y M pc w line :
  tables_shape tb -> (0 <= Y <= 9999)%Z ->
  walk_shape w -> walk_shape (step tb rate Y M pc w line).
Proof.
  intros S RY W. unfold step.
  destruct (negb (nonempty line)); [exact W|].
  pose proof (flush_shape tb rate w S W) as [FT FC].
  destruct (contains "FOOTNOTES" line); [now split|].
  destruct (contains "Account Activity" line); [now split|].
  destruct (negb (in_activity w)); [exact W|].
  destruct (startswith "Closing Balance" line); [now split|].
  destruct (activity_match line) as [m|] eqn:A.
  { apply start_activity_shape; auto. now apply (activity_day_range line). }
  destruct (is_header_line line); [exact W|].
  destruct W as [T D].
  destruct (current w) as [cur|] eqn:E; [|split; [exact T | now rewrite E]].
  split; [exact T|]. cbn [current set_current].
  now rewrite continue_candidate_date.
Qed.

Lemma walk_statement_shape tb Y M pages :
  tables_shape tb -> (0 <= Y <= 9999)%Z ->
  walk_shape (walk_statement tb Y M pages).
Proof.
  intros S RY. unfold walk_statement.
  set (rate := statement_usd_to_cad_rate pages). clearbody rate.
  apply flush_shape; auto.
  assert (L : forall pc lines w, walk_shape w ->
                walk_shape (fold_left (step tb rate Y M pc) lines w)).
  { intros pc. induction lines as [|l lines IH]; intros w W; cbn [fold_left];
      [exact W|].
    apply IH. now apply step_shape. }
  assert (P : forall ps w, walk_shape w ->
                walk_shape (fold_left (walk_page tb rate Y M) ps w)).
  { induction ps as [|p ps IH]; intros w W; cbn [fold_left]; [exact W|].
    apply IH. unfold walk_page. now apply L. }
  apply P. split; [constructor | exact I].
Qed.

Lemma statement_trades_shape name pages tb :
  tables_shape tb ->
  Forall trade_shape (fst (parse_rbc_statement_trades name pages tb)).
Proof.
  intros S. unfold parse_rbc_statement_trades.
  destruct (extract_statement_year_month name) as [[[Y M] D]|] eqn:E;
    [|constructor].
  apply statement_date_inv in E
    as (pre & a & b & c & post & _ & _ & _ & _ & _ & _ & _ & _ & RY & _).
  cbn [fst]. now apply walk_statement_shape.
Qed.

Lemma collect_all_shape pages_by_file paths :
  tables_shape (collect_all pages_by_file paths).
Proof.
  unfold collect_all.
  assert (G : forall tb, tables_shape tb ->
                tables_shape
                  (fold_left
                     (fun tb path =>
                        match pages_of pages_by_file path with
                        | Some pages => collect_rbc_asset_aliases pages tb
                        | None => tb
                        end) paths tb)).
  { induction paths as [|p paths IH]; intros tb S; cbn [fold_left];
      [exact S|].
    apply IH. destruct (pages_of pages_by_file p); [|exact S].
    apply collect_pages_inv; [apply collect_asset_line_shape | exact S]. }
  apply G. split; constructor.
Qed.

Lemma parse_rbc_shape directory extract_pdf_pages :
  Forall trade_shape (fst (parse_rbc directory extract_pdf_pages)).
Proof.
  unfold parse_rbc.
  destruct (list_rbc_statement_pdfs directory) as [|p ps]; [constructor|].
  destruct (extract_pdf_pages (p :: ps)) as [e|pbf]; [constructor|].
  set (tb := collect_all pbf (p :: ps)).
  assert (S : tables_shape tb) by apply collect_all_shape.
  destruct (parse_all pbf tb (p :: ps)) as [ts out] eqn:E. cbn [fst].
  assert (T : ts = fst (parse_all pbf tb (p :: ps))) by now rewrite E.
  rewrite T. unfold parse_all. rewrite parse_fold_trades. cbn [fst app].
  apply Forall_forall. intros t I. apply in_flat_map in I as (path & _ & I).
  unfold file_trades in I. destruct (pages_of pbf path) as [pages|]; [|easy].
  pose proof (statement_trades_shape path pages tb S) as F.
  rewrite Forall_forall in F. now apply F.
Qed.

(** X14. Every trade of a run over the statements is well formed: its date
    is ten characters long, a year, a month from 01 to 12 and a day of
    two digits joined by hyphens (the day is not checked against the
    calendar); its symbol is not empty and is left as it is by
    [normalize_ticker_symbol]; its amount is an absolute value, that
    is a zero, a positive number, the positive infinity or NaN. *)
Theorem rbc_trades_well_formed (directory : option (list text))
  (extract_pdf_pages : list text -> extraction) :
  Forall (fun t =>
            trade_shape t
            /\ length (t_date t) = 10
            /\ t_symbol t <> []
            /\ normalize_ticker_symbol (t_symbol t) = t_symbol t)
         (fst (parse_rbc directory extract_pdf_pages)).
Proof.
  eapply Forall_impl; [|apply parse_rbc_shape].
  intros t S. split; [exact S|]. destruct S as (D & Y & _).
  split; [now apply iso_shape_length|].
  destruct Y as [Y|Y].
  - split; [now apply stored_symbol_nonempty | now apply stored_symbol_fixed].
  - apply issuer_symbol_fixed in Y as [Y1 Y2]. now split.
Qed.

(** ** The Wealthsimple exports *)

Lemma yield_trade_inv date sd ticker amount t :
  yield_trade date sd ticker amount = Yielded t ->
  exists a, float_of_text amount = Some a
            /\ t = Trade date sd ticker (fabs a)
            /\ date <> [] /\ ticker <> [] /\ amount <> [].
Proof.
  unfold yield_trade.
  destruct date as [|d date]; [discriminate|].
  destruct ticker as [|k ticker]; [discriminate|].
  destruct amount as [|x amount]; [discriminate|]. cbn [nonempty andb].
  destruct (float_of_text (x :: amount)) as [a|]; [|discriminate].
  intros [= <-]. exists a. repeat split; discriminate.
Qed.

Lemma yield_trade_shape date sd ticker amount t :
  yield_trade date sd (normalize_ticker_symbol ticker) amount = Yielded t ->
  ws_trade_shape t.
Proof.
  intros H. apply yield_trade_inv in H as (a & _ & -> & D & K & _).
  repeat split; cbn [t_date t_symbol t_amount]; auto.
  - apply normalize_ticker_symbol_idem.
  - apply fabs_not_negative.
Qed.

Lemma activities_row_shape row t :
  activities_row row = Yielded t -> ws_trade_shape t.
Proof.
  unfold activities_row. destruct (negb _); [discriminate|].
  destruct (side_of _); [|discriminate]. apply yield_trade_shape.
Qed.

Lemma monthly_row_shape row t :
  monthly_row row = Yielded t -> ws_trade_shape t.
Proof.
  unfold monthly_row.
  destruct (cell_default "transaction" row); [|discriminate].
  destruct (side_of _); [|discriminate].
  destruct (cell_default "description" row); [|discriminate].
  destruct (re_match OLD_WS_RE _); [|discriminate].
  destruct (cell_default "date" row); [|discriminate].
  destruct (cell_default "amount" row); [|discriminate].
  apply yield_trade_shape.
Qed.

Lemma drain_forall (P : trade -> Prop) body :
  (forall row t, body row = Yielded t -> P t) ->
  forall rws ts, drain body rws = Some ts -> Forall P ts.
Proof.
  intros B. induction rws as [|r rws IH]; intros ts H; cbn [drain] in H.
  - injection H as <-. constructor.
  - destruct (body r) as [| |t] eqn:E; [discriminate|now apply IH|].
    destruct (drain body rws) as [ts'|]; [|discriminate].
    injection H as <-. constructor; [now apply (B r) | now apply IH].
Qed.


Lemma parser_fn_shape p rws ts :
  parser_fn p rws = Some ts -> Forall ws_trade_shape ts.
Proof.
  destruct p; cbn [parser_fn];
    unfold parse_wealthsimple_activities, parse_wealthsimple_monthly;
    apply drain_forall;
    [apply activities_row_shape | apply monthly_row_shape].
Qed.

Lemma extend_all_shape p read files : forall parsed ts,
  Forall ws_trade_shape parsed ->
  extend_all p read files parsed = Some ts -> Forall ws_trade_shape ts.
Proof.
  induction files as [|f files IH]; intros parsed ts F H; cbn [extend_all] in H.
  - now injection H as <-.
  - destruct (parser_fn p (read f)) as [ts'|] eqn:E; [|discriminate].
    apply (IH _ _ (proj2 (Forall_app _ _ _)
                     (conj F (parser_fn_shape _ _ _ E))) H).
Qed.

Lemma source_specs_known key :
  In key (map fst source_specs) ->
  exists p, dict_get key source_specs = Some (key, p).
Proof.
  intros I. simpl in I.
  repeat (destruct I as [<-|I]; [eexists; vm_compute; reflexivity|]). easy.
Qed.

Lemma source_specs_rel key v :
  dict_get key source_specs = Some v -> In key (map fst source_specs).
Proof.
  intros H. apply dict_get_in in H.
  apply (in_map fst) in H. exact H.
Qed.

Lemma parse_order_known configured_src key :
  In key (parse_order configured_src) ->
  exists p, dict_get key source_specs = Some (key, p).
Proof.
  unfold parse_order. intros I. apply in_app_or in I as [I|I].
  - destruct (dict_get configured_src source_specs) as [v|] eqn:E; [|easy].
    destruct I as [<-|[]]. eapply source_specs_known, source_specs_rel, E.
  - apply filter_In in I as [I _]. now apply source_specs_known.
Qed.

Lemma ws_loop_spec dirs read configured_src : forall order parsed used ts us,
  (forall key, In key order ->
               exists p, dict_get key source_specs = Some (key, p)) ->
  ws_loop dirs read configured_src order parsed used = Some (ts, us) ->
  match find (has_files dirs) order with
  | None => ts = parsed /\ us = used
  | Some key =>
      us = used ++ [key]
      /\ exists p, dict_get key source_specs = Some (key, p)
                   /\ extend_all p (read key) (csv_files dirs key) parsed
                      = Some ts
  end.
Proof.
  induction order as [|key order IH]; intros parsed used ts us K H;
    cbn [ws_loop find] in *.
  - now injection H as <- <-.
  - destruct (K key (or_introl eq_refl)) as (p & Ek). rewrite Ek in H.
    assert (K' : forall k, In k order ->
                   exists p, dict_get k source_specs = Some (k, p))
      by (intros k I; apply K; now right).
    unfold has_files at 1, csv_files at 1.
    destruct (dirs key) as [entries|] eqn:Ed; [|now apply IH].
    destruct (sorted (filter (endswith ".csv") entries)) as [|f files] eqn:Ef;
      [now apply IH|].
    destruct (extend_all p (read key) (f :: files) parsed) as [ts'|] eqn:Ex;
      [|discriminate].
    assert (R : Some (ts', used ++ [key]) = Some (ts, us))
      by (destruct (text_eqb key configured_src); exact H).
    injection R as <- <-. split; [reflexivity|]. exists p.
    split; [exact Ek|]. unfold csv_files. now rewrite Ed, Ef.
Qed.

(** X15. Trades of two Wealthsimple folders are never merged: the folders
    are tried in a fixed order, the configured one first when it is one
    of the three known, and the first folder that holds a [.csv] file
    is the only one parsed; when no folder holds one, nothing is parsed
    and no source is reported. *)
Theorem ws_single_source (dirs : text -> option (list text))
  (read_csv : text -> text -> list csv_row) (configured_src : text)
  (ts : list trade) (used : list text) (log : list text) :
  parse_wealthsimple_from_available_sources (Some dirs) read_csv configured_src
  = (Some (ts, used), log) ->
  length used <= 1
  /\ match first_source dirs configured_src with
     | None => ts = [] /\ used = []
     | Some key =>
         used = [key]
         /\ exists p, dict_get key source_specs = Some (key, p)
                      /\ extend_all p (read_csv key) (csv_files dirs key) []
                         = Some ts
     end
  /\ (dict_get configured_src source_specs <> None ->
      has_files dirs configured_src = true ->
      first_source dirs configured_src = Some configured_src).
Proof.
  cbn [parse_wealthsimple_from_available_sources]. intros [= H _].
  apply ws_loop_spec in H; [|apply parse_order_known].
  fold (first_source dirs configured_src) in H.
  split; [|split; [exact H|]].
  - destruct (first_source dirs configured_src).
    + destruct H as [-> _]. simpl. lia.
    + destruct H as [_ ->]. simpl. lia.
  - intros N F. unfold first_source, parse_order.
    destruct (dict_get configured_src source_specs); [|easy].
    cbn [app find]. now rewrite F.
Qed.

Lemma ws_single_source_witness :
  length [("monthly_csvs" : text)] <= 1
  /\ match first_source sample_ws_dirs "monthly_csvs" with
     | None => @nil trade = [] /\ [("monthly_csvs" : text)] = []
     | Some key =>
         [("monthly_csvs" : text)] = [key]
         /\ exists p, dict_get key source_specs = Some (key, p)
                      /\ extend_all p (sample_ws_read key)
                           (csv_files sample_ws_dirs key) []
                         = Some []
     end
  /\ (dict_get ("monthly_csvs" : text) source_specs <> None ->
      has_files sample_ws_dirs "monthly_csvs" = true ->
      first_source sample_ws_dirs "monthly_csvs" = Some ("monthly_csvs" : text)).
Proof.
  apply (ws_single_source sample_ws_dirs sample_ws_read "monthly_csvs"
           [] [("monthly_csvs" : text)] []).
  vm_compute. reflexivity.
Defined.

(** X16. Whatever the Wealthsimple files hold, every tuple parsed from them
    has a date and a ticker that are not empty, a ticker that
    [normalize_ticker_symbol] leaves as it is, and an amount that is an
    absolute value. *)
Theorem ws_trades_well_formed
  (ws_root : option (text -> option (list text)))
  (read_csv : text -> text -> list csv_row) (configured_src : text)
  (ts : list trade) (used : list text) (log : list text) :
  parse_wealthsimple_from_available_sources ws_root read_csv configured_src
  = (Some (ts, used), log) ->
  Forall ws_trade_shape ts.
Proof.
  destruct ws_root as [dirs|];
    cbn [parse_wealthsimple_from_available_sources]; intros [= H _];
    [|subst; constructor].
  apply ws_loop_spec in H; [|apply parse_order_known].
  destruct (find (has_files dirs) (parse_order configured_src)).
  - destruct H as (_ & p & _ & H). eapply extend_all_shape; [|exact H].
    constructor.
  - destruct H as [-> _]. constructor.
Qed.

Lemma ws_trades_well_formed_witness :
  Forall ws_trade_shape
    [Trade "2024-01-02" BUY "GOOG" (double 10.5);
     Trade "2024-01-02" BUY "GOOG" (double 10.5)].
Proof.
  apply (ws_trades_well_formed (Some sample_ws_dirs) sample_ws_read
           "activities_export" _ [("activities_export" : text)] []).
  vm_compute. reflexivity.
Defined.







(** ** The configured source *)

Lemma trade_src_groups_sat : groups_sat src_group TRADE_SRC_RE.
Proof.
  unfold TRADE_SRC_RE, plus, star. cbn [seqs groups_sat].
  repeat match goal with
         | |- _ /\ _ => split
         | |- True => exact I
         end.
  intros st st' H _.
  apply in_run_rep_word in H as (w & R & _ & _ & F & L).
  rewrite (consumed_of_rest _ _ _ R). split.
  - intros ->. simpl in L. lia.
  - eapply Forall_impl; [|exact F]. intros c Hc.
    now apply negb_true_iff in Hc.
Qed.

(** X18. The configured source is never empty and never holds a quote; it is
    [activities_export] when there is no configuration file. *)
Theorem trade_src_plain (config : option text) :
  get_wealthsimple_trade_src config <> []
  /\ Forall (fun c => is_quote c = false) (get_wealthsimple_trade_src config)
  /\ get_wealthsimple_trade_src None = "activities_export".
Proof.
  split; [|split; [|reflexivity]].
  - destruct config as [t|]; cbn [get_wealthsimple_trade_src];
      [|discriminate].
    destruct (re_search TRADE_SRC_RE t) as [m|] eqn:E; [|discriminate].
    apply (re_search_group src_group TRADE_SRC_RE 0 t m trade_src_groups_sat
             eq_refl E eq_refl).
  - destruct config as [t|]; cbn [get_wealthsimple_trade_src];
      [|now repeat constructor].
    destruct (re_search TRADE_SRC_RE t) as [m|] eqn:E;
      [|now repeat constructor].
    apply (re_search_group src_group TRADE_SRC_RE 0 t m trade_src_groups_sat
             eq_refl E eq_refl).
Qed.

(** ** Dates compare as texts the way they compare as dates *)

Lemma int_of_digits_shift a : forall acc,
  fold_left (fun acc c => (10 * acc + digit_value c)%Z) a acc
  = (acc * 10 ^ Z.of_nat (length a)
     + fold_left (fun acc c => (10 * acc + digit_value c)%Z) a 0)%Z.
Proof.
  induction a as [|c a IH]; intros acc; cbn [fold_left length].
  - simpl. lia.
  - rewrite (IH (10 * acc + digit_value c)%Z), (IH (10 * 0 + digit_value c)%Z).
    rewrite Nat2Z.inj_succ, Z.pow_succ_r by lia. ring.
Qed.

Lemma int_of_digits_cons c a :
  int_of_digits (c :: a)
  = (digit_value c * 10 ^ Z.of_nat (length a) + int_of_digits a)%Z.
Proof.
  unfold int_of_digits. cbn [fold_left]. rewrite int_of_digits_shift.
  reflexivity.
Qed.

Lemma digit_code c :
  is_digit c = true -> digit_value c = (Z.of_nat (code c) - 48)%Z
                       /\ 48 <= code c <= 57.
Proof.
  unfold is_digit, between, digit_value. intros H.
  apply andb_true_iff in H as [H1 H2].
  apply Nat.leb_le in H1, H2. split; lia.
Qed.

Lemma digits_leb a : forall b,
  length a = length b ->
  Forall (fun c => is_digit c = true) a ->
  Forall (fun c => is_digit c = true) b ->
  (text_leb a b = true <-> (int_of_digits a <= int_of_digits b)%Z).
Proof.
  induction a as [|x a IH]; intros [|y b] L Fa Fb; try discriminate.
  - cbn. split; [lia | reflexivity].
  - injection L as L. inversion Fa as [|? ? Hx Fa']; subst.
    inversion Fb as [|? ? Hy Fb']; subst.
    rewrite !int_of_digits_cons, <- L.
    pose proof (int_of_digits_range a Fa') as Ra.
    pose proof (int_of_digits_range b Fb') as Rb. rewrite <- L in Rb.
    destruct (digit_code x Hx) as [Dx Cx], (digit_code y Hy) as [Dy Cy].
    set (P := (10 ^ Z.of_nat (length a))%Z) in *.
    specialize (IH b L Fa' Fb'). cbn [text_leb].
    destruct (Nat.ltb_spec (code x) (code y)).
    { split; [intros _; nia | reflexivity]. }
    destruct (Nat.ltb_spec (code y) (code x)).
    { split; [discriminate | intros; nia]. }
    assert (digit_value x = digit_value y) as -> by lia.
    rewrite IH. lia.
Qed.

Lemma text_leb_app a : forall b x y,
  length a = length b ->
  text_leb (a ++ x) (b ++ y)
  = if text_eqb a b then text_leb x y else text_leb a b.
Proof.
  induction a as [|c a IH]; intros [|d b] x y L; try discriminate;
    [reflexivity|].
  injection L as L. cbn [app text_leb text_eqb]. unfold ascii_eqb.
  destruct (Nat.ltb_spec (code c) (code d)).
  { replace (code c =? code d) with false
      by (symmetry; apply Nat.eqb_neq; lia). reflexivity. }
  destruct (Nat.ltb_spec (code d) (code c)).
  { replace (code c =? code d) with false
      by (symmetry; apply Nat.eqb_neq; lia). reflexivity. }
  replace (code c =? code d) with true by (symmetry; apply Nat.eqb_eq; lia).
  cbn [andb]. now apply IH.
Qed.

Lemma format_year_digits y :
  (0 <= y <= 9999)%Z ->
  length (format_0d 4 y) = 4
  /\ Forall (fun c => is_digit c = true) (format_0d 4 y)
  /\ int_of_digits (format_0d 4 y) = y.
Proof.
  intros R.
  assert (G : forallb
                (fun n => let s := format_0d 4 (Z.of_nat n) in
                          (length s =? 4) && forallb is_digit s
                          && (int_of_digits s =? Z.of_nat n)%Z)
                (seq 0 (Z.to_nat 10000)) = true) by (vm_compute; reflexivity).
  rewrite forallb_forall in G. specialize (G (Z.to_nat y)).
  replace (Z.of_nat (Z.to_nat y)) with y in G by lia. cbn zeta in G.
  assert (I : In (Z.to_nat y) (seq 0 (Z.to_nat 10000))) by (apply in_seq; lia).
  apply G in I. apply andb_true_iff in I as [I I3].
  apply andb_true_iff in I as [I1 I2].
  split; [now apply Nat.eqb_eq|]. split; [|now apply Z.eqb_eq].
  now apply Forall_forall, forallb_forall.
Qed.

Lemma format_two_digits z :
  (0 <= z <= 99)%Z ->
  length (format_0d 2 z) = 2
  /\ Forall (fun c => is_digit c = true) (format_0d 2 z)
  /\ int_of_digits (format_0d 2 z) = z.
Proof.
  intros R.
  assert (G : forallb
                (fun n => let s := format_0d 2 (Z.of_nat n) in
                          (length s =? 2) && forallb is_digit s
                          && (int_of_digits s =? Z.of_nat n)%Z)
                (seq 0 100) = true) by (vm_compute; reflexivity).
  rewrite forallb_forall in G. specialize (G (Z.to_nat z)).
  replace (Z.of_nat (Z.to_nat z)) with z in G by lia. cbn zeta in G.
  assert (I : In (Z.to_nat z) (seq 0 100)) by (apply in_seq; lia).
  apply G in I. apply andb_true_iff in I as [I I3].
  apply andb_true_iff in I as [I1 I2].
  split; [now apply Nat.eqb_eq|]. split; [|now apply Z.eqb_eq].
  now apply Forall_forall, forallb_forall.
Qed.

(** The order of two numerals of the same width, followed by anything. *)
Lemma numerals_leb a b x y :
  length a = length b ->
  Forall (fun c => is_digit c = true) a ->
  Forall (fun c => is_digit c = true) b ->
  (text_leb (a ++ x) (b ++ y) = true <->
   (int_of_digits a < int_of_digits b)%Z
   \/ (int_of_digits a = int_of_digits b /\ text_leb x y = true)).
Proof.
  intros L Fa Fb. rewrite (text_leb_app a b x y L).
  pose proof (digits_leb a b L Fa Fb) as AB.
  pose proof (digits_leb b a (eq_sym L) Fb Fa) as BA.
  destruct (text_eqb a b) eqn:E.
  - apply text_eqb_eq in E as ->. split; [now right|].
    intros [H|[_ H]]; [lia | exact H].
  - assert (N : a <> b) by (intros ->; now rewrite text_eqb_refl in E).
    assert (D : int_of_digits a <> int_of_digits b).
    { intros Q. apply N.
      assert (T1 : text_leb a b = true) by (apply AB; lia).
      assert (T2 : text_leb b a = true) by (apply BA; lia).
      clear -L T1 T2. revert b L T1 T2.
      induction a as [|c a IH]; intros [|d b] L T1 T2; try discriminate;
        [reflexivity|].
      cbn [text_leb] in T1, T2.
      destruct (Nat.ltb_spec (code c) (code d)),
               (Nat.ltb_spec (code d) (code c)); try discriminate; try lia.
      injection L as L. f_equal; [apply code_inj; lia | now apply IH]. }
    rewrite AB. split; [intros H; left; lia | intros [H|[H _]]; lia].
Qed.

(** X19. The dates the walk writes compare as texts exactly as they compare
    as dates: by year, then by month, then by day.  So a sort of the
    trades on the date text is a sort in time. *)
Theorem iso_dates_order (y mn dd y' mn' dd' : Z) :
  (0 <= y <= 9999)%Z -> (0 <= mn <= 99)%Z -> (0 <= dd <= 99)%Z ->
  (0 <= y' <= 9999)%Z -> (0 <= mn' <= 99)%Z -> (0 <= dd' <= 99)%Z ->
  (text_leb (iso_date y mn dd) (iso_date y' mn' dd') = true <->
   (y < y' \/ (y = y' /\ (mn < mn' \/ (mn = mn' /\ dd <= dd'))))%Z).
Proof.
  intros Ry Rm Rd Ry' Rm' Rd'. unfold iso_date.
  destruct (format_year_digits y Ry) as (L1 & F1 & I1).
  destruct (format_year_digits y' Ry') as (L1' & F1' & I1').
  destruct (format_two_digits mn Rm) as (L2 & F2 & I2).
  destruct (format_two_digits mn' Rm') as (L2' & F2' & I2').
  destruct (format_two_digits dd Rd) as (L3 & F3 & I3).
  destruct (format_two_digits dd' Rd') as (L3' & F3' & I3').
  rewrite numerals_leb by (auto; congruence). rewrite I1, I1'.
  change (text_leb (("-" : text) ++ ?a) (("-" : text) ++ ?b))
    with (text_leb a b).
  rewrite numerals_leb by (auto; congruence). rewrite I2, I2'.
  change (text_leb (("-" : text) ++ ?a) (("-" : text) ++ ?b))
    with (text_leb a b).
  rewrite <- (app_nil_r (format_0d 2 dd)), <- (app_nil_r (format_0d 2 dd')).
  rewrite numerals_leb by (auto; congruence). rewrite I3, I3'.
  cbn [text_leb]. intuition lia.
Qed.

Lemma iso_dates_order_witness :
  text_leb (iso_date 2022 12 31) (iso_date 2023 1 5) = true <->
  (2022 < 2023 \/ (2022 = 2023 /\ (12 < 1 \/ (12 = 1 /\ 31 <= 5))))%Z.
Proof. apply iso_dates_order; lia. Defined.

(** ** A listed holding can be resolved *)

Lemma filter_join (p : ascii -> bool) sep toks :
  filter p sep = [] -> filter p (join sep toks) = filter p (concat toks).
Proof.
  intros S. induction toks as [|t ts IH]; [reflexivity|].
  destruct ts as [|u ts]; [cbn; now rewrite app_nil_r|].
  change (join sep (t :: u :: ts)) with (t ++ sep ++ join sep (u :: ts)).
  change (concat (t :: u :: ts)) with (t ++ concat (u :: ts)).
  now rewrite !filter_app, S, IH.
Qed.

Lemma filter_split_ws (p : ascii -> bool) s : forall cur,
  (forall c, is_space c = true -> p c = false) ->
  filter p (concat (split_ws_from cur s)) = filter p (rev cur ++ s).
Proof.
  intros cur H. revert cur.
  induction s as [|c s IH]; intros cur; cbn [split_ws_from].
  - destruct cur as [|x cur]; [reflexivity|]. cbn [concat].
    now rewrite !app_nil_r.
  - destruct (is_space c) eqn:E.
    + destruct cur as [|x cur].
      * rewrite (IH []). cbn [rev app filter]. now rewrite (H c E).
      * cbn [concat]. rewrite !filter_app, (IH []). cbn [rev app filter].
        now rewrite (H c E).
    + rewrite (IH (c :: cur)). cbn [rev]. now rewrite <- app_assoc.
Qed.

Lemma filter_normalize_space (p : ascii -> bool) t :
  (forall c, is_space c = true -> p c = false) ->
  filter p (normalize_space t) = filter p t.
Proof.
  intros H. rewrite normalize_space_join, filter_join.
  - unfold split_ws. now rewrite filter_split_ws.
  - cbn. now rewrite (H " "%char eq_refl).
Qed.

Lemma compact_key_normalize_space t :
  compact_key (normalize_space t) = compact_key t.
Proof.
  rewrite !compact_key_filter, <- normalize_space_upper.
  apply filter_normalize_space.
  intros c H.
  assert (G : forall x, is_space x = true -> negb (is_upper_or_digit x) = true)
    by (apply class_incl; vm_compute; reflexivity).
  now apply negb_true_iff, G.
Qed.










(** ** First occurrence wins *)

Lemma setdefault_value_keeps k k' v v' d :
  dict_get k d = Some v -> dict_get k (setdefault k' v' d) = Some v.
Proof.
  intros H. unfold setdefault. destruct (dict_mem k' d); [exact H|].
  rewrite dict_get_app. now rewrite H.
Qed.

Lemma setdefault_value_new k v d :
  dict_get k d = None -> dict_get k (setdefault k v d) = Some v.
Proof.
  intros H. unfold setdefault, dict_mem. rewrite H, dict_get_app, H.
  cbn. now rewrite text_eqb_refl.
Qed.

Lemma collect_asset_line_keeps_value k v line tb :
  dict_get k (compact_to_symbol tb) = Some v ->
  dict_get k (compact_to_symbol (collect_asset_line line tb)) = Some v.
Proof.
  unfold collect_asset_line. intros H.
  destruct (re_match RBC_ASSET_LINE_RE line); [|exact H].
  cbn [compact_to_symbol]. destruct (nonempty _); [|exact H].
  now apply setdefault_value_keeps.
Qed.

Lemma collect_asset_line_first line tb m :
  re_match RBC_ASSET_LINE_RE line = Some m ->
  compact_key (group 1 m) <> [] ->
  dict_get (compact_key (group 1 m)) (compact_to_symbol tb) = None ->
  dict_get (compact_key (group 1 m))
           (compact_to_symbol (collect_asset_line line tb))
  = Some (normalize_ticker_symbol (upper (group 2 m))).
Proof.
  intros E N K. unfold collect_asset_line. rewrite E.
  cbn [compact_to_symbol]. rewrite compact_key_normalize_space.
  destruct (compact_key (group 1 m)) eqn:C; [easy|]. cbn [nonempty].
  now apply setdefault_value_new.
Qed.

(** X2. First occurrence wins.  Collecting over tables that already hold
    entries leaves the symbol of every key that is present, in both
    tables.  And a row read inside an Asset Review section, whose
    description gives a key that no earlier page and no earlier line
    of its page has stored, stores its own symbol under that key; the
    entry is still there, unchanged, when all the pages have been
    collected. *)
Theorem alias_first_occurrence_wins (pages_before pages_after : list text)
  (page : text) (l1 l2 : list text) (line : text) (tb : tables) (m : mstate) :
  let tb0 := collect_rbc_asset_aliases pages_before tb in
  let st1 := fold_left collect_line l1 (false, tb0) in
  let key := compact_key (group 1 m) in
  let final :=
    collect_rbc_asset_aliases (pages_before ++ page :: pages_after) tb in
  page_lines page = l1 ++ line :: l2 ->
  fst st1 = true ->
  contains "Asset Review" line = false ->
  contains "Account Activity" line = false ->
  re_match RBC_ASSET_LINE_RE line = Some m ->
  key <> [] ->
  dict_get key (compact_to_symbol (snd st1)) = None ->
  dict_get key (compact_to_symbol final)
  = Some (normalize_ticker_symbol (upper (group 2 m)))
  /\ (forall k v, dict_get k (compact_to_symbol tb) = Some v ->
                  dict_get k (compact_to_symbol final) = Some v)
  /\ (forall k v, dict_get k (code_to_symbol tb) = Some v ->
                  dict_get k (code_to_symbol final) = Some v).
Proof.
  intros tb0 st1 key final P R A1 A2 E N K.
  split; [|split].
  - unfold final, collect_rbc_asset_aliases. rewrite fold_left_app.
    cbn [fold_left]. fold (collect_rbc_asset_aliases pages_before tb).
    fold tb0.
    apply (collect_pages_inv
             (fun t => dict_get key (compact_to_symbol t)
                       = Some (normalize_ticker_symbol (upper (group 2 m))))).
    { intros l t. apply collect_asset_line_keeps_value. }
    unfold collect_page. rewrite P, fold_left_app. cbn [fold_left].
    fold st1. destruct st1 as [b1 tb1]. cbn [fst snd] in R, K. subst b1.
    assert (S2 : collect_line (true, tb1) line
                 = (true, collect_asset_line line tb1)).
    { unfold collect_line. rewrite A1, A2.
      destruct line; [discriminate E | reflexivity]. }
    rewrite S2.
    apply (collect_lines_inv
             (fun t => dict_get key (compact_to_symbol t)
                       = Some (normalize_ticker_symbol (upper (group 2 m))))).
    { intros l t. apply collect_asset_line_keeps_value. }
    cbn [snd]. now apply collect_asset_line_first.
  - intros k v H.
    destruct (collect_pages_first_wins (pages_before ++ page :: pages_after))
      as (f1 & f2 & H1 & H2 & Eq).
    unfold final. rewrite (Eq tb). cbn [compact_to_symbol].
    now rewrite (H1 (compact_to_symbol tb) k), H.
  - intros k v H.
    destruct (collect_pages_first_wins (pages_before ++ page :: pages_after))
      as (f1 & f2 & H1 & H2 & Eq).
    unfold final. rewrite (Eq tb). cbn [code_to_symbol].
    now rewrite (H2 (code_to_symbol tb) k), H.
Qed.

Lemma alias_first_occurrence_wins_witness :
  dict_get "APPLEINC"
    (compact_to_symbol
       (collect_rbc_asset_aliases
          ([] ++ january_page :: [february_page])
          (Tables [("OTHER" : text, "OTH" : text)] [])))
  = Some ("AAPL" : text).
Proof.
  assert (E : exists m, re_match RBC_ASSET_LINE_RE sample_asset_row = Some m
                        /\ compact_key (group 1 m) = ("APPLEINC" : text)
                        /\ normalize_ticker_symbol (upper (group 2 m))
                           = ("AAPL" : text)).
  { vm_compute. eexists. repeat split. }
  destruct E as (m & E & G1 & G2). rewrite <- G1, <- G2.
  refine (proj1 (alias_first_occurrence_wins [] [february_page] january_page
                   [("Asset Review" : text)] [] sample_asset_row
                   (Tables [("OTHER" : text, "OTH" : text)] []) m
                   _ _ _ _ _ _ _)).
  - vm_compute. reflexivity.
  - vm_compute. reflexivity.
  - vm_compute. reflexivity.
  - vm_compute. reflexivity.
  - exact E.
  - rewrite G1. discriminate.
  - rewrite G1. vm_compute. reflexivity.
Defined.
